(** * Before/After Pro: canvas compositing, GIF frame schedule, HTML export
      and slider listener management.

    Shallow embedding of [src/utils/imageProcessing.ts] ([createSideBySide],
    [resizeImage]), of the GIF exporter ([createSliderGif],
    [renderSliderFrame]), of [src/utils/exporters.ts] ([escapeHtml],
    [exportHtmlSlider], [initInlineSlider], [initFullscreenSlider] and
    their destroyers) and of the camera helper [captureFrame].  Where the
    tree holds two revisions of a function, the embedding follows the
    current one (with watermark, validation and listener cleanup).

    Conventions of the embedding.
    - JavaScript numbers are binary64 values, modelled by the rationals
      they denote ([Q]); pixel dimensions and [maxDimension] are integers
      ([Z]).  Wherever the code rounds a computed number to an integer
      ([Math.round] of a product or a quotient), the arithmetic is that
      of binary64 ([Binary64.fmul], [Binary64.fdiv], ...), so that the
      integer is the one the engine gets.  The layout of the side-by-side
      picture, the coordinates handed to a canvas and the sizes given to
      styles are kept as the exact values of their expressions, from
      which the engine's numbers differ by rounding errors of relative
      size [2^-53]; the easing curve, the frame schedule, [resizeImage]
      and the slider percentage are given in this real reading too, next
      to their binary64 computation.  Division is only used with a
      divisor that the statements assume non-zero (images with pixels),
      where it is the division of JavaScript.
    - JavaScript strings are sequences of UTF-16 code units ([list Z]).
    - The 2D canvas is modelled by the list of drawing commands issued on
      its context, in program order; what the platform computes from them
      (text metrics, pixel data, encodings) is a parameter.
    - A thrown exception is the [Throw] constructor of [completion].
    - Event listeners live in one registry in registration order; a
      handler closure is identified by the call that allocated it. *)

From Stdlib Require Import ZArith QArith Qround Qminmax Qabs Qpower.
From Stdlib Require Import List String Ascii Bool Lia.
From Stdlib.Strings Require Import Byte.
From Stdlib Require Import Lqa.
Import ListNotations.


(* ------------------------------------------------------------------ *)
(** ** JavaScript numbers and the [Math] functions the code uses        *)
(* ------------------------------------------------------------------ *)

Module JS.

Open Scope Q_scope.

(** [Math.floor]. *)
Definition Math_floor (x : Q) : Z := Qfloor x.

(** [Math.ceil]. *)
Definition Math_ceil (x : Q) : Z := Qceiling x.

(** [Math.round]: nearest integer, ties towards +infinity. *)
Definition Math_round (x : Q) : Z := Qfloor (x + (1 # 2)).

(** [Math.max] and [Math.min] on integer-valued arguments. *)
Definition Math_max (a b : Z) : Z := Z.max a b.
Definition Math_min (a b : Q) : Q := Qmin a b.

(** [Math.pow(x, 2)]. *)
Definition Math_pow2 (x : Q) : Q := x * x.

(** [a < b] on numbers. *)
Definition lt (a b : Q) : bool :=
  match a ?= b with Lt => true | _ => false end.

(** Completion of a call: a returned value or a thrown [Error]. *)
Inductive completion (A : Type) : Type :=
| Return (a : A)
| Throw (message : string).

Arguments Return {A} a.
Arguments Throw {A} message.

(** [Array.prototype.push] on an array modelled as a list. *)
Definition push {A : Type} (arr : list A) (x : A) : list A := arr ++ [x].

(** [for (let i = lo; i < hi; i += stride) acc = body(i, acc)].  The
    fuel bounds the number of iterations. *)
Fixpoint for_fuel {A : Type} (fuel : nat) (i hi stride : Z)
         (body : Z -> A -> A) (acc : A) : A :=
  match fuel with
  | O => acc
  | S k => if (i <? hi)%Z
           then for_fuel k (i + stride)%Z hi stride body (body i acc)
           else acc
  end.

(** A loop with a positive stride runs at most [hi - lo] times. *)
Definition for_stride {A : Type} (lo hi stride : Z)
           (body : Z -> A -> A) (acc : A) : A :=
  for_fuel (Z.to_nat (hi - lo)) lo hi stride body acc.

Definition for_range {A : Type} (lo hi : Z)
           (body : Z -> A -> A) (acc : A) : A :=
  for_stride lo hi 1 body acc.

End JS.

Import JS.

(* ------------------------------------------------------------------ *)
(** ** Binary64 arithmetic                                              *)
(* ------------------------------------------------------------------ *)

(** A JavaScript number is an IEEE 754 binary64 value; every arithmetic
    operation returns the binary64 number nearest to the exact result,
    ties going to the even significand.  The finite numbers are modelled
    by the rationals they denote; values of magnitude [2^1024] and more
    (the infinities) are not modelled, nor is NaN. *)

Module Binary64.

Open Scope Q_scope.

(** Nearest integer, ties to the even one. *)
Definition round_half_even (x : Q) : Z :=
  let f := Qfloor x in
  match Qcompare (x - inject_Z f) (1 # 2) with
  | Lt => f
  | Gt => (f + 1)%Z
  | Eq => if Z.even f then f else (f + 1)%Z
  end.

(** [floor (log2 x)] for a positive [x]. *)
Definition ilog2 (x : Q) : Z :=
  let k := (Z.log2 (Qnum x) - Z.log2 (Zpos (Qden x)))%Z in
  if Qle_bool (2 ^ k) x then k else (k - 1)%Z.

(** The exponent of the last bit of the 53-bit significand at [x];
    the subnormal numbers all end at [2^-1074]. *)
Definition ulp_exp (x : Q) : Z := Z.max (ilog2 (Qabs x) - 52) (-1074).

(** The binary64 number nearest to [x], ties to even. *)
Definition fl (x : Q) : Q :=
  if Qeq_bool x 0 then 0
  else let e := ulp_exp x in
       inject_Z (round_half_even (x / 2 ^ e)) * 2 ^ e.

(** [a * b], [a / b], [a + b] and [a - b] on numbers. *)
Definition fmul (a b : Q) : Q := fl (a * b).
Definition fdiv (a b : Q) : Q := fl (a / b).
Definition fadd (a b : Q) : Q := fl (a + b).
Definition fsub (a b : Q) : Q := fl (a - b).

(** Half the distance from 1 to the next number: the relative error
    bound of one operation. *)
Definition unit_roundoff : Q := 1 # 9007199254740992.

End Binary64.

Import Binary64.

(* ------------------------------------------------------------------ *)
(** ** JavaScript strings                                               *)
(* ------------------------------------------------------------------ *)

Module Str.

Open Scope Z_scope.

(** A string is its sequence of UTF-16 code units. *)
Definition jsstring : Type := list Z.

(** An ASCII literal of the source. *)
Definition lit (s : string) : jsstring :=
  map (fun c => Z.of_N (N_of_ascii c)) (list_ascii_of_string s).

(** ECMAScript [WhiteSpace] and [LineTerminator] code points: what
    [String.prototype.trim] strips. *)
Definition is_white_space (c : Z) : bool :=
  (c =? 9) || (c =? 10) || (c =? 11) || (c =? 12) || (c =? 13) ||
  (c =? 32) || (c =? 160) || (c =? 5760) ||
  ((8192 <=? c) && (c <=? 8202)) ||
  (c =? 8232) || (c =? 8233) || (c =? 8239) || (c =? 8287) ||
  (c =? 12288) || (c =? 65279).

Fixpoint trimStart (s : jsstring) : jsstring :=
  match s with
  | [] => []
  | c :: s' => if is_white_space c then trimStart s' else s
  end.

Definition trimEnd (s : jsstring) : jsstring := rev (trimStart (rev s)).

(** [s.trim()]. *)
Definition trim (s : jsstring) : jsstring := trimEnd (trimStart s).

(** Truthiness of a string: non-empty. *)
Definition truthy (s : jsstring) : bool :=
  match s with [] => false | _ :: _ => true end.

(** [s.startsWith(p)]. *)
Fixpoint startsWith (s p : jsstring) : bool :=
  match p, s with
  | [], _ => true
  | _ :: _, [] => false
  | c :: p', d :: s' => (c =? d) && startsWith s' p'
  end.

(** [s.replace(/c/g, rep)] for a one-character pattern. *)
Fixpoint replace_all (c : Z) (rep : jsstring) (s : jsstring) : jsstring :=
  match s with
  | [] => []
  | d :: s' => (if d =? c then rep else [d]) ++ replace_all c rep s'
  end.

End Str.

Import Str.

(* ------------------------------------------------------------------ *)
(** ** The 2D canvas                                                    *)
(* ------------------------------------------------------------------ *)

Module Canvas.

Open Scope Z_scope.

(** A decoded [HTMLImageElement]: the data URL it was loaded from and its
    pixel dimensions. *)
Record Image : Type := mkImage { src : jsstring; width : Z; height : Z }.

(** An [HTMLVideoElement]: the native size of its current frame. *)
Record VideoElement : Type := mkVideo { videoWidth : Z; videoHeight : Z }.

(** A decoded bitmap with at least one pixel in each direction. *)
Definition has_pixels (i : Image) : Prop := 0 < width i /\ 0 < height i.

(** What [drawImage] can paint. *)
Inductive drawable : Type :=
| Img (i : Image)
| Video (v : VideoElement).

(** [ctx.font = `${bold ? 'bold ' : ''}${size}px ${family}`]. *)
Record font : Type := mkFont { bold : bool; size : Z; family : string }.

(** Commands on a [CanvasRenderingContext2D]. *)
Inductive op : Type :=
| SetFillStyle (style : string)
| SetFont (f : font)
| SetTextAlign (a : string)
| SetTextBaseline (b : string)
| SetShadowColor (c : string)
| SetShadowBlur (b : Q)
| FillRect (x y w h : Q)
| DrawImage (s : drawable) (dx dy : Q)
| DrawImageScaled (s : drawable) (dx dy dw dh : Q)
| Save
| Restore
| BeginPath
| ClosePath
| Rect (x y w h : Q)
| RoundRect (x y w h r : Q)
(** [arc(x, y, r, 0, Math.PI * 2)]: a full circle. *)
| Arc (x y r : Q)
| MoveTo (x y : Q)
| LineTo (x y : Q)
| Clip
| Fill
| FillText (text : jsstring) (x y : Q).

(** A canvas element: its bitmap size and the commands drawn on it. *)
Record canvas : Type := mkCanvas { cwidth : Z; cheight : Z; ops : list op }.

(** A call [canvas.toDataURL(type, quality)].  A bitmap without pixels
    encodes as the string [data:,] (HTML, "the canvas element"); anything
    else is the encoder's business. *)
Definition toDataURL (encode : canvas -> string -> Q -> jsstring)
           (c : canvas) (type : string) (quality : Q) : jsstring :=
  if (cwidth c =? 0) || (cheight c =? 0) then lit "data:,"
  else encode c type quality.

End Canvas.

Import Canvas.

(* ------------------------------------------------------------------ *)
(** ** [createSideBySide] and [resizeImage] (imageProcessing.ts)        *)
(* ------------------------------------------------------------------ *)

Module SideBySide.

Open Scope Q_scope.

(** A [Date], as its time value. *)
Definition Date : Type := Z.

(** [interface SideBySideOptions]; every field is optional. *)
Record SideBySideOptions : Type := mkOptions {
  quality : option Q;
  watermark : option jsstring;
  beforeDate : option Date;
  afterDate : option Date;
  showDates : option bool
}.

(** [options = {}]. *)
Definition no_options : SideBySideOptions :=
  mkOptions None None None None None.

(** Destructuring default: [{ x = d } = options]. *)
Definition default {A : Type} (d : A) (o : option A) : A :=
  match o with Some x => x | None => d end.

(** 4px divider between images. *)
Definition divider : Z := 4.

(** [watermark.trim() ? Math.max(36, Math.floor(h * 0.04)) : 0]. *)
Definition watermark_strip (watermark : jsstring) (h : Z) : Z :=
  if truthy (trim watermark)
  then Math_max 36 (Math_floor (inject_Z h * 0.04))
  else 0%Z.

Section Platform.

(** [ctx.measureText(text).width] under the current font. *)
Variable measureText : font -> jsstring -> Q.
(** [Intl.DateTimeFormat('en-US', {month: 'short', ...}).format]. *)
Variable formatDate : Date -> jsstring.
(** The image encoder behind [toDataURL]. *)
Variable encode : canvas -> string -> Q -> jsstring.
(** [loadImg]: decoding a data URL resolves to an image or rejects. *)
Variable loadImg : jsstring -> completion Image.

(** The body of [createSideBySide] once both images are loaded: the
    canvas it builds, and the quality it encodes it with. *)
Definition compose (beforeImg afterImg : Image)
           (options : SideBySideOptions) : canvas * Q :=
  let quality := default 0.9 (quality options) in
  let watermark := default [] (watermark options) in
  let beforeDate := beforeDate options in
  let afterDate := afterDate options in
  let showDates := default true (showDates options) in
  (* Use the max dimensions to normalize *)
  let w := Math_max (width beforeImg) (width afterImg) in
  let h := Math_max (height beforeImg) (height afterImg) in
  let watermarkH := watermark_strip watermark h in
  let canvas_width := (w * 2 + divider)%Z in
  let canvas_height := (h + watermarkH)%Z in
  let W := inject_Z w in
  let H := inject_Z h in
  let D := inject_Z divider in
  (* Draw before image (centered if smaller) *)
  let bx := (W - inject_Z (width beforeImg)) / 2 in
  let by_ := (H - inject_Z (height beforeImg)) / 2 in
  (* Draw after image (centered if smaller) *)
  let ax := W + D + (W - inject_Z (width afterImg)) / 2 in
  let ay := (H - inject_Z (height afterImg)) / 2 in
  (* Build label text with optional dates *)
  let fontSize := Math_max 24 (Math_floor (H * 0.04)) in
  let label_font := mkFont true fontSize "Arial, sans-serif" in
  let F := inject_Z fontSize in
  let padding := F * 0.4 in
  let labelH := F + padding * 2 in
  let beforeText :=
    match showDates, beforeDate with
    | true, Some d => lit "BEFORE" ++ [32; 8226; 32]%Z ++ formatDate d
    | _, _ => lit "BEFORE"
    end in
  let afterText :=
    match showDates, afterDate with
    | true, Some d => lit "AFTER" ++ [32; 8226; 32]%Z ++ formatDate d
    | _, _ => lit "AFTER"
    end in
  let beforeLabelW := measureText label_font beforeText + padding * 2 in
  let afterLabelW := measureText label_font afterText + padding * 2 in
  let wm := inject_Z watermarkH in
  let wmFontSize := Math_max 16 (Math_floor (wm * 0.55)) in
  let drawn :=
    [ (* Dark background for any gaps *)
      SetFillStyle "#111";
      FillRect 0 0 (inject_Z canvas_width) (inject_Z canvas_height);
      DrawImage (Img beforeImg) bx by_;
      (* Draw divider *)
      SetFillStyle "#fff";
      FillRect W 0 D H;
      DrawImage (Img afterImg) ax ay;
      SetFont label_font;
      (* BEFORE label *)
      SetFillStyle "rgba(0,0,0,0.7)";
      BeginPath;
      RoundRect padding padding beforeLabelW labelH 6;
      Fill;
      SetFillStyle "#fff";
      FillText beforeText (padding * 2) (padding + F);
      (* AFTER label *)
      SetFillStyle "rgba(0,0,0,0.7)";
      BeginPath;
      RoundRect (W + D + padding) padding afterLabelW labelH 6;
      Fill;
      SetFillStyle "#fff";
      FillText afterText (W + D + padding * 2) (padding + F) ]
    ++
    (* Watermark strip at bottom *)
    (if truthy (trim watermark)
     then [ SetFillStyle "rgba(0,0,0,0.85)";
            FillRect 0 H (inject_Z canvas_width) wm;
            SetFont (mkFont false wmFontSize "Arial, sans-serif");
            SetFillStyle "rgba(255,255,255,0.9)";
            SetTextAlign "center";
            SetTextBaseline "middle";
            FillText (trim watermark)
                     (inject_Z canvas_width / 2) (H + wm / 2);
            (* Reset alignment *)
            SetTextAlign "start";
            SetTextBaseline "alphabetic" ]
     else []) in
  (mkCanvas canvas_width canvas_height drawn, quality).

(** [createSideBySide(beforeDataUrl, afterDataUrl, options)]. *)
Definition createSideBySide (beforeDataUrl afterDataUrl : jsstring)
           (options : SideBySideOptions) : completion jsstring :=
  match loadImg beforeDataUrl, loadImg afterDataUrl with
  | Return beforeImg, Return afterImg =>
      let '(c, quality) := compose beforeImg afterImg options in
      Return (toDataURL encode c "image/jpeg" quality)
  | Throw e, _ => Throw e
  | _, Throw e => Throw e
  end.

(** The canvas [resizeImage] draws when the image is too large, read in
    real arithmetic: the quotients and the products are exact.  The
    binary64 computation of the engine is [Resize.resized_canvas]. *)
Definition resized_canvas (img : Image) (maxDimension : Z) : canvas :=
  let ratio := Math_min (inject_Z maxDimension / inject_Z (width img))
                        (inject_Z maxDimension / inject_Z (height img)) in
  let newW := Math_round (inject_Z (width img) * ratio) in
  let newH := Math_round (inject_Z (height img) * ratio) in
  mkCanvas newW newH
           [DrawImageScaled (Img img) 0 0 (inject_Z newW) (inject_Z newH)].

(** [resizeImage(dataUrl, maxDimension = 1920, quality = 0.85)], with
    the canvas of the real reading. *)
Definition resizeImage (dataUrl : jsstring) (maxDimension : option Z)
           (quality : option Q) : completion jsstring :=
  let maxDimension := default 1920%Z maxDimension in
  let quality := default 0.85 quality in
  match loadImg dataUrl with
  | Throw e => Throw e
  | Return img =>
      if (width img <=? maxDimension)%Z && (height img <=? maxDimension)%Z
      then Return dataUrl
      else Return (toDataURL encode (resized_canvas img maxDimension)
                             "image/jpeg" quality)
  end.

End Platform.

End SideBySide.

(* ------------------------------------------------------------------ *)
(** ** [resizeImage] in binary64 arithmetic                             *)
(* ------------------------------------------------------------------ *)

(** [resizeImage] as the engine computes it: the two quotients and the
    two products are rounded to binary64 before [Math.min] and
    [Math.round] see them.  The new sides differ from those of the real
    reading only where a scaled side falls on a half-integer, or within
    the rounding error of one. *)

Module Resize.

Open Scope Q_scope.

Section Platform.

(** The image encoder behind [toDataURL]. *)
Variable encode : canvas -> string -> Q -> jsstring.
(** [loadImg]: decoding a data URL resolves to an image or rejects. *)
Variable loadImg : jsstring -> completion Image.

(** The canvas [resizeImage] draws when the image is too large. *)
Definition resized_canvas (img : Image) (maxDimension : Z) : canvas :=
  let ratio := Math_min (fdiv (inject_Z maxDimension) (inject_Z (width img)))
                        (fdiv (inject_Z maxDimension) (inject_Z (height img))) in
  let newW := Math_round (fmul (inject_Z (width img)) ratio) in
  let newH := Math_round (fmul (inject_Z (height img)) ratio) in
  mkCanvas newW newH
           [DrawImageScaled (Img img) 0 0 (inject_Z newW) (inject_Z newH)].

(** [resizeImage(dataUrl, maxDimension = 1920, quality = 0.85)]. *)
Definition resizeImage (dataUrl : jsstring) (maxDimension : option Z)
           (quality : option Q) : completion jsstring :=
  let maxDimension := SideBySide.default 1920%Z maxDimension in
  let quality := SideBySide.default 0.85 quality in
  match loadImg dataUrl with
  | Throw e => Throw e
  | Return img =>
      if (width img <=? maxDimension)%Z && (height img <=? maxDimension)%Z
      then Return dataUrl
      else Return (toDataURL encode (resized_canvas img maxDimension)
                             "image/jpeg" quality)
  end.

End Platform.

End Resize.

(* ------------------------------------------------------------------ *)
(** ** Animated GIF export: [createSliderGif], [renderSliderFrame]      *)
(* ------------------------------------------------------------------ *)

Module Gif.

Open Scope Q_scope.

(** [interface Frame { pct; delay }]: [pct] 0 = full after, 1 = full
    before; [delay] in milliseconds. *)
Record Frame : Type := mkFrame { pct : Q; delay : Z }.

(** The easing expression of both sweep loops:
    [t < 0.5 ? 2 * t * t : 1 - Math.pow(-2 * t + 2, 2) / 2], read in real
    arithmetic. *)
Definition eased (t : Q) : Q :=
  if JS.lt t 0.5 then 2 * t * t
  else 1 - Math_pow2 (- (2) * t + 2) / 2.

Definition slideCount : Z := 14.

(** "Build animation frame sequence" of [createSliderGif], the
    positions read in real arithmetic; [frames] below is the array as
    binary64 arithmetic fills it. *)
Definition build_frames : list Frame :=
  let frames := [] in
  (* Hold on BEFORE *)
  let frames := push frames (mkFrame 1 1000) in
  (* Ease to AFTER (skip endpoints) *)
  let frames :=
    for_range 1 slideCount
      (fun i frames =>
         let t := inject_Z i / inject_Z slideCount in
         push frames (mkFrame (1 - eased t) 80))
      frames in
  (* Hold on AFTER *)
  let frames := push frames (mkFrame 0 1000) in
  (* Ease back to BEFORE *)
  let frames :=
    for_range 1 slideCount
      (fun i frames =>
         let t := inject_Z i / inject_Z slideCount in
         push frames (mkFrame (eased t) 80))
      frames in
  frames.

(** The easing expression as the engine evaluates it, every operation
    rounded to binary64; [Math.pow(x, 2)] is taken as the rounded
    square. *)
Definition eased64 (t : Q) : Q :=
  if JS.lt t 0.5 then fmul (fmul 2 t) t
  else let x := fadd (fmul (- (2)) t) 2 in
       fsub 1 (fdiv (fmul x x) 2).

(** The [frames] array the encoder loops over: the schedule of
    [build_frames] with [t], the eased value and the position computed
    in binary64, as they are stored in the array. *)
Definition frames : list Frame :=
  let frames := [] in
  (* Hold on BEFORE *)
  let frames := push frames (mkFrame 1 1000) in
  (* Ease to AFTER (skip endpoints) *)
  let frames :=
    for_range 1 slideCount
      (fun i frames =>
         let t := fdiv (inject_Z i) (inject_Z slideCount) in
         push frames (mkFrame (fsub 1 (eased64 t)) 80))
      frames in
  (* Hold on AFTER *)
  let frames := push frames (mkFrame 0 1000) in
  (* Ease back to BEFORE *)
  let frames :=
    for_range 1 slideCount
      (fun i frames =>
         let t := fdiv (inject_Z i) (inject_Z slideCount) in
         push frames (mkFrame (eased64 t) 80))
      frames in
  frames.

(** "Scale down for reasonable GIF file size": the working resolution,
    quotient and products rounded to binary64 before [Math.round]. *)
Definition maxW : Z := 480.

Definition working_size (beforeImg afterImg : Image) : Z * Z :=
  let srcW := Math_max (width beforeImg) (width afterImg) in
  let srcH := Math_max (height beforeImg) (height afterImg) in
  let scale := Math_min 1 (fdiv (inject_Z maxW) (inject_Z srcW)) in
  let w := Math_round (fmul (inject_Z srcW) scale) in
  let h := Math_round (fmul (inject_Z srcH) scale) in
  (w, h).

(** Pixel data ([Uint8ClampedArray]) and sample buffers ([Uint8Array]). *)
Definition bytes : Type := list byte.

(** [px[i]]; reading past the end gives [undefined], stored as 0. *)
Definition load (px : bytes) (i : Z) : byte := nth (Z.to_nat i) px x00.

(** [combined[ci] = v]; a typed array ignores a write outside its length. *)
Definition store (combined : bytes) (ci : Z) (v : byte) : bytes :=
  if ((0 <=? ci) && (ci <? Z.of_nat (List.length combined)))%Z
  then firstn (Z.to_nat ci) combined ++ v :: skipn (S (Z.to_nat ci)) combined
  else combined.

Definition step : Z := 4.

(** One sampling loop:
    [for (let i = 0; i < totalPixels * 4; i += step * 4) { ... }]
    over the state [(combined, ci)]. *)
Definition sample_image (totalPixels : Z) (px : bytes)
           (st : bytes * Z) : bytes * Z :=
  for_stride 0 (totalPixels * 4)%Z (step * 4)%Z
    (fun i '(combined, ci) =>
       let combined := store combined ci (load px i) in
       let combined := store combined (ci + 1)%Z (load px (i + 1)%Z) in
       let combined := store combined (ci + 2)%Z (load px (i + 2)%Z) in
       let combined := store combined (ci + 3)%Z xff in
       (combined, (ci + 4)%Z))
    st.

(** "Sub-sample every 4th pixel from each image": the buffer handed to
    [quantize], [combined.subarray(0, ci)]. *)
Definition palette_samples (w h : Z) (beforePixels afterPixels : bytes) : bytes :=
  let totalPixels := (w * h)%Z in
  let samplesPerImg := Math_ceil (inject_Z totalPixels / inject_Z step) in
  let combined := repeat x00 (Z.to_nat (samplesPerImg * 2 * 4)) in
  let ci := 0%Z in
  let '(combined, ci) := sample_image totalPixels beforePixels (combined, ci) in
  let '(combined, ci) := sample_image totalPixels afterPixels (combined, ci) in
  firstn (Z.to_nat ci) combined.

(** The palette of gifenc: a list of [r, g, b] entries. *)
Definition palette : Type := list (byte * byte * byte).

(** Calls into gifenc and the scheduler, in program order. *)
Inductive event : Type :=
| Quantize (rgba : bytes) (maxColors : Z)
| ApplyPalette (rgba : bytes) (p : palette)
| WriteFrame (index : bytes) (w h : Z) (delay : Z) (pal : option palette)
| Yield
| Finish.

Section Platform.

Variable measureText : font -> jsstring -> Q.
(** [ctx.getImageData(0, 0, w, h).data] after the given commands. *)
Variable getImageData : list op -> Z -> Z -> bytes.
(** gifenc's [quantize(rgba, maxColors)] and [applyPalette]. *)
Variable quantize : bytes -> Z -> palette.
Variable applyPalette : bytes -> palette -> bytes.
Variable loadImg : jsstring -> completion Image.

(** [renderSliderFrame(ctx, beforeImg, afterImg, w, h, pct)]: the
    commands it issues on [ctx].  The products that [Math.round] turns
    into pixels are binary64 products; the coordinates handed to the
    context are kept as the exact values of their expressions. *)
Definition renderSliderFrame (beforeImg afterImg : Image)
           (w h : Z) (pct : Q) : list op :=
  let W := inject_Z w in
  let H := inject_Z h in
  let splitX := Math_round (fmul W pct) in
  let X := inject_Z splitX in
  (* After image (full canvas, underneath) *)
  [ DrawImageScaled (Img afterImg) 0 0 W H ]
  ++
  (* Before image (clipped to left portion) *)
  (if (splitX >? 0)%Z
   then [ Save; BeginPath; Rect 0 0 X H; Clip;
          DrawImageScaled (Img beforeImg) 0 0 W H; Restore ]
   else [])
  ++
  (* Slider line & handle (skip when at edges) *)
  (if ((splitX >? 2) && (splitX <? w - 2))%Z
   then
     let cy := H / 2 in
     let r := Math_max 12 (Math_round (fmul W (fl 0.04))) in
     let R := inject_Z r in
     let a := R * 0.35 in
     [ (* White divider line *)
       Save; SetShadowColor "rgba(0,0,0,0.5)"; SetShadowBlur 4;
       SetFillStyle "#ffffff"; FillRect (X - 1.5) 0 3 H; Restore;
       (* Circular handle *)
       Save; SetShadowColor "rgba(0,0,0,0.4)"; SetShadowBlur 6;
       BeginPath; Arc X cy R; SetFillStyle "#ffffff"; Fill; Restore;
       (* Arrow indicators inside handle *)
       SetFillStyle "#666666";
       BeginPath; MoveTo (X - a * 1.8) cy; LineTo (X - a * 0.4) (cy - a);
       LineTo (X - a * 0.4) (cy + a); ClosePath; Fill;
       BeginPath; MoveTo (X + a * 1.8) cy; LineTo (X + a * 0.4) (cy - a);
       LineTo (X + a * 0.4) (cy + a); ClosePath; Fill ]
   else [])
  ++
  (* BEFORE / AFTER labels *)
  (let fontSize := Math_max 11 (Math_round (fmul H (fl 0.035))) in
   let pad := inject_Z (Math_round (fmul (inject_Z fontSize) 0.5)) in
   let label_font := mkFont true fontSize "-apple-system, Arial, sans-serif" in
   let lh := inject_Z fontSize + pad * 1.5 in
   let bt := lit "BEFORE" in
   let bw := measureText label_font bt + pad * 2 in
   let at_ := lit "AFTER" in
   let aw := measureText label_font at_ + pad * 2 in
   [ SetFont label_font;
     (* BEFORE (top-left) *)
     SetFillStyle "rgba(0,0,0,0.6)"; BeginPath; RoundRect pad pad bw lh 4;
     Fill; SetFillStyle "#ffffff"; SetTextAlign "left";
     SetTextBaseline "middle"; FillText bt (pad + pad) (pad + lh / 2);
     (* AFTER (top-right) *)
     SetFillStyle "rgba(0,0,0,0.6)"; BeginPath;
     RoundRect (W - aw - pad) pad aw lh 4; Fill; SetFillStyle "#ffffff";
     FillText at_ (W - aw - pad + pad) (pad + lh / 2) ]).

(** The per-frame loop of [createSliderGif],
    [for (let f = 0; f < frames.length; f++) { ... }], from index [f] on:
    the commands drawn so far and the calls made so far are threaded
    through. *)
Fixpoint encode_frames (beforeImg afterImg : Image) (w h : Z)
         (pal : palette) (f : Z) (frames : list Frame)
         (st : list op * list event) : list op * list event :=
  match frames with
  | [] => st
  | fr :: rest =>
      let '(drawn, calls) := st in
      let drawn := drawn ++ renderSliderFrame beforeImg afterImg w h (pct fr) in
      let rgba := getImageData drawn w h in
      let index := applyPalette rgba pal in
      let calls := push calls (ApplyPalette rgba pal) in
      (* First frame sets the global color table *)
      let opts_palette := if (f =? 0)%Z then Some pal else None in
      let calls := push calls (WriteFrame index w h (delay fr) opts_palette) in
      (* Yield to the main thread every few frames *)
      let calls := if (f mod 5 =? 0)%Z then push calls Yield else calls in
      encode_frames beforeImg afterImg w h pal (f + 1)%Z rest (drawn, calls)
  end.

(** The body of [createSliderGif] once both images are loaded: the calls
    it makes, in order.  [getImageData(0, 0, w, h)] throws an
    [IndexSizeError] when [w] or [h] is zero; the first read-back comes
    before any call into gifenc. *)
Definition encode_gif (beforeImg afterImg : Image) : completion (list event) :=
  let '(w, h) := working_size beforeImg afterImg in
  let W := inject_Z w in
  let H := inject_Z h in
  (* Build a global 256-color palette from both images *)
  let drawn := [ DrawImageScaled (Img beforeImg) 0 0 W H ] in
  if ((w =? 0) || (h =? 0))%Z then Throw "IndexSizeError"
  else
    let beforePixels := getImageData drawn w h in
    let drawn := push drawn (DrawImageScaled (Img afterImg) 0 0 W H) in
    let afterPixels := getImageData drawn w h in
    let combined := palette_samples w h beforePixels afterPixels in
    let pal := quantize combined 256 in
    let calls := [ Quantize combined 256 ] in
    let '(_, calls) :=
      encode_frames beforeImg afterImg w h pal 0 frames (drawn, calls) in
    Return (push calls Finish).

(** [createSliderGif(beforeDataUrl, afterDataUrl)]. *)
Definition createSliderGif (beforeDataUrl afterDataUrl : jsstring)
  : completion (list event) :=
  match loadImg beforeDataUrl, loadImg afterDataUrl with
  | Return beforeImg, Return afterImg => encode_gif beforeImg afterImg
  | Throw e, _ => Throw e
  | _, Throw e => Throw e
  end.

End Platform.

(** *** Vocabulary of the statements *)

(** The curve of the specification at [t]: [2t^2] below one half,
    [1 - (-2t+2)^2/2] from one half on. *)
Definition ease_in_out (t : Q) : Q :=
  if Qle_bool (1 # 2) t then 1 - ((- (2) * t + 2) ^ 2) / 2
  else 2 * t ^ 2.

(** Steps [1 .. 13] of a sweep. *)
Definition steps : list Z := map Z.of_nat (seq 1 13).

(** The schedule in words: hold on before, thirteen eased steps towards
    after, hold on after, thirteen eased steps back. *)
Definition sweep_schedule : list Frame :=
  [mkFrame 1 1000]
    ++ map (fun i => mkFrame (1 - ease_in_out (i # 14)) 80) steps
    ++ [mkFrame 0 1000]
    ++ map (fun i => mkFrame (ease_in_out (i # 14)) 80) steps.

(** Two frames agree: equal sweep positions (as numbers) and delays. *)
Definition same_frame (f g : Frame) : Prop :=
  pct f == pct g /\ delay f = delay g.

(** A schedule of thirty frames whose first and last delays are 1000ms
    and whose delays in between are all 80ms. *)
Definition thirty_frame_schedule (fs : list Frame) : Prop :=
  List.length fs = 30%nat /\
  option_map delay (hd_error fs) = Some 1000%Z /\
  option_map delay (hd_error (rev fs)) = Some 1000%Z /\
  Forall (fun f => delay f = 80%Z) (removelast (tl fs)).

(** The samples of one image: the colour of every fourth pixel, opaque. *)
Definition every_fourth_pixel (totalPixels : Z) (px : bytes) : bytes :=
  flat_map
    (fun k => let i := (16 * Z.of_nat k)%Z in
              [load px i; load px (i + 1)%Z; load px (i + 2)%Z; xff])
    (seq 0 (Z.to_nat ((totalPixels + 3) / 4))).

(** The frames written to the encoder, in order: index data, delay and
    the palette option of each [writeFrame] call. *)
Fixpoint written (calls : list event) : list (bytes * Z * option palette) :=
  match calls with
  | [] => []
  | WriteFrame index _ _ d p :: rest => (index, d, p) :: written rest
  | _ :: rest => written rest
  end.

(** The [quantize] calls among the calls made. *)
Fixpoint quantize_calls (calls : list event) : list (bytes * Z) :=
  match calls with
  | [] => []
  | Quantize rgba n :: rest => (rgba, n) :: quantize_calls rest
  | _ :: rest => quantize_calls rest
  end.

(** The palettes handed to [applyPalette], in order. *)
Fixpoint palettes_applied (calls : list event) : list palette :=
  match calls with
  | [] => []
  | ApplyPalette _ p :: rest => p :: palettes_applied rest
  | _ :: rest => palettes_applied rest
  end.

(** The canvas when frame [k] of the schedule is read back: both source
    images drawn for the palette, then frames [0 .. k] rendered in turn. *)
Definition canvas_after (measureText : font -> jsstring -> Q)
           (beforeImg afterImg : Image) (k : nat) : list op :=
  let '(w, h) := working_size beforeImg afterImg in
  [ DrawImageScaled (Img beforeImg) 0 0 (inject_Z w) (inject_Z h);
    DrawImageScaled (Img afterImg) 0 0 (inject_Z w) (inject_Z h) ]
  ++ flat_map (fun fr => renderSliderFrame measureText beforeImg afterImg
                                           w h (pct fr))
              (firstn (S k) frames).

(** A working size whose larger side stays within 480 pixels. *)
Definition fits_480 (size : Z * Z) : Prop :=
  (Z.max (fst size) (snd size) <= 480)%Z.

(** The clip boundary of a frame, [Math.round(w * pct)]. *)
Definition clip_boundary (w : Z) (pct : Q) : Z :=
  Math_round (fmul (inject_Z w) pct).

(** The sample taken at pixel [4k] of an image. *)
Definition pixel_sample (px : bytes) (k : nat) : bytes :=
  let i := (16 * Z.of_nat k)%Z in
  [load px i; load px (i + 1)%Z; load px (i + 2)%Z; xff].

(** The body of a sampling loop. *)
Definition sample_body (px : bytes) : Z -> bytes * Z -> bytes * Z :=
  fun i '(combined, ci) =>
    let combined := store combined ci (load px i) in
    let combined := store combined (ci + 1)%Z (load px (i + 1)%Z) in
    let combined := store combined (ci + 2)%Z (load px (i + 2)%Z) in
    let combined := store combined (ci + 3)%Z xff in
    (combined, (ci + 4)%Z).

(** What one frame adds to the calls: mapped image [rgba], frame index
    [f]. *)
Definition frame_calls (applyPalette : bytes -> palette -> bytes)
           (rgba : bytes) (w h : Z) (pal : palette) (f : Z) (fr : Frame)
  : list event :=
  [ApplyPalette rgba pal;
   WriteFrame (applyPalette rgba pal) w h (delay fr)
              (if (f =? 0)%Z then Some pal else None)]
    ++ (if (f mod 5 =? 0)%Z then [Yield] else []).

(** Commands that paint the divider line, the handle or its arrows. *)
Definition paints_handle (o : op) : bool :=
  match o with
  | FillRect _ _ _ _ | Arc _ _ _ | MoveTo _ _ | LineTo _ _ => true
  | _ => false
  end.

End Gif.

(* ------------------------------------------------------------------ *)
(** ** Camera capture: [captureFrame]                                   *)
(* ------------------------------------------------------------------ *)

Module Camera.

Open Scope Q_scope.

Section Platform.

Variable encode : canvas -> string -> Q -> jsstring.

(** [captureFrame(videoEl, quality = 0.85)]: size a canvas to the video's
    natural dimensions, draw the current frame, encode it. *)
Definition captureFrame (videoEl : VideoElement) (quality : option Q)
  : completion jsstring :=
  let quality := SideBySide.default 0.85 quality in
  let canvas_width := videoWidth videoEl in
  let canvas_height := videoHeight videoEl in
  let drawn :=
    [ DrawImageScaled (Video videoEl) 0 0
                      (inject_Z canvas_width) (inject_Z canvas_height) ] in
  Return (toDataURL encode (mkCanvas canvas_width canvas_height drawn)
                    "image/jpeg" quality).

End Platform.

End Camera.

(* ------------------------------------------------------------------ *)
(** ** Standalone HTML export: [escapeHtml], [exportHtmlSlider]         *)
(* ------------------------------------------------------------------ *)

Module Exporters.

Open Scope Z_scope.

(** Code units of the five characters [escapeHtml] rewrites. *)
Definition amp : Z := 38.
Definition lt_sign : Z := 60.
Definition gt_sign : Z := 62.
Definition quot : Z := 34.
Definition apos : Z := 39.

(** [escapeHtml(str)]: five global replacements, ampersand first. *)
Definition escapeHtml (str : jsstring) : jsstring :=
  let str := replace_all amp (lit "&amp;") str in
  let str := replace_all lt_sign (lit "&lt;") str in
  let str := replace_all gt_sign (lit "&gt;") str in
  let str := replace_all quot (lit "&quot;") str in
  let str := replace_all apos (lit "&#039;") str in
  str.

(** A [Blob] and the one effect of the exporter, [downloadBlob]. *)
Record Blob : Type := mkBlob { content : jsstring; type : string }.

Inductive effect : Type :=
| Download (b : Blob) (filename : string).

Section Template.

(** The three literal stretches of the HTML template: up to the opening
    quote of the after image's [src], from its closing quote to the
    opening quote of the before image's [src], and the rest. *)
Variables html_head html_between html_tail : jsstring.

(** [exportHtmlSlider(beforeDataUrl, afterDataUrl)]. *)
Definition exportHtmlSlider (beforeDataUrl afterDataUrl : jsstring)
  : completion effect :=
  (* Validate that inputs are actual data URLs *)
  if negb (startsWith beforeDataUrl (lit "data:image/"))
     || negb (startsWith afterDataUrl (lit "data:image/"))
  then Throw "Invalid image data"
  else
    let beforeBase64 := escapeHtml beforeDataUrl in
    let afterBase64 := escapeHtml afterDataUrl in
    let html := html_head ++ afterBase64 ++ html_between
                          ++ beforeBase64 ++ html_tail in
    let blob := mkBlob html "text/html" in
    Return (Download blob "before-after-slider.html").

End Template.

(** One-pass entity encoding of a single code unit. *)
Definition entity (c : Z) : jsstring :=
  if c =? amp then lit "&amp;"
  else if c =? lt_sign then lit "&lt;"
  else if c =? gt_sign then lit "&gt;"
  else if c =? quot then lit "&quot;"
  else if c =? apos then lit "&#039;"
  else [c].

(** Code units that can end an attribute value or open or close a tag. *)
Definition markup_breaking (c : Z) : bool :=
  (c =? lt_sign) || (c =? gt_sign) || (c =? quot) || (c =? apos).

End Exporters.

(* ------------------------------------------------------------------ *)
(** ** Interactive sliders: listener registration and cleanup           *)
(* ------------------------------------------------------------------ *)

Module Slider.

(** Event targets: [window], [document], or an element of the page. *)
Inductive target : Type :=
| Window
| Document
| Element (id : nat).

Inductive event_type : Type :=
| load | resize | orientationchange
| mousedown | touchstart | mousemove | touchmove | mouseup | touchend
| click.

(** The two previews, each with its module-level cleanup slot. *)
Inductive kind : Type := Inline | Fullscreen.

(** The "named handlers" the two initialisers create. *)
Inductive handler_name : Type :=
| onLoad | onResize | onOrientationChange
| onMouseDown | onTouchStart | onMouseMove | onTouchMove
| onMouseUp | onTouchEnd | onClick
| onHandleMouseDown | onHandleTouchStart | onMove | onDocTouchMove
| onUp | onTouchEndDoc | onCloseClick | onContainerClick | onWrapperClick.

(** A handler is a closure allocated by one call of an initialiser: its
    identity is the preview, the call that made it and its name there. *)
Record callback : Type := mkCallback {
  of_kind : kind;
  of_call : nat;
  name : handler_name
}.

(** An entry of an event target's listener list.  No listener of this
    code uses capture; [passive] is the option given at registration. *)
Record listener : Type := mkListener {
  on : target;
  type : event_type;
  handler : callback;
  passive : option bool
}.

Definition target_eq_dec (a b : target) : {a = b} + {a <> b}.
Proof. decide equality; apply Nat.eq_dec. Defined.

Definition event_type_eq_dec (a b : event_type) : {a = b} + {a <> b}.
Proof. decide equality. Defined.

Definition kind_eq_dec (a b : kind) : {a = b} + {a <> b}.
Proof. decide equality. Defined.

Definition handler_name_eq_dec (a b : handler_name) : {a = b} + {a <> b}.
Proof. decide equality. Defined.

Definition callback_eq_dec (a b : callback) : {a = b} + {a <> b}.
Proof.
  decide equality;
    [ apply handler_name_eq_dec | apply Nat.eq_dec | apply kind_eq_dec ].
Defined.

(** The DOM identifies a listener by target, type and callback (and the
    capture flag, false throughout); [passive] does not take part. *)
Definition same_listener (t : target) (ty : event_type) (cb : callback)
           (l : listener) : bool :=
  (if target_eq_dec (on l) t then true else false)
  && (if event_type_eq_dec (type l) ty then true else false)
  && (if callback_eq_dec (handler l) cb then true else false).

(** The elements [initInlineSlider] looks up under its container. *)
Record InlineElements : Type := mkInline {
  container : nat;
  afterImg : nat;
  beforeImg : nat;
  overlay : nat;
  handle : nat
}.

(** The elements [initFullscreenSlider] looks up; the close button may be
    missing. *)
Record FullscreenElements : Type := mkFullscreen {
  fs_container : nat;
  fs_afterImg : nat;
  fs_beforeImg : nat;
  fs_overlay : nat;
  fs_handle : nat;
  fs_wrapper : nat;
  fs_closeBtn : option nat
}.

(** The page: every registered listener in registration order, the two
    module-level cleanup slots (a stored cleanup function is the
    environment it closed over: the elements and the call that allocated
    its handlers), the number of initialiser calls so far, and the calls
    whose [onClose] has run. *)
Record page : Type := mkPage {
  listeners : list listener;
  inlineSliderCleanup : option (InlineElements * nat);
  fullscreenSliderCleanup : option (FullscreenElements * nat);
  calls : nat;
  closed : list nat
}.

Definition initial : page := mkPage [] None None 0 [].

Definition with_listeners (p : page) (ls : list listener) : page :=
  mkPage ls (inlineSliderCleanup p) (fullscreenSliderCleanup p)
         (calls p) (closed p).

(** [target.addEventListener(type, cb, options)]: appended unless the
    same listener is already there. *)
Definition addEventListener (t : target) (ty : event_type) (cb : callback)
           (opt : option bool) (p : page) : page :=
  if existsb (same_listener t ty cb) (listeners p) then p
  else with_listeners p (listeners p ++ [mkListener t ty cb opt]).

(** [target.removeEventListener(type, cb)]. *)
Definition removeEventListener (t : target) (ty : event_type)
           (cb : callback) (p : page) : page :=
  with_listeners p
    (filter (fun l => negb (same_listener t ty cb l)) (listeners p)).

(** The function stored in [inlineSliderCleanup]. *)
Definition inline_cleanup (env : InlineElements * nat) (p : page) : page :=
  let '(c, call) := env in
  let h := mkCallback Inline call in
  let p := removeEventListener (Element (afterImg c)) load (h onLoad) p in
  let p := removeEventListener Window resize (h onResize) p in
  let p := removeEventListener Window orientationchange (h onOrientationChange) p in
  let p := removeEventListener (Element (handle c)) mousedown (h onMouseDown) p in
  let p := removeEventListener (Element (handle c)) touchstart (h onTouchStart) p in
  let p := removeEventListener Document mousemove (h onMouseMove) p in
  let p := removeEventListener Document touchmove (h onTouchMove) p in
  let p := removeEventListener Document mouseup (h onMouseUp) p in
  let p := removeEventListener Document touchend (h onTouchEnd) p in
  let p := removeEventListener (Element (container c)) click (h onClick) p in
  p.

(** [if (inlineSliderCleanup) { inlineSliderCleanup(); inlineSliderCleanup = null; }] *)
Definition teardown_inline (p : page) : page :=
  match inlineSliderCleanup p with
  | Some env =>
      let p := inline_cleanup env p in
      mkPage (listeners p) None (fullscreenSliderCleanup p) (calls p) (closed p)
  | None => p
  end.

(** [initInlineSlider(container, beforeSrc, afterSrc)].  Image sources,
    sizes and styles are no part of the listener state. *)
Definition initInlineSlider (c : InlineElements) (p : page) : page :=
  (* Clean up previous instance to prevent memory leaks *)
  let p := teardown_inline p in
  let call := calls p in
  let h := mkCallback Inline call in
  let p := addEventListener (Element (afterImg c)) load (h onLoad) None p in
  let p := addEventListener Window resize (h onResize) None p in
  let p := addEventListener Window orientationchange (h onOrientationChange) None p in
  let p := addEventListener (Element (handle c)) mousedown (h onMouseDown) None p in
  let p := addEventListener (Element (handle c)) touchstart (h onTouchStart) (Some true) p in
  let p := addEventListener Document mousemove (h onMouseMove) None p in
  let p := addEventListener Document touchmove (h onTouchMove) (Some false) p in
  let p := addEventListener Document mouseup (h onMouseUp) None p in
  let p := addEventListener Document touchend (h onTouchEnd) None p in
  let p := addEventListener (Element (container c)) click (h onClick) None p in
  (* Store cleanup function to prevent memory leaks on re-init *)
  mkPage (listeners p) (Some (c, call)) (fullscreenSliderCleanup p)
         (S (calls p)) (closed p).

(** [destroyInlineSlider()]. *)
Definition destroyInlineSlider (p : page) : page := teardown_inline p.

(** The function [cleanup] of [initFullscreenSlider]; it also clears its
    own slot and calls [onClose]. *)
Definition fullscreen_cleanup (env : FullscreenElements * nat) (p : page) : page :=
  let '(c, call) := env in
  let h := mkCallback Fullscreen call in
  let p := removeEventListener (Element (fs_afterImg c)) load (h onLoad) p in
  let p := removeEventListener Window resize (h onResize) p in
  let p := removeEventListener Window orientationchange (h onOrientationChange) p in
  let p := removeEventListener (Element (fs_handle c)) mousedown (h onHandleMouseDown) p in
  let p := removeEventListener (Element (fs_handle c)) touchstart (h onHandleTouchStart) p in
  let p := removeEventListener Document mousemove (h onMove) p in
  let p := removeEventListener Document touchmove (h onDocTouchMove) p in
  let p := removeEventListener Document mouseup (h onUp) p in
  let p := removeEventListener Document touchend (h onTouchEndDoc) p in
  let p := match fs_closeBtn c with
           | Some closeBtn =>
               removeEventListener (Element closeBtn) click (h onCloseClick) p
           | None => p
           end in
  let p := removeEventListener (Element (fs_container c)) click (h onContainerClick) p in
  let p := removeEventListener (Element (fs_wrapper c)) click (h onWrapperClick) p in
  mkPage (listeners p) (inlineSliderCleanup p) None (calls p)
         (closed p ++ [call]).

(** [if (fullscreenSliderCleanup) { fullscreenSliderCleanup(); fullscreenSliderCleanup = null; }] *)
Definition teardown_fullscreen (p : page) : page :=
  match fullscreenSliderCleanup p with
  | Some env =>
      let p := fullscreen_cleanup env p in
      mkPage (listeners p) (inlineSliderCleanup p) None (calls p) (closed p)
  | None => p
  end.

(** [initFullscreenSlider(container, beforeSrc, afterSrc, onClose)]. *)
Definition initFullscreenSlider (c : FullscreenElements) (p : page) : page :=
  (* Clean up previous instance to prevent memory leaks *)
  let p := teardown_fullscreen p in
  let call := calls p in
  let h := mkCallback Fullscreen call in
  let p := addEventListener (Element (fs_afterImg c)) load (h onLoad) None p in
  let p := addEventListener Window resize (h onResize) None p in
  let p := addEventListener Window orientationchange (h onOrientationChange) None p in
  let p := addEventListener (Element (fs_handle c)) mousedown (h onHandleMouseDown) None p in
  let p := addEventListener (Element (fs_handle c)) touchstart (h onHandleTouchStart) (Some true) p in
  let p := addEventListener Document mousemove (h onMove) None p in
  let p := addEventListener Document touchmove (h onDocTouchMove) (Some false) p in
  let p := addEventListener Document mouseup (h onUp) None p in
  let p := addEventListener Document touchend (h onTouchEndDoc) None p in
  (* Close button *)
  let p := match fs_closeBtn c with
           | Some closeBtn =>
               addEventListener (Element closeBtn) click (h onCloseClick) None p
           | None => p
           end in
  (* Tap black bars to close *)
  let p := addEventListener (Element (fs_container c)) click (h onContainerClick) None p in
  (* Click inside wrapper moves slider *)
  let p := addEventListener (Element (fs_wrapper c)) click (h onWrapperClick) None p in
  (* Store cleanup for external use *)
  mkPage (listeners p) (inlineSliderCleanup p) (Some (c, call))
         (S (calls p)) (closed p).

(** [destroyFullscreenSlider()]. *)
Definition destroyFullscreenSlider (p : page) : page := teardown_fullscreen p.

(** Calls of the exported slider functions. *)
Inductive action : Type :=
| InitInline (c : InlineElements)
| DestroyInline
| InitFullscreen (c : FullscreenElements)
| DestroyFullscreen.

Definition perform (p : page) (a : action) : page :=
  match a with
  | InitInline c => initInlineSlider c p
  | DestroyInline => destroyInlineSlider p
  | InitFullscreen c => initFullscreenSlider c p
  | DestroyFullscreen => destroyFullscreenSlider p
  end.

(** A session of the page: the actions run left to right from a fresh
    page. *)
Definition run (script : list action) : page := fold_left perform script initial.

(** The listeners of one preview among those registered. *)
Definition listeners_of (k : kind) (p : page) : list listener :=
  filter (fun l => if kind_eq_dec (of_kind (handler l)) k then true else false)
         (listeners p).

(** *** Vocabulary of the statements *)

(** The listeners one call of [initInlineSlider] registers. *)
Definition inline_set (env : InlineElements * nat) : list listener :=
  let '(c, call) := env in
  let h := mkCallback Inline call in
  [ mkListener (Element (afterImg c)) load (h onLoad) None;
    mkListener Window resize (h onResize) None;
    mkListener Window orientationchange (h onOrientationChange) None;
    mkListener (Element (handle c)) mousedown (h onMouseDown) None;
    mkListener (Element (handle c)) touchstart (h onTouchStart) (Some true);
    mkListener Document mousemove (h onMouseMove) None;
    mkListener Document touchmove (h onTouchMove) (Some false);
    mkListener Document mouseup (h onMouseUp) None;
    mkListener Document touchend (h onTouchEnd) None;
    mkListener (Element (container c)) click (h onClick) None ].

(** The listeners one call of [initFullscreenSlider] registers. *)
Definition fullscreen_set (env : FullscreenElements * nat) : list listener :=
  let '(c, call) := env in
  let h := mkCallback Fullscreen call in
  [ mkListener (Element (fs_afterImg c)) load (h onLoad) None;
    mkListener Window resize (h onResize) None;
    mkListener Window orientationchange (h onOrientationChange) None;
    mkListener (Element (fs_handle c)) mousedown (h onHandleMouseDown) None;
    mkListener (Element (fs_handle c)) touchstart (h onHandleTouchStart) (Some true);
    mkListener Document mousemove (h onMove) None;
    mkListener Document touchmove (h onDocTouchMove) (Some false);
    mkListener Document mouseup (h onUp) None;
    mkListener Document touchend (h onTouchEndDoc) None ]
  ++ match fs_closeBtn c with
     | Some closeBtn =>
         [ mkListener (Element closeBtn) click (h onCloseClick) None ]
     | None => []
     end
  ++ [ mkListener (Element (fs_container c)) click (h onContainerClick) None;
       mkListener (Element (fs_wrapper c)) click (h onWrapperClick) None ].

(** Registering, and unregistering, a list of listeners one by one. *)
Definition add_all (ls : list listener) (p : page) : page :=
  fold_left (fun p l => addEventListener (on l) (type l) (handler l) (passive l) p)
            ls p.

Definition remove_all (ls : list listener) (p : page) : page :=
  fold_left (fun p l => removeEventListener (on l) (type l) (handler l) p) ls p.

Definition is_kind (k : kind) (l : listener) : bool :=
  if kind_eq_dec (of_kind (handler l)) k then true else false.

(** The set of the initialisation whose cleanup is stored, if any. *)
Definition active_set (k : kind) (p : page) : list listener :=
  match k with
  | Inline =>
      match inlineSliderCleanup p with
      | Some env => inline_set env
      | None => []
      end
  | Fullscreen =>
      match fullscreenSliderCleanup p with
      | Some env => fullscreen_set env
      | None => []
      end
  end.

(** The invariant of the page: each preview's registered listeners are
    exactly the set of the initialisation whose cleanup is stored. *)
Definition consistent (p : page) : Prop :=
  listeners_of Inline p = active_set Inline p /\
  listeners_of Fullscreen p = active_set Fullscreen p.

End Slider.

(* ------------------------------------------------------------------ *)
(** ** Saving files: [dataUrlToBlob], [canShareFiles], [shareImageFile],
       [saveImage] (exporters.ts)                                       *)
(* ------------------------------------------------------------------ *)

Module Save.

Open Scope Z_scope.

Definition comma : Z := 44.
Definition colon : Z := 58.
Definition semicolon : Z := 59.

(** [s.split(sep)] for a one-character separator: the pieces between the
    separators; a string without separator is its own single piece. *)
Fixpoint split (sep : Z) (s : jsstring) : list jsstring :=
  match s with
  | [] => [[]]
  | c :: rest =>
      if c =? sep then [] :: split sep rest
      else match split sep rest with
           | piece :: pieces => (c :: piece) :: pieces
           | [] => [[c]]
           end
  end.

(** Code units the regular-expression dot does not match. *)
Definition is_line_terminator (c : Z) : bool :=
  (c =? 10) || (c =? 13) || (c =? 8232) || (c =? 8233).

(** The lazy group of [/:(.*?);/], read from just behind a colon: the
    code units up to the first semicolon, if no line terminator comes
    before it. *)
Fixpoint lazy_to_semicolon (s : jsstring) : option jsstring :=
  match s with
  | [] => None
  | c :: rest =>
      if c =? semicolon then Some []
      else if is_line_terminator c then None
      else option_map (cons c) (lazy_to_semicolon rest)
  end.

(** [header.match(/:(.*?);/)?.[1]]: the group of the leftmost match. *)
Fixpoint match_mime (header : jsstring) : option jsstring :=
  match header with
  | [] => None
  | c :: rest =>
      if c =? colon
      then match lazy_to_semicolon rest with
           | Some group => Some group
           | None => match_mime rest
           end
      else match_mime rest
  end.

(** A [Blob]: its bytes and its [type]. *)
Record FileBlob : Type := mkFileBlob { data : list Z; mime : jsstring }.

(** ASCII lower case of a code unit. *)
Definition ascii_lowercase (c : Z) : Z :=
  if (65 <=? c) && (c <=? 90) then c + 32 else c.

(** The [type] of [new Blob(parts, { type: t })] (File API, the Blob
    constructor): the empty string when [t] has a character outside the
    range U+0020 to U+007E, else [t] in ASCII lower case. *)
Definition blob_type (t : jsstring) : jsstring :=
  if forallb (fun c => (32 <=? c) && (c <=? 126)) t
  then map ascii_lowercase t
  else [].

(** The [navigator] of the page: [canShare] may be missing, may answer or
    may throw; [share] resolves or rejects with an error of some name. *)
Inductive share_outcome : Type :=
| ShareResolved
| ShareRejected (name : option jsstring).

Record Navigator : Type := mkNavigator {
  canShare : option (completion bool);
  share : FileBlob -> jsstring -> share_outcome
}.

(** What the save path does to the outside world. *)
Inductive io : Type :=
| CallShare (file : FileBlob) (filename : jsstring)
| CallDownload (b : FileBlob) (filename : jsstring).

Definition jsstring_eqb (a b : jsstring) : bool :=
  if list_eq_dec Z.eq_dec a b then true else false.

(** [canShareFiles()]. *)
Definition canShareFiles (nav : Navigator) : bool :=
  match canShare nav with
  | None => false
  | Some (Return answer) => answer
  | Some (Throw _) => false
  end.

(** [shareImageFile(blob, filename)]: its result and what it did.  The
    [File] it builds has the bytes of the blob and the type [blob.type],
    which the constructor leaves as it is (it is in lower case already). *)
Definition shareImageFile (nav : Navigator) (blob : FileBlob)
           (filename : jsstring) : bool * list io :=
  if negb (canShareFiles nav) then (false, [])
  else
    match share nav blob filename with
    | ShareResolved => (true, [CallShare blob filename])
    | ShareRejected name =>
        (match name with
         | Some n => jsstring_eqb n (lit "AbortError")
         | None => false
         end,
         [CallShare blob filename])
    end.

(** [downloadBlob(blob, filename)]. *)
Definition downloadBlob (blob : FileBlob) (filename : jsstring) : list io :=
  [CallDownload blob filename].

(** [saveImage(blob, filename)]. *)
Definition saveImage (nav : Navigator) (blob : FileBlob)
           (filename : jsstring) : list io :=
  let '(shared, done) := shareImageFile nav blob filename in
  if negb shared then done ++ downloadBlob blob filename else done.

Section Platform.

(** [atob]: the decoded binary string, or an [InvalidCharacterError]. *)
Variable atob : jsstring -> completion jsstring.

(** [dataUrlToBlob(dataUrl)]. *)
Definition dataUrlToBlob (dataUrl : jsstring) : completion FileBlob :=
  let pieces := split comma dataUrl in
  let header := nth 0 pieces [] in
  let base64 := nth_error pieces 1 in
  let mime :=
    match match_mime header with
    | Some group => if truthy group then group else lit "image/jpeg"
    | None => lit "image/jpeg"
    end in
  (* atob(undefined) decodes the string "undefined" *)
  match atob (match base64 with Some b => b | None => lit "undefined" end) with
  | Throw e => Throw e
  | Return bytes =>
      (* arr[i] = bytes.charCodeAt(i) on a Uint8Array *)
      Return (mkFileBlob (map (fun c => c mod 256) bytes) (blob_type mime))
  end.

(** [exportSingleImage(dataUrl, filename)]. *)
Definition exportSingleImage (nav : Navigator) (dataUrl filename : jsstring)
  : completion (list io) :=
  match dataUrlToBlob dataUrl with
  | Throw e => Throw e
  | Return blob => Return (saveImage nav blob filename)
  end.

End Platform.

(** *** Vocabulary of the statements *)

(** A type the Blob constructor keeps as it is: printable ASCII without
    capital letters. *)
Definition plain_type (t : jsstring) : bool :=
  forallb (fun c => (32 <=? c) && (c <=? 126)
                    && negb ((65 <=? c) && (c <=? 90))) t.

(** The downloads among the effects. *)
Definition downloads (done : list io) : list (FileBlob * jsstring) :=
  flat_map (fun e => match e with
                     | CallDownload b f => [(b, f)]
                     | CallShare _ _ => []
                     end) done.

End Save.

(* ------------------------------------------------------------------ *)
(** ** Slider interaction: [updateSlider], the key handler of the
       exported page, [matchSize] (exporters.ts)                        *)
(* ------------------------------------------------------------------ *)

Module Preview.

Open Scope Q_scope.

(** The part of [getBoundingClientRect()] the sliders read. *)
Record DOMRect : Type := mkRect { rect_left : Q; rect_width : Q }.

(** [Math.max(0, Math.min(100, (x / rect.width) * 100))] with
    [x = clientX - rect.left]: the position [updateSlider] computes, read
    in real arithmetic. *)
Definition slider_pct (rect : DOMRect) (clientX : Q) : Q :=
  let x := clientX - rect_left rect in
  Qmax 0 (Qmin 100 ((x / rect_width rect) * 100)).

(** The exported page's slider: the drag flag of its script, the inline
    [left] of the handle and [width] of the overlay as percentages ([None]
    while the style is unset), and the [aria-valuenow] attribute. *)
Record slider : Type := mkSlider {
  isDragging : bool;
  handle_left : option Q;
  overlay_width : option Q;
  aria_valuenow : Z
}.

(** The page as loaded: styles unset, [aria-valuenow="50"]. *)
Definition loaded : slider := mkSlider false None None 50.

(** What an inline style keeps of a percentage: the number that
    [parseFloat(el.style.left)] reads back after [el.style.left = pct + '%']
    (the engine serialises the value in its own precision). *)
Definition style_round_trip : Type := Q -> Q.

(** [updateSlider(clientX)] of the exported page.  The difference, the
    quotient and the product are binary64 operations; the attribute gets
    [Math.round] of the number computed, the styles what they keep of
    it. *)
Definition updateSlider (css : style_round_trip)
           (rect : DOMRect) (clientX : Q) (s : slider) : slider :=
  let x := fsub clientX (rect_left rect) in
  let pct := Qmax 0 (Qmin 100 (fmul (fdiv x (rect_width rect)) 100)) in
  mkSlider (isDragging s) (Some (css pct)) (Some (css pct)) (Math_round pct).

Inductive key : Type := ArrowLeft | ArrowRight | OtherKey.

(** [parseFloat(handle.style.left) || 50]: an unset style parses to NaN
    and a position of 0 is falsy, both give 50. *)
Definition current_pct (s : slider) : Q :=
  match handle_left s with
  | Some p => if Qeq_bool p 0 then 50 else p
  | None => 50
  end.

(** The [keydown] listener of the exported page. *)
Definition keydown (k : key) (s : slider) : slider :=
  let currentPct := current_pct s in
  let step := 2 in
  match (match k with
         | ArrowLeft => Some (Qmax 0 (currentPct - step))
         | ArrowRight => Some (Qmin 100 (currentPct + step))
         | OtherKey => None
         end) with
  | None => s
  | Some currentPct =>
      mkSlider (isDragging s) (Some currentPct) (Some currentPct)
               (Math_round currentPct)
  end.

(** The events the script listens to: presses on the handle, moves and
    releases anywhere in the document, clicks and keys on the container. *)
Inductive event : Type :=
| MouseDown
| TouchStart
| MouseMove (clientX : Q)
| TouchMove (clientX : Q)
| MouseUp
| TouchEnd
| Click (clientX : Q)
| KeyDown (k : key).

Definition set_dragging (b : bool) (s : slider) : slider :=
  mkSlider b (handle_left s) (overlay_width s) (aria_valuenow s).

(** One event, with the container's rectangle at that moment. *)
Definition dispatch (css : style_round_trip)
           (s : slider) (e : DOMRect * event) : slider :=
  let '(rect, ev) := e in
  match ev with
  | MouseDown | TouchStart => set_dragging true s
  | MouseMove clientX | TouchMove clientX =>
      if isDragging s then updateSlider css rect clientX s else s
  | MouseUp | TouchEnd => set_dragging false s
  | Click clientX => updateSlider css rect clientX s
  | KeyDown k => keydown k s
  end.

Definition play (css : style_round_trip)
           (events : list (DOMRect * event)) : slider :=
  fold_left (dispatch css) events loaded.

(** The size [matchSize] gives the images: width and height in pixels. *)
Record Size : Type := mkSize { size_w : Q; size_h : Q }.

(** [matchSize()] of [initInlineSlider]: [None] when it returns early. *)
Definition matchSize_inline (naturalWidth naturalHeight : Z)
           (parentOffsetWidth : option Z) (offsetWidth innerHeight : Z)
  : option Size :=
  if (naturalWidth =? 0)%Z || (naturalHeight =? 0)%Z then None
  else
    let containerW :=
      match parentOffsetWidth with
      | Some pw => if (pw =? 0)%Z then offsetWidth else pw
      | None => offsetWidth
      end in
    let maxH := inject_Z innerHeight * 0.55 in
    let aspect := inject_Z naturalWidth / inject_Z naturalHeight in
    let w := inject_Z containerW in
    let h := w / aspect in
    if JS.lt maxH h
    then let h := maxH in let w := h * aspect in Some (mkSize w h)
    else Some (mkSize w h).

(** The wrapper box of the fullscreen slider: size and offsets. *)
Record Box : Type := mkBox { box_w : Q; box_h : Q; box_left : Q; box_top : Q }.

(** [matchSize()] of [initFullscreenSlider]. *)
Definition matchSize_fullscreen (naturalWidth naturalHeight : Z)
           (innerWidth innerHeight : Z) : option Box :=
  if (naturalWidth =? 0)%Z || (naturalHeight =? 0)%Z then None
  else
    let vw := inject_Z innerWidth in
    let vh := inject_Z innerHeight in
    let aspect := inject_Z naturalWidth / inject_Z naturalHeight in
    let w := vw in
    let h := w / aspect in
    let '(w, h) := if JS.lt vh h then (vh * aspect, vh) else (w, h) in
    let left := (vw - w) / 2 in
    let top := (vh - h) / 2 in
    Some (mkBox w h left top).

(** *** Vocabulary of the statements *)

(** Handle and overlay hold the same style value, and the ARIA value
    is still the 50 of the markup while no style was set. *)
Definition in_sync (s : slider) : Prop :=
  overlay_width s = handle_left s /\
  (handle_left s = None -> aria_valuenow s = 50%Z).

(** Every rectangle of a run has a positive width. *)
Definition laid_out (events : list (DOMRect * event)) : Prop :=
  Forall (fun e => 0 < rect_width (fst e)) events.

(** Whether the last press or release of a run was a press. *)
Fixpoint pressed (held : bool) (events : list (DOMRect * event)) : bool :=
  match events with
  | [] => held
  | (_, (MouseDown | TouchStart)) :: rest => pressed true rest
  | (_, (MouseUp | TouchEnd)) :: rest => pressed false rest
  | _ :: rest => pressed held rest
  end.

End Preview.

(* ------------------------------------------------------------------ *)
(** ** The service worker (sw.js)                                       *)
(* ------------------------------------------------------------------ *)

Module ServiceWorker.

Open Scope Z_scope.

Definition CACHE_VERSION : Z := 2.
(** [`ba-pro-v${CACHE_VERSION}`]. *)
Definition CACHE_NAME : jsstring := lit "ba-pro-v" ++ lit "2".
Definition BASE : jsstring := lit "/beforeafter/".

(** [caches.delete(k)] on the names of the cache storage. *)
Definition delete (k : jsstring) (storage : list jsstring) : list jsstring :=
  filter (fun name => negb (Save.jsstring_eqb name k)) storage.

(** The [activate] handler: what is left of the cache storage. *)
Definition activate (storage : list jsstring) : list jsstring :=
  let keys := storage in
  let stale :=
    filter (fun k => startsWith k (lit "ba-pro-")
                     && negb (Save.jsstring_eqb k CACHE_NAME)) keys in
  fold_left (fun st k => delete k st) stale storage.

Record Request : Type := mkRequest {
  method : jsstring;
  url : jsstring;
  mode : jsstring
}.

Record Response : Type := mkResponse {
  ok : bool;
  response_type : jsstring;
  status : Z;
  body : jsstring
}.

(** What the [fetch] handler does with a request. *)
Inductive handled : Type :=
(** it returns without [respondWith]: the browser handles the request *)
| NotIntercepted
(** it responds; [put] is the response it stores in the cache, if any *)
| Responded (served : option Response) (put : option Response).

Section Platform.

(** [self.location.origin]. *)
Variable origin : jsstring.
(** [fetch(request)]: a response, or [None] when it rejects. *)
Variable network : Request -> option Response.
(** [caches.match]: the cached response for a URL. *)
Variable cache_match : jsstring -> option Response.

(** The [fetch] handler. *)
Definition on_fetch (request : Request) : handled :=
  (* Skip non-GET requests *)
  if negb (Save.jsstring_eqb (method request) (lit "GET")) then NotIntercepted
  (* Skip cross-origin requests *)
  else if negb (startsWith (url request) origin) then NotIntercepted
  (* Skip chrome-extension and other non-http schemes *)
  else if negb (startsWith (url request) (lit "http")) then NotIntercepted
  else
    match network request with
    | Some response =>
        (* Only cache successful responses *)
        if ok response && Save.jsstring_eqb (response_type response) (lit "basic")
        then Responded (Some response) (Some response)
        else Responded (Some response) None
    | None =>
        (* Network failed: try cache *)
        match cache_match (url request) with
        | Some cached => Responded (Some cached) None
        | None =>
            if Save.jsstring_eqb (mode request) (lit "navigate")
            then Responded (cache_match BASE) None
            else Responded (Some (mkResponse false (lit "default") 503
                                             (lit "Offline"))) None
        end
    end.

End Platform.

End ServiceWorker.

(* ------------------------------------------------------------------ *)
(** ** The first revision of [createSideBySide] (labels only)           *)
(* ------------------------------------------------------------------ *)

Module Legacy.

Open Scope Q_scope.

Section Platform.

Variable measureText : font -> jsstring -> Q.
Variable encode : canvas -> string -> Q -> jsstring.
Variable loadImg : jsstring -> completion Image.

(** [createSideBySide(beforeDataUrl, afterDataUrl, quality = 0.9)]. *)
Definition createSideBySide (beforeDataUrl afterDataUrl : jsstring)
           (quality : option Q) : completion jsstring :=
  let quality := SideBySide.default 0.9 quality in
  match loadImg beforeDataUrl, loadImg afterDataUrl with
  | Return beforeImg, Return afterImg =>
      (* Use the max dimensions to normalize *)
      let w := Math_max (width beforeImg) (width afterImg) in
      let h := Math_max (height beforeImg) (height afterImg) in
      (* 4px divider between images *)
      let divider := 4%Z in
      let canvas_width := (w * 2 + divider)%Z in
      let canvas_height := h in
      let W := inject_Z w in
      let H := inject_Z h in
      let D := inject_Z divider in
      let bx := (W - inject_Z (width beforeImg)) / 2 in
      let by_ := (H - inject_Z (height beforeImg)) / 2 in
      let ax := W + D + (W - inject_Z (width afterImg)) / 2 in
      let ay := (H - inject_Z (height afterImg)) / 2 in
      (* Add labels *)
      let fontSize := Math_max 24 (Math_floor (H * 0.04)) in
      let label_font := mkFont true fontSize "Arial, sans-serif" in
      let F := inject_Z fontSize in
      let padding := F * 0.4 in
      let labelH := F + padding * 2 in
      let beforeText := lit "BEFORE" in
      let beforeLabelW := measureText label_font beforeText + padding * 2 in
      let afterText := lit "AFTER" in
      let afterLabelW := measureText label_font afterText + padding * 2 in
      let drawn :=
        [ (* Dark background for any gaps *)
          SetFillStyle "#111";
          FillRect 0 0 (inject_Z canvas_width) (inject_Z canvas_height);
          DrawImage (Img beforeImg) bx by_;
          (* Draw divider *)
          SetFillStyle "#fff";
          FillRect W 0 D H;
          DrawImage (Img afterImg) ax ay;
          SetFont label_font;
          (* BEFORE label *)
          SetFillStyle "rgba(0,0,0,0.7)";
          BeginPath;
          RoundRect padding padding beforeLabelW labelH 6;
          Fill;
          SetFillStyle "#fff";
          FillText beforeText (padding * 2) (padding + F);
          (* AFTER label *)
          SetFillStyle "rgba(0,0,0,0.7)";
          BeginPath;
          RoundRect (W + D + padding) padding afterLabelW labelH 6;
          Fill;
          SetFillStyle "#fff";
          FillText afterText (W + D + padding * 2) (padding + F) ] in
      Return (toDataURL encode (mkCanvas canvas_width canvas_height drawn)
                        "image/jpeg" quality)
  | Throw e, _ => Throw e
  | _, Throw e => Throw e
  end.

End Platform.

End Legacy.

(* ------------------------------------------------------------------ *)
(** ** Vocabulary for the canvas state and the encoder's yields         *)
(* ------------------------------------------------------------------ *)

Module Drawing.

(** The depth of the context's state stack after the commands, starting
    from [depth]; [None] when a [restore] finds nothing saved or a [clip]
    is set outside any [save]. *)
Fixpoint bracketed (depth : nat) (cmds : list op) : option nat :=
  match cmds with
  | [] => Some depth
  | Save :: rest => bracketed (S depth) rest
  | Restore :: rest =>
      match depth with
      | O => None
      | S d => bracketed d rest
      end
  | Clip :: rest =>
      match depth with
      | O => None
      | S _ => bracketed depth rest
      end
  | _ :: rest => bracketed depth rest
  end.

(** For each frame written, whether the encoder yields right after it. *)
Fixpoint yields_after (calls : list Gif.event) : list bool :=
  match calls with
  | [] => []
  | Gif.WriteFrame _ _ _ _ _ :: Gif.Yield :: rest => true :: yields_after rest
  | Gif.WriteFrame _ _ _ _ _ :: rest => false :: yields_after rest
  | _ :: rest => yields_after rest
  end.

(** The clip path of the commands: its rectangles and [clip] calls. *)
Definition clips (cmds : list op) : list op :=
  filter (fun o => match o with Clip | Rect _ _ _ _ => true | _ => false end)
         cmds.

(** The sources painted by the commands, in order. *)
Definition images_drawn (cmds : list op) : list drawable :=
  flat_map (fun o => match o with
                     | DrawImage s _ _ | DrawImageScaled s _ _ _ _ => [s]
                     | _ => []
                     end) cmds.

End Drawing.


(* ================================================================== *)
(** * Properties                                                        *)
(* ================================================================== *)

(** ** Rounding *)

Section Rounding.

Open Scope Q_scope.

Lemma Math_round_unique (x : Q) (z : Z) :
  inject_Z z <= x + (1 # 2) -> x + (1 # 2) < inject_Z (z + 1) ->
  Math_round x = z.
Proof.
  intros Hlo Hhi. unfold Math_round.
  pose proof (Qfloor_le (x + (1 # 2))) as Hf.
  pose proof (Qlt_floor (x + (1 # 2))) as Hc.
  assert (H1 : (z < Qfloor (x + (1 # 2)) + 1)%Z).
  { rewrite Zlt_Qlt. eapply Qle_lt_trans; eassumption. }
  assert (H2 : (Qfloor (x + (1 # 2)) < z + 1)%Z).
  { rewrite Zlt_Qlt. eapply Qle_lt_trans; eassumption. }
  lia.
Qed.

Lemma Math_round_inject (z : Z) : Math_round (inject_Z z) = z.
Proof.
  apply Math_round_unique.
  - unfold Qle, Qplus, inject_Z; simpl; lia.
  - unfold Qlt, Qplus, inject_Z; simpl; lia.
Qed.

Lemma Math_round_mono (x y : Q) : x <= y -> (Math_round x <= Math_round y)%Z.
Proof.
  intros H. unfold Math_round. apply Qfloor_resp_le.
  apply Qplus_le_compat; [exact H | apply Qle_refl].
Qed.

Lemma Math_round_morph (x y : Q) : x == y -> Math_round x = Math_round y.
Proof.
  intros H. unfold Math_round. apply Qfloor_comp. rewrite H. reflexivity.
Qed.

Lemma Math_round_le (x : Q) (m : Z) : x <= inject_Z m -> (Math_round x <= m)%Z.
Proof.
  intros H. rewrite <- (Math_round_inject m). apply Math_round_mono, H.
Qed.

Lemma Math_round_ge (x : Q) (m : Z) : inject_Z m <= x -> (m <= Math_round x)%Z.
Proof.
  intros H. rewrite <- (Math_round_inject m) at 1. apply Math_round_mono, H.
Qed.

End Rounding.

(** ** Binary64 rounding *)

Section DoubleArithmetic.

Open Scope Q_scope.

Lemma round_half_even_spec (x : Q) :
  inject_Z (round_half_even x) - (1 # 2) <= x /\
  x <= inject_Z (round_half_even x) + (1 # 2).
Proof.
  unfold round_half_even.
  pose proof (Qfloor_le x) as Hlo. pose proof (Qlt_floor x) as Hhi.
  rewrite inject_Z_plus in Hhi. change (inject_Z 1) with 1 in Hhi.
  destruct (Qcompare (x - inject_Z (Qfloor x)) (1 # 2)) eqn:C.
  - apply Qeq_alt in C.
    destruct (Z.even (Qfloor x)); [|rewrite inject_Z_plus; change (inject_Z 1) with 1];
      split; lra.
  - apply Qlt_alt in C. split; lra.
  - apply Qgt_alt in C. rewrite inject_Z_plus. change (inject_Z 1) with 1.
    split; lra.
Qed.

Lemma round_half_even_morph (x y : Q) :
  x == y -> round_half_even x = round_half_even y.
Proof.
  intros E. unfold round_half_even.
  rewrite (Qfloor_comp _ _ E).
  assert (C : Qcompare (x - inject_Z (Qfloor y)) (1 # 2)
              = Qcompare (y - inject_Z (Qfloor y)) (1 # 2))
    by (apply Qcompare_comp; [rewrite E; reflexivity | reflexivity]).
  rewrite C. reflexivity.
Qed.

Lemma round_half_even_mono (x y : Q) :
  x <= y -> (round_half_even x <= round_half_even y)%Z.
Proof.
  intros Hxy.
  destruct (round_half_even_spec x) as [Hx1 Hx2].
  destruct (round_half_even_spec y) as [Hy1 Hy2].
  destruct (Z_le_gt_dec (round_half_even x) (round_half_even y)) as [H|H];
    [exact H|].
  assert (Hz : (round_half_even y + 1 <= round_half_even x)%Z) by lia.
  rewrite Zle_Qle, inject_Z_plus in Hz. change (inject_Z 1) with 1 in Hz.
  assert (Hyx : y <= x) by lra.
  assert (E : x == y) by (apply Qle_antisym; assumption).
  rewrite (round_half_even_morph x y E) in H. lia.
Qed.

Lemma round_half_even_Z (n : Z) : round_half_even (inject_Z n) = n.
Proof.
  unfold round_half_even. rewrite Qfloor_Z.
  assert (C : Qcompare (inject_Z n - inject_Z n) (1 # 2) = Lt).
  { apply Qlt_alt. setoid_replace (inject_Z n - inject_Z n) with 0 by ring.
    reflexivity. }
  rewrite C. reflexivity.
Qed.

Lemma two_power_pos (k : Z) : 0 < 2 ^ k.
Proof. apply Qpower_0_lt. reflexivity. Qed.

Lemma two_power_succ (k : Z) : 2 ^ (k + 1) == 2 * 2 ^ k.
Proof.
  rewrite Qpower_plus by discriminate. change (2 ^ 1) with 2. ring.
Qed.

Lemma two_power_le (j k : Z) : (j <= k)%Z -> 2 ^ j <= 2 ^ k.
Proof. intros H. apply Qpower_le_compat_l; [exact H | discriminate]. Qed.

Lemma two_power_lt (j k : Z) : (j < k)%Z -> 2 ^ j < 2 ^ k.
Proof.
  intros H. apply Qlt_le_trans with (2 ^ (j + 1)).
  - rewrite two_power_succ. pose proof (two_power_pos j). lra.
  - apply two_power_le. lia.
Qed.

Lemma two_power_Z (k : Z) : (0 <= k)%Z -> inject_Z (2 ^ k) == 2 ^ k.
Proof. intros H. apply (Zpower_Qpower 2 k H). Qed.

Lemma ilog2_spec (x : Q) :
  0 < x -> 2 ^ ilog2 x <= x /\ x < 2 ^ (ilog2 x + 1).
Proof.
  intros Hx. unfold ilog2.
  destruct x as [n d]. cbn [Qnum Qden].
  assert (Hn : (0 < n)%Z).
  { unfold Qlt in Hx. cbn in Hx. lia. }
  set (a := Z.log2 n). set (b := Z.log2 (Z.pos d)).
  destruct (Z.log2_spec n Hn) as [Ha1 Ha2].
  destruct (Z.log2_spec (Z.pos d) (Pos2Z.is_pos d)) as [Hb1 Hb2].
  fold a in Ha1, Ha2. fold b in Hb1, Hb2.
  assert (Ha0 : (0 <= a)%Z) by apply Z.log2_nonneg.
  assert (Hb0 : (0 <= b)%Z) by apply Z.log2_nonneg.
  rewrite Zle_Qle, two_power_Z in Ha1, Hb1 by assumption.
  rewrite Zlt_Qlt, two_power_Z in Ha2, Hb2 by lia.
  replace (Z.succ a) with (a + 1)%Z in Ha2 by lia.
  replace (Z.succ b) with (b + 1)%Z in Hb2 by lia.
  rewrite two_power_succ in Ha2, Hb2.
  set (N := inject_Z n) in *. set (D := inject_Z (Z.pos d)) in *.
  assert (HD : 0 < D) by (pose proof (two_power_pos b); lra).
  assert (Ex : (n # d) * D == N).
  { unfold N, D. rewrite (Qmake_Qdiv n d). field.
    intros H. fold D in H. lra. }
  set (x := n # d) in *.
  assert (Ek : 2 ^ (a - b) * 2 ^ b == 2 ^ a).
  { rewrite <- Qpower_plus by discriminate. replace (a - b + b)%Z with a by lia.
    reflexivity. }
  pose proof (two_power_pos (a - b)) as Hk.
  pose proof (two_power_pos b) as Hpb.
  pose proof (two_power_pos a) as Hpa.
  assert (Hup : x < 2 * 2 ^ (a - b)).
  { destruct (Qlt_le_dec x (2 * 2 ^ (a - b))) as [H|H]; [exact H|].
    exfalso. assert (2 * 2 ^ (a - b) * D <= x * D) by nra. nra. }
  assert (Hlow : 2 ^ (a - b) < 2 * x).
  { destruct (Qlt_le_dec (2 ^ (a - b)) (2 * x)) as [H|H]; [exact H|].
    exfalso. assert (2 * x * D <= 2 ^ (a - b) * D) by nra. nra. }
  destruct (Qle_bool (2 ^ (a - b)) x) eqn:C.
  - apply Qle_bool_iff in C. rewrite two_power_succ. split; assumption.
  - assert (Hlt : x < 2 ^ (a - b)).
    { apply Qnot_le_lt. intros H. apply Qle_bool_iff in H. congruence. }
    replace (a - b - 1 + 1)%Z with (a - b)%Z by lia.
    split; [|exact Hlt].
    assert (E : 2 ^ (a - b) == 2 * 2 ^ (a - b - 1)).
    { rewrite <- two_power_succ. replace (a - b - 1 + 1)%Z with (a - b)%Z by lia.
      reflexivity. }
    lra.
Qed.

Lemma ilog2_unique (x : Q) (k : Z) :
  2 ^ k <= x -> x < 2 ^ (k + 1) -> ilog2 x = k.
Proof.
  intros H1 H2.
  assert (Hx : 0 < x) by (pose proof (two_power_pos k); lra).
  destruct (ilog2_spec x Hx) as [H3 H4].
  destruct (Z.lt_trichotomy (ilog2 x) k) as [H|[H|H]]; [|exact H|].
  - exfalso. assert (2 ^ (ilog2 x + 1) <= 2 ^ k) by (apply two_power_le; lia).
    lra.
  - exfalso. assert (2 ^ (k + 1) <= 2 ^ ilog2 x) by (apply two_power_le; lia).
    lra.
Qed.

Lemma ilog2_morph (x y : Q) : 0 < x -> x == y -> ilog2 x = ilog2 y.
Proof.
  intros Hx E. destruct (ilog2_spec x Hx) as [H1 H2].
  symmetry. apply ilog2_unique; rewrite <- E; assumption.
Qed.

Lemma ilog2_mono (x y : Q) : 0 < x -> x <= y -> (ilog2 x <= ilog2 y)%Z.
Proof.
  intros Hx Hxy.
  destruct (ilog2_spec x Hx) as [H1 H2].
  destruct (ilog2_spec y) as [H3 H4]; [lra|].
  destruct (Z_le_gt_dec (ilog2 x) (ilog2 y)) as [H|H]; [exact H|].
  exfalso. assert (2 ^ (ilog2 y + 1) <= 2 ^ ilog2 x) by (apply two_power_le; lia).
  lra.
Qed.

Lemma ulp_exp_pos (x : Q) :
  0 < x -> ulp_exp x = Z.max (ilog2 x - 52) (-1074).
Proof.
  intros Hx. unfold ulp_exp.
  rewrite (ilog2_morph (Qabs x) x); [reflexivity | | apply Qabs_pos; lra].
  rewrite Qabs_pos; lra.
Qed.

Lemma fl_pos (x : Q) :
  0 < x ->
  fl x = inject_Z (round_half_even (x / 2 ^ ulp_exp x)) * 2 ^ ulp_exp x.
Proof.
  intros Hx. unfold fl.
  destruct (Qeq_bool x 0) eqn:E; [|reflexivity].
  apply Qeq_bool_iff in E. lra.
Qed.

Lemma fl_zero (x : Q) : x == 0 -> fl x == 0.
Proof.
  intros E. unfold fl. apply Qeq_bool_iff in E. rewrite E. reflexivity.
Qed.

Lemma scaled (x : Q) (e : Z) : x / 2 ^ e * 2 ^ e == x.
Proof. field. pose proof (two_power_pos e). lra. Qed.

Lemma fl_morph_pos (x y : Q) : 0 < x -> x == y -> fl x == fl y.
Proof.
  intros Hx E. rewrite (fl_pos x Hx), (fl_pos y) by lra.
  rewrite !ulp_exp_pos by lra. rewrite (ilog2_morph x y Hx E).
  rewrite (round_half_even_morph (x / _) (y / 2 ^ Z.max (ilog2 y - 52) (-1074)));
    [reflexivity | rewrite E; reflexivity].
Qed.

Lemma fl_morph (x y : Q) : x == y -> fl x == fl y.
Proof.
  intros E. destruct (Qeq_dec x 0) as [Z|Z].
  - rewrite (fl_zero x Z), (fl_zero y); [reflexivity | rewrite <- E; exact Z].
  - assert (Zy : ~ y == 0) by (rewrite <- E; exact Z).
    assert (Ha : 0 < Qabs x).
    { destruct (Qlt_le_dec 0 x) as [H|H].
      - rewrite Qabs_pos; lra.
      - rewrite Qabs_neg by exact H.
        destruct (Qlt_le_dec x 0) as [N|N]; [lra|].
        exfalso. apply Z. apply Qle_antisym; assumption. }
    assert (Ee : ulp_exp x = ulp_exp y).
    { unfold ulp_exp. rewrite (ilog2_morph (Qabs x) (Qabs y) Ha);
        [reflexivity | rewrite E; reflexivity]. }
    unfold fl.
    assert (Bx : Qeq_bool x 0 = false).
    { destruct (Qeq_bool x 0) eqn:B; [|reflexivity].
      apply Qeq_bool_iff in B. contradiction. }
    assert (By : Qeq_bool y 0 = false).
    { destruct (Qeq_bool y 0) eqn:B; [|reflexivity].
      apply Qeq_bool_iff in B. contradiction. }
    rewrite Bx, By. cbv zeta. rewrite Ee.
    rewrite (round_half_even_morph (x / 2 ^ ulp_exp y) (y / 2 ^ ulp_exp y));
      [reflexivity | rewrite E; reflexivity].
Qed.

Lemma fl_nonneg (x : Q) : 0 <= x -> 0 <= fl x.
Proof.
  intros Hx. destruct (Qeq_dec x 0) as [E|E]; [rewrite (fl_zero x E); lra|].
  assert (Hp : 0 < x) by lra.
  rewrite (fl_pos x Hp). pose proof (two_power_pos (ulp_exp x)) as He.
  assert (0 <= x / 2 ^ ulp_exp x).
  { apply Qle_shift_div_l; [exact He | lra]. }
  pose proof (round_half_even_mono 0 _ H) as Hm.
  change 0 with (inject_Z 0) in Hm at 1. rewrite round_half_even_Z in Hm.
  rewrite Zle_Qle in Hm. change (inject_Z 0) with 0 in Hm. nra.
Qed.

(** Rounding a quotient by a power of two against an integer bound. *)
Lemma round_below (y : Q) (n : Z) :
  y <= inject_Z n -> inject_Z (round_half_even y) <= inject_Z n.
Proof.
  intros H. rewrite <- Zle_Qle. rewrite <- (round_half_even_Z n).
  apply round_half_even_mono, H.
Qed.

Lemma round_above (y : Q) (n : Z) :
  inject_Z n <= y -> inject_Z n <= inject_Z (round_half_even y).
Proof.
  intros H. rewrite <- Zle_Qle. rewrite <- (round_half_even_Z n) at 1.
  apply round_half_even_mono, H.
Qed.

Lemma fl_mono_pos (x y : Q) : 0 < x -> x <= y -> fl x <= fl y.
Proof.
  intros Hx Hxy. assert (Hy : 0 < y) by lra.
  rewrite (fl_pos x Hx), (fl_pos y Hy).
  rewrite (ulp_exp_pos x Hx), (ulp_exp_pos y Hy).
  pose proof (ilog2_mono x y Hx Hxy) as Hlog.
  set (ex := Z.max (ilog2 x - 52) (-1074)).
  set (ey := Z.max (ilog2 y - 52) (-1074)).
  pose proof (two_power_pos ex) as Hex. pose proof (two_power_pos ey) as Hey.
  destruct (Z.eq_dec ex ey) as [E|E].
  - rewrite E.
    assert (Hq : x / 2 ^ ey <= y / 2 ^ ey).
    { apply Qle_shift_div_l; [exact Hey|]. rewrite scaled. exact Hxy. }
    pose proof (round_half_even_mono _ _ Hq) as Hm. rewrite Zle_Qle in Hm.
    nra.
  - assert (Hlt : (ex < ey)%Z) by (unfold ex, ey in *; lia).
    assert (Ey : ey = (ilog2 y - 52)%Z) by (unfold ex, ey in *; lia).
    assert (Hxl : (ilog2 x < ilog2 y)%Z) by (unfold ex, ey in *; lia).
    destruct (ilog2_spec x Hx) as [_ Hx2].
    destruct (ilog2_spec y Hy) as [Hy1 _].
    (* fl x <= 2 ^ ilog2 y <= fl y *)
    apply Qle_trans with (2 ^ ilog2 y).
    + assert (Hb : x / 2 ^ ex <= inject_Z (2 ^ (ilog2 y - ex))).
      { rewrite two_power_Z by lia.
        apply Qle_shift_div_r; [exact Hex|].
        rewrite <- Qpower_plus by discriminate.
        replace (ilog2 y - ex + ex)%Z with (ilog2 y) by lia.
        assert (2 ^ (ilog2 x + 1) <= 2 ^ ilog2 y) by (apply two_power_le; lia).
        lra. }
      pose proof (round_below _ _ Hb) as Hr.
      rewrite two_power_Z in Hr by lia.
      assert (Ep : 2 ^ (ilog2 y - ex) * 2 ^ ex == 2 ^ ilog2 y).
      { rewrite <- Qpower_plus by discriminate.
        replace (ilog2 y - ex + ex)%Z with (ilog2 y) by lia. reflexivity. }
      nra.
    + assert (Hb : inject_Z (2 ^ 52) <= y / 2 ^ ey).
      { rewrite two_power_Z by lia.
        apply Qle_shift_div_l; [exact Hey|].
        rewrite <- Qpower_plus by discriminate.
        replace (52 + ey)%Z with (ilog2 y) by lia. exact Hy1. }
      pose proof (round_above _ _ Hb) as Hr.
      rewrite two_power_Z in Hr by lia.
      assert (Ep : 2 ^ 52 * 2 ^ ey == 2 ^ ilog2 y).
      { rewrite <- Qpower_plus by discriminate.
        replace (52 + ey)%Z with (ilog2 y) by lia. reflexivity. }
      nra.
Qed.

(** Rounding is monotone on the non-negative numbers. *)
Lemma fl_mono (x y : Q) : 0 <= x -> x <= y -> fl x <= fl y.
Proof.
  intros Hx Hxy. destruct (Qeq_dec x 0) as [E|E].
  - rewrite (fl_zero x E). apply fl_nonneg. lra.
  - apply fl_mono_pos; [lra | exact Hxy].
Qed.

(** One rounding moves a number of the normal range by at most the
    unit roundoff, relatively. *)
Lemma fl_error (x : Q) :
  2 ^ (-1022) <= x ->
  x * (1 - unit_roundoff) <= fl x /\ fl x <= x * (1 + unit_roundoff).
Proof.
  intros Hn.
  assert (Hx : 0 < x) by (pose proof (two_power_pos (-1022)); lra).
  rewrite (fl_pos x Hx), (ulp_exp_pos x Hx).
  destruct (ilog2_spec x Hx) as [H1 H2].
  assert (Hl : (-1022 <= ilog2 x)%Z).
  { rewrite <- (ilog2_unique (2 ^ (-1022)) (-1022)).
    - apply ilog2_mono; [apply two_power_pos | exact Hn].
    - lra.
    - apply two_power_lt. lia. }
  replace (Z.max (ilog2 x - 52) (-1074)) with (ilog2 x - 52)%Z by lia.
  set (e := (ilog2 x - 52)%Z).
  pose proof (two_power_pos e) as He.
  destruct (round_half_even_spec (x / 2 ^ e)) as [R1 R2].
  pose proof (scaled x e) as Es.
  set (n := inject_Z (round_half_even (x / 2 ^ e))) in *.
  set (y := x / 2 ^ e) in *.
  assert (Eu : 2 ^ e == 2 ^ ilog2 x * (2 * unit_roundoff)).
  { unfold e. replace (ilog2 x - 52)%Z with (ilog2 x + - 52)%Z by lia.
    rewrite Qpower_plus by discriminate.
    apply Qmult_comp; [reflexivity|]. reflexivity. }
  pose proof (two_power_pos (ilog2 x)) as Hp.
  assert (Hu : 0 < unit_roundoff) by reflexivity.
  split; nra.
Qed.

(** Integers below [2^53] are binary64 numbers. *)
Lemma fl_integer (n : Z) :
  (0 <= n < 2 ^ 53)%Z -> fl (inject_Z n) == inject_Z n.
Proof.
  intros [H0 H1]. destruct (Z.eq_dec n 0) as [->|Hn]; [reflexivity|].
  assert (Hp : 0 < inject_Z n).
  { change 0 with (inject_Z 0). rewrite <- Zlt_Qlt. lia. }
  rewrite (fl_pos _ Hp), (ulp_exp_pos _ Hp).
  destruct (ilog2_spec _ Hp) as [L1 L2].
  assert (Hl0 : (0 <= ilog2 (inject_Z n))%Z).
  { rewrite <- (ilog2_unique 1 0); [| apply Qle_refl | reflexivity].
    apply ilog2_mono; [reflexivity|].
    change 1 with (inject_Z 1). rewrite <- Zle_Qle. lia. }
  assert (Hl1 : (ilog2 (inject_Z n) < 53)%Z).
  { destruct (Z_lt_ge_dec (ilog2 (inject_Z n)) 53) as [H|H]; [exact H|].
    exfalso. assert (2 ^ 53 <= 2 ^ ilog2 (inject_Z n)) by (apply two_power_le; lia).
    assert (inject_Z n < inject_Z (2 ^ 53)) by (rewrite <- Zlt_Qlt; exact H1).
    rewrite two_power_Z in H3 by lia. lra. }
  set (j := ilog2 (inject_Z n)) in *.
  replace (Z.max (j - 52) (-1074)) with (j - 52)%Z by lia.
  assert (E : inject_Z n / 2 ^ (j - 52) == inject_Z (n * 2 ^ (52 - j))).
  { rewrite inject_Z_mult, two_power_Z by lia.
    replace (j - 52)%Z with (- (52 - j))%Z by lia.
    rewrite Qpower_opp. field.
    pose proof (two_power_pos (52 - j)). lra. }
  rewrite (round_half_even_morph _ _ E), round_half_even_Z.
  rewrite <- E. apply scaled.
Qed.


End DoubleArithmetic.

#[global] Instance fl_proper : Proper (Qeq ==> Qeq) fl.
Proof. intros x y E. apply fl_morph, E. Qed.

#[global] Instance fmul_proper : Proper (Qeq ==> Qeq ==> Qeq) fmul.
Proof. intros a b E c d F. unfold fmul. rewrite E, F. reflexivity. Qed.

#[global] Instance fdiv_proper : Proper (Qeq ==> Qeq ==> Qeq) fdiv.
Proof. intros a b E c d F. unfold fdiv. rewrite E, F. reflexivity. Qed.

#[global] Instance Math_round_proper : Proper (Qeq ==> eq) Math_round.
Proof. intros x y E. apply Math_round_morph, E. Qed.

Section ScaledSides.

Open Scope Q_scope.

Lemma fl_one : fl 1 == 1.
Proof. apply (fl_integer 1). split; [discriminate | reflexivity]. Qed.

Lemma normal_range (x : Q) : (1 # 4294967296) <= x -> 2 ^ (-1022) <= x.
Proof.
  intros H. apply Qle_trans with (2 ^ (-32)); [|exact H].
  apply two_power_le. discriminate.
Qed.

(** Two roundings of a quantity below [2^32] stay within half a unit of
    it. *)
Lemma two_roundings_near (M y : Q) :
  0 < M -> M <= 4294967296 ->
  M * (1 - unit_roundoff) * (1 - unit_roundoff) <= y ->
  y <= M * (1 + unit_roundoff) * (1 + unit_roundoff) ->
  M - (1 # 2) < y /\ y < M + (1 # 2).
Proof.
  unfold unit_roundoff. intros H0 H1 H2 H3. split; lra.
Qed.

(** Scaling a side [w] by the rounded quotient [m / w] and rounding the
    product gives [m] back: the side that sets the ratio lands on the
    bound exactly. *)
Lemma scale_back (m w : Z) :
  (0 < m < 2 ^ 32)%Z -> (0 < w < 2 ^ 32)%Z ->
  Math_round (fmul (inject_Z w) (fdiv (inject_Z m) (inject_Z w))) = m.
Proof.
  intros [Hm0 Hm1] [Hw0 Hw1]. unfold fmul, fdiv.
  set (M := inject_Z m). set (W := inject_Z w).
  assert (HM : 1 <= M) by (unfold M; change 1 with (inject_Z 1);
                           rewrite <- Zle_Qle; lia).
  assert (HM' : M <= 4294967296)
    by (unfold M; change 4294967296 with (inject_Z 4294967296);
        rewrite <- Zle_Qle; lia).
  assert (HW : 1 <= W) by (unfold W; change 1 with (inject_Z 1);
                           rewrite <- Zle_Qle; lia).
  assert (HW' : W <= 4294967296)
    by (unfold W; change 4294967296 with (inject_Z 4294967296);
        rewrite <- Zle_Qle; lia).
  set (a := M / W).
  assert (Ea : W * a == M) by (unfold a; field; lra).
  assert (Ha : (1 # 4294967296) <= a).
  { unfold a. apply Qle_shift_div_l; [lra|]. lra. }
  destruct (fl_error a (normal_range a Ha)) as [A1 A2].
  set (r := fl a) in *.
  assert (Hu : 0 < unit_roundoff) by reflexivity.
  assert (Hu' : unit_roundoff < 1 # 2) by reflexivity.
  assert (P1 : M * (1 - unit_roundoff) <= W * r) by nra.
  assert (P2 : W * r <= M * (1 + unit_roundoff)) by nra.
  assert (Hp : (1 # 4294967296) <= W * r) by nra.
  destruct (fl_error (W * r) (normal_range _ Hp)) as [B1 B2].
  set (y := fl (W * r)) in *.
  assert (Y1 : M * (1 - unit_roundoff) * (1 - unit_roundoff) <= y) by nra.
  assert (Y2 : y <= M * (1 + unit_roundoff) * (1 + unit_roundoff)) by nra.
  destruct (two_roundings_near M y) as [Z1 Z2]; try assumption; [lra|].
  apply Math_round_unique.
  - fold M. lra.
  - rewrite inject_Z_plus. fold M. change (inject_Z 1) with 1. lra.
Qed.

(** The floors of the side-by-side layout.  For a constant [a / b] whose
    binary64 value is not below it, the floor of the binary64 product
    with an integer is the floor of the exact product: the real reading
    of [Math.floor(h * 0.04)] and [Math.floor(watermarkH * 0.55)] gives
    the integers the engine gets. *)
Lemma floor_scaled (h a b : Z) (q : Q) :
  (0 <= h < 2 ^ 32)%Z -> (0 < a < b)%Z -> (b <= 100)%Z ->
  q == inject_Z a / inject_Z b ->
  q <= fl q -> fl q <= q * (1 + unit_roundoff) ->
  Math_floor (fmul (inject_Z h) (fl q)) = (h * a / b)%Z.
Proof.
  intros [Hh0 Hh1] [Ha0 Ha1] Hb Eq Hlo Hhi. unfold Math_floor, fmul.
  destruct (Z.eq_dec h 0) as [->|Hne].
  { rewrite (fl_zero (inject_Z 0 * fl q)) by ring. reflexivity. }
  set (k := (h * a / b)%Z).
  assert (Hb0 : (0 < b)%Z) by lia.
  assert (Hk0 : (0 <= k)%Z) by (apply Z.div_pos; nia).
  assert (Hk1 : (k * b <= h * a)%Z)
    by (unfold k; rewrite (Z.mul_comm _ b); apply Z.mul_div_le; exact Hb0).
  assert (Hk2 : (h * a <= (k + 1) * b - 1)%Z).
  { pose proof (Z.mul_succ_div_gt (h * a) b Hb0) as G. fold k in G. lia. }
  assert (Hk3 : (k < 2 ^ 32)%Z).
  { assert (k * b < 2 ^ 32 * b)%Z by nia. nia. }
  set (H := inject_Z h). set (A := inject_Z a). set (B := inject_Z b).
  set (K := inject_Z k).
  assert (HB : 0 < B) by (unfold B; change 0 with (inject_Z 0);
                          rewrite <- Zlt_Qlt; exact Hb0).
  assert (HB' : B <= 100) by (unfold B; change 100 with (inject_Z 100);
                              rewrite <- Zle_Qle; exact Hb).
  assert (HA : 1 <= A) by (unfold A; change 1 with (inject_Z 1);
                           rewrite <- Zle_Qle; lia).
  assert (HH : 1 <= H) by (unfold H; change 1 with (inject_Z 1);
                           rewrite <- Zle_Qle; lia).
  assert (HK : 0 <= K) by (unfold K; change 0 with (inject_Z 0);
                           rewrite <- Zle_Qle; exact Hk0).
  assert (HK' : K + 1 <= 4294967296).
  { unfold K. change 1 with (inject_Z 1). rewrite <- inject_Z_plus.
    change 4294967296 with (inject_Z 4294967296). rewrite <- Zle_Qle. lia. }
  assert (Q1 : K * B <= H * A).
  { unfold K, B, H, A. rewrite <- !inject_Z_mult, <- Zle_Qle. exact Hk1. }
  assert (Q2 : H * A + 1 <= (K + 1) * B).
  { unfold K, B, H, A. change 1 with (inject_Z 1).
    rewrite <- inject_Z_plus, <- !inject_Z_mult, <- inject_Z_plus, <- Zle_Qle.
    lia. }
  set (inv := / B).
  assert (Hinv : B * inv == 1) by (unfold inv; apply Qmult_inv_r; lra).
  assert (Hinv0 : 1 # 100 <= inv).
  { unfold inv. apply Qle_shift_inv_l; [exact HB|]. lra. }
  assert (Hinv1 : inv <= 1).
  { unfold inv. apply Qle_shift_inv_r; [exact HB|].
    assert (1 <= B); [|lra].
    unfold B. change 1 with (inject_Z 1). rewrite <- Zle_Qle. lia. }
  assert (Eq' : q == A * inv) by (rewrite Eq; unfold inv; reflexivity).
  assert (Hq0 : 1 # 100 <= q) by (rewrite Eq'; nra).
  assert (E1 : K <= H * q).
  { rewrite Eq'. assert (K * (B * inv) <= H * A * inv) by nra. nra. }
  assert (E2 : H * q <= K + 1 - inv).
  { rewrite Eq'. assert ((H * A + 1) * inv <= (K + 1) * B * inv) by nra. nra. }
  assert (P0 : H * q <= H * fl q) by nra.
  assert (P1 : H * fl q <= H * q * (1 + unit_roundoff)) by nra.
  assert (Hu : 0 < unit_roundoff) by reflexivity.
  assert (Hn : 1 # 4294967296 <= H * fl q) by nra.
  destruct (fl_error (H * fl q) (normal_range _ Hn)) as [_ F2].
  assert (Lo : K <= fl (H * fl q)).
  { apply Qle_trans with (fl K).
    - unfold K. rewrite (fl_integer k) by lia. apply Qle_refl.
    - apply fl_mono; [exact HK | lra]. }
  assert (Up : fl (H * fl q) < K + 1).
  { apply Qle_lt_trans with ((K + 1 - inv) * (1 + unit_roundoff)
                             * (1 + unit_roundoff)); [nra|].
    unfold unit_roundoff in *. lra. }
  pose proof (Qfloor_le (fl (H * fl q))) as Hf.
  pose proof (Qlt_floor (fl (H * fl q))) as Hc.
  assert (G1 : (k < Qfloor (fl (H * fl q)) + 1)%Z).
  { rewrite Zlt_Qlt. fold K. eapply Qle_lt_trans; eassumption. }
  assert (G2 : (Qfloor (fl (H * fl q)) < k + 1)%Z).
  { rewrite Zlt_Qlt, inject_Z_plus. fold K. change (inject_Z 1) with 1.
    eapply Qle_lt_trans; eassumption. }
  lia.
Qed.

Lemma floor_four_percent_binary64 (h : Z) :
  (0 <= h < 2 ^ 32)%Z ->
  Math_floor (fmul (inject_Z h) (fl 0.04)) = Math_floor (inject_Z h * 0.04).
Proof.
  intros Hh. rewrite (floor_scaled h 4 100 0.04 Hh);
    [ unfold Math_floor; rewrite (Zdiv_Qdiv (h * 4) 100);
      apply Qfloor_comp; rewrite inject_Z_mult;
      change (inject_Z 4) with (4 # 1); change (inject_Z 100) with (100 # 1);
      set (H := inject_Z h); field
    | lia | lia | reflexivity
    | vm_compute; discriminate | vm_compute; discriminate ].
Qed.

Lemma floor_watermark_font_binary64 (strip : Z) :
  (0 <= strip < 2 ^ 32)%Z ->
  Math_floor (fmul (inject_Z strip) (fl 0.55))
  = Math_floor (inject_Z strip * 0.55).
Proof.
  intros Hh. rewrite (floor_scaled strip 55 100 0.55 Hh);
    [ unfold Math_floor; rewrite (Zdiv_Qdiv (strip * 55) 100);
      apply Qfloor_comp; rewrite inject_Z_mult;
      change (inject_Z 55) with (55 # 1); change (inject_Z 100) with (100 # 1);
      set (H := inject_Z strip); field
    | lia | lia | reflexivity
    | vm_compute; discriminate | vm_compute; discriminate ].
Qed.

End ScaledSides.

(** ** The frame schedule of the animated export *)

Section FrameSchedule.

Import Gif.

(** The schedule has twenty-eight frames, not thirty, and its last
    frame is an eased one shown for 80ms. *)
Lemma build_frames_not_thirty : ~ thirty_frame_schedule build_frames.
Proof.
  intros [Hlen _]. vm_compute in Hlen. discriminate Hlen.
Qed.

Lemma build_frames_last_delay :
  option_map delay (hd_error (rev build_frames)) = Some 80%Z.
Proof. vm_compute. reflexivity. Qed.

(** C1 (amended).  [createSliderGif] schedules exactly 28 frames: a hold
    on before (sweep position 1, 1000ms), thirteen steps at 80ms whose
    position is one minus the ease-in-out value at i/14, a hold on after
    (position 0, 1000ms) and thirteen steps back at 80ms with the eased
    value itself; the delays are 1000ms at indices 0 and 14 and 80ms
    everywhere else, the last frame included. *)
Theorem build_frames_schedule :
  List.length build_frames = 28%nat /\
  Forall2 same_frame build_frames sweep_schedule /\
  map delay build_frames
  = ([1000] ++ repeat 80 13 ++ [1000] ++ repeat 80 13)%Z.
Proof.
  split; [reflexivity|]. split; [|reflexivity].
  unfold sweep_schedule.
  repeat (apply Forall2_cons; [split; [vm_compute; reflexivity | reflexivity] |]).
  apply Forall2_nil.
Qed.

(** The array the encoder loops over is this schedule with every
    position rounded as binary64 arithmetic rounds it: the delays are the
    same and no position moves by more than [2^-53]. *)
Lemma frames_follow_schedule :
  Forall2 (fun f g => Qabs (pct f - pct g) <= unit_roundoff /\
                      delay f = delay g)
          frames build_frames.
Proof.
  repeat (apply Forall2_cons;
          [split; [vm_compute; discriminate | reflexivity] |]).
  apply Forall2_nil.
Qed.

End FrameSchedule.

(** ** Strings: [trim] *)

Section Trim.

Lemma trimStart_whitespace (s : jsstring) :
  forallb is_white_space s = true -> trimStart s = [].
Proof.
  induction s as [|c s IH]; simpl; [reflexivity|].
  intros H. apply andb_prop in H. destruct H as [Hc Hs].
  rewrite Hc. apply IH, Hs.
Qed.

Lemma trimStart_head (s : jsstring) :
  match trimStart s with
  | [] => forallb is_white_space s = true
  | c :: _ => is_white_space c = false
  end.
Proof.
  induction s as [|c s IH]; simpl; [reflexivity|].
  destruct (is_white_space c) eqn:Hc; simpl; [exact IH | exact Hc].
Qed.

Lemma forallb_rev {A : Type} (f : A -> bool) (l : list A) :
  forallb f (rev l) = forallb f l.
Proof.
  induction l as [|a l IH]; simpl; [reflexivity|].
  rewrite forallb_app, IH. simpl. rewrite andb_true_r. apply andb_comm.
Qed.

(** A string trims to the empty string exactly when it consists of white
    space only. *)
Lemma trim_empty_iff (s : jsstring) :
  trim s = [] <-> forallb is_white_space s = true.
Proof.
  unfold trim, trimEnd. split.
  - intros H.
    assert (Hr : trimStart (rev (trimStart s)) = []).
    { destruct (trimStart (rev (trimStart s))) as [|c t]; [reflexivity|].
      simpl in H. destruct (rev t); discriminate H. }
    pose proof (trimStart_head (rev (trimStart s))) as Hh.
    rewrite Hr in Hh. rewrite forallb_rev in Hh.
    pose proof (trimStart_head s) as Hs.
    destruct (trimStart s) as [|c t]; [exact Hs|].
    simpl in Hh. rewrite Hs in Hh. discriminate Hh.
  - intros H. rewrite (trimStart_whitespace s H). reflexivity.
Qed.

Lemma truthy_trim (s : jsstring) :
  truthy (trim s) = negb (forallb is_white_space s).
Proof.
  destruct (forallb is_white_space s) eqn:H.
  - apply trim_empty_iff in H. rewrite H. reflexivity.
  - destruct (trim s) eqn:Ht; [|reflexivity].
    apply trim_empty_iff in Ht. congruence.
Qed.

End Trim.

(** ** The side-by-side canvas *)

Section SideBySideLayout.

Import SideBySide.
Open Scope Z_scope.

Variable measureText : font -> jsstring -> Q.
Variable formatDate : Date -> jsstring.

Lemma floor_four_percent (h : Z) :
  Math_floor (inject_Z h * 0.04) = 4 * h / 100.
Proof.
  rewrite (Z.mul_comm 4 h). reflexivity.
Qed.

(** C4.  The output canvas is [2 * max(before.width, after.width) + 4]
    wide and [max(before.height, after.height) + W] tall, with [W = 0]
    when the watermark trims to the empty string (an absent or
    white-space-only watermark) and [W = max(36, floor(0.04 * h))]
    otherwise. *)
Theorem side_by_side_canvas_size
        (beforeImg afterImg : Image) (options : SideBySideOptions) :
  let c := fst (compose measureText formatDate beforeImg afterImg options) in
  let w := Z.max (width beforeImg) (width afterImg) in
  let h := Z.max (height beforeImg) (height afterImg) in
  let text := default [] (watermark options) in
  cwidth c = 2 * w + 4 /\
  cheight c = h + (if forallb is_white_space text then 0
                   else Z.max 36 (4 * h / 100)) /\
  (trim text = [] -> cheight c = h) /\
  (trim text <> [] -> cheight c = h + Z.max 36 (4 * h / 100)).
Proof.
  intros c w h text.
  assert (Hh : cheight c
               = h + (if forallb is_white_space text then 0
                      else Z.max 36 (4 * h / 100))).
  { unfold c, compose. cbn [fst cheight]. unfold watermark_strip.
    rewrite truthy_trim, floor_four_percent. fold text. unfold Math_max.
    fold h. destruct (forallb is_white_space text); reflexivity. }
  split; [unfold c, compose, divider; cbn [fst cwidth]; unfold Math_max; lia|].
  split; [exact Hh|]. split; intros Ht.
  - apply trim_empty_iff in Ht. rewrite Ht in Hh. lia.
  - destruct (forallb is_white_space text) eqn:E; [|exact Hh].
    apply trim_empty_iff in E. contradiction.
Qed.

End SideBySideLayout.

Lemma side_by_side_canvas_size_witness :
  let c := fst (SideBySide.compose (fun _ _ => 0%Q) (fun _ => [])
                          (mkImage [] 800 600) (mkImage [] 800 600)
                          (SideBySide.mkOptions None (Some (lit "  ")) None None None)) in
    (cwidth c = 1604 /\ cheight c = 600)%Z.
  Proof.
    pose proof (side_by_side_canvas_size (fun _ _ => 0%Q) (fun _ => [])
                  (mkImage [] 800 600) (mkImage [] 800 600)
                  (SideBySide.mkOptions None (Some (lit "  ")) None None None)) as H.
    cbv zeta in H. destruct H as (Hw & _ & Hh & _).
    split; [exact Hw | apply Hh; reflexivity].
  Defined.


(** ** Centring of the two images *)

Section Centring.

Import SideBySide.
Open Scope Q_scope.

Variable measureText : font -> jsstring -> Q.
Variable formatDate : Date -> jsstring.

Lemma half_gap_nonneg (outer inner : Z) :
  (inner <= outer)%Z -> 0 <= (inject_Z outer - inject_Z inner) / 2.
Proof.
  intros H. unfold Qle, Qdiv, Qminus, Qplus, Qopp, Qmult, Qinv, inject_Z.
  simpl. lia.
Qed.

(** C8.  [before] is drawn in the half [0, w) x [0, h) and [after] in the
    half [w + 4, 2w + 4) x [0, h), each with equal, non-negative margins
    left and right and equal, non-negative margins above and below; for
    before = 800x600 and after = 400x600 the after image starts at
    x = 1004, leaving 200 pixels on either side of it in its 800-wide
    half. *)
Theorem images_centred_in_their_halves
        (beforeImg afterImg : Image) (options : SideBySideOptions) :
  let c := fst (compose measureText formatDate beforeImg afterImg options) in
  let w := inject_Z (Z.max (width beforeImg) (width afterImg)) in
  let h := inject_Z (Z.max (height beforeImg) (height afterImg)) in
  exists bx by_ ax ay : Q,
    nth_error (ops c) 2 = Some (DrawImage (Img beforeImg) bx by_) /\
    nth_error (ops c) 5 = Some (DrawImage (Img afterImg) ax ay) /\
    (* before: left = right, top = bottom *)
    (0 <= bx /\ bx == w - (bx + inject_Z (width beforeImg))) /\
    (0 <= by_ /\ by_ == h - (by_ + inject_Z (height beforeImg))) /\
    (* after: left = right, top = bottom *)
    (0 <= ax - (w + 4) /\
     ax - (w + 4) == (2 * w + 4) - (ax + inject_Z (width afterImg))) /\
    (0 <= ay /\ ay == h - (ay + inject_Z (height afterImg))) /\
    (* the 800x600 / 400x600 instance *)
    (width beforeImg = 800%Z -> width afterImg = 400%Z ->
     ax == 1004 /\ ax - (w + 4) == 200 /\
     (2 * w + 4) - (ax + inject_Z (width afterImg)) == 200).
Proof.
  intros c w h. unfold c, compose. cbn [fst ops app nth_error].
  unfold Math_max, divider. fold w. fold h.
  eexists _, _, _, _.
  split; [reflexivity|]. split; [reflexivity|].
  assert (Hbw : 0 <= (w - inject_Z (width beforeImg)) / 2)
    by (apply half_gap_nonneg; lia).
  assert (Hbh : 0 <= (h - inject_Z (height beforeImg)) / 2)
    by (apply half_gap_nonneg; lia).
  assert (Haw : 0 <= (w - inject_Z (width afterImg)) / 2)
    by (apply half_gap_nonneg; lia).
  assert (Hah : 0 <= (h - inject_Z (height afterImg)) / 2)
    by (apply half_gap_nonneg; lia).
  repeat split; try assumption; try field.
  - setoid_replace (w + inject_Z 4 + (w - inject_Z (width afterImg)) / 2 - (w + 4))
      with ((w - inject_Z (width afterImg)) / 2) by field.
    exact Haw.
  - unfold w. rewrite H, H0. reflexivity.
  - unfold w. rewrite H, H0. reflexivity.
  - unfold w. rewrite H, H0. reflexivity.
Qed.

End Centring.

Lemma images_centred_in_their_halves_witness :
  exists ax ay : Q,
    nth_error (ops (fst (SideBySide.compose (fun _ _ => 0%Q) (fun _ => [])
                           (mkImage [] 800 600) (mkImage [] 400 600)
                           SideBySide.no_options))) 5
    = Some (DrawImage (Img (mkImage [] 400 600)) ax ay) /\ (ax == 1004)%Q.
Proof.
  destruct (images_centred_in_their_halves (fun _ _ => 0%Q) (fun _ => [])
              (mkImage [] 800 600) (mkImage [] 400 600) SideBySide.no_options)
    as (bx & by_ & ax & ay & _ & Ha & _ & _ & _ & _ & Hi).
  exists ax, ay. split; [exact Ha|].
  apply Hi; reflexivity.
Defined.

(** ** [resizeImage] *)

Section RealResize.

Open Scope Q_scope.

Lemma inject_Z_pos (z : Z) : (0 < z)%Z -> 0 < inject_Z z.
Proof. intros H. change 0 with (inject_Z 0). rewrite <- Zlt_Qlt. exact H. Qed.

Lemma scaled_side_le (side other m : Z) :
  (0 < side)%Z -> (0 < other)%Z -> (0 < m)%Z ->
  let r := Qmin (inject_Z m / inject_Z side) (inject_Z m / inject_Z other) in
  0 <= inject_Z side * r <= inject_Z m.
Proof.
  intros Hs Ho Hm r.
  pose proof (inject_Z_pos _ Hs) as Hs'. pose proof (inject_Z_pos _ Ho) as Ho'.
  pose proof (inject_Z_pos _ Hm) as Hm'.
  assert (Hr : 0 <= r).
  { unfold r. apply Q.min_glb; apply Qlt_le_weak, Qlt_shift_div_l;
      try assumption; rewrite Qmult_0_l; assumption. }
  split.
  - apply Qmult_le_0_compat; [apply Qlt_le_weak, Hs' | exact Hr].
  - apply Qle_trans with (inject_Z side * (inject_Z m / inject_Z side)).
    + apply Qmult_le_l; [exact Hs' | apply Q.le_min_l].
    + apply Qle_lteq. right. field. intro E. rewrite E in Hs'.
      apply (Qlt_irrefl _ Hs').
Qed.

End RealResize.

Section BinaryResize.

Import Resize.
Open Scope Q_scope.

Variable encode : canvas -> string -> Q -> jsstring.
Variable loadImg : jsstring -> completion Image.

(** The side that is at least as long as the other sets the ratio and
    lands on the bound; the other side stays within it. *)
Lemma resized_sides (long short m : Z) :
  (0 < m < long)%Z -> (0 < short <= long)%Z -> (long < 2 ^ 32)%Z ->
  let r := Qmin (fdiv (inject_Z m) (inject_Z long))
                (fdiv (inject_Z m) (inject_Z short)) in
  Math_round (fmul (inject_Z long) r) = m /\
  (0 <= Math_round (fmul (inject_Z short) r) <= m)%Z.
Proof.
  intros [Hm0 Hm1] [Hs0 Hs1] Hl r.
  pose proof (inject_Z_pos m Hm0) as HM.
  pose proof (inject_Z_pos short Hs0) as HS.
  assert (HL : 0 < inject_Z long) by (apply inject_Z_pos; lia).
  assert (HSL : inject_Z short <= inject_Z long)
    by (rewrite <- Zle_Qle; exact Hs1).
  assert (Hq : 0 <= inject_Z m / inject_Z long).
  { apply Qle_shift_div_l; [exact HL | lra]. }
  assert (Hqq : inject_Z m / inject_Z long <= inject_Z m / inject_Z short).
  { apply Qle_shift_div_l; [exact HS|].
    apply Qle_trans with (inject_Z m / inject_Z long * inject_Z long).
    - apply Qmult_le_compat_nonneg; split;
        [exact Hq | apply Qle_refl | lra | exact HSL].
    - apply Qle_lteq. right. field. lra. }
  assert (Er : r == fdiv (inject_Z m) (inject_Z long)).
  { unfold r. apply Q.min_l. apply fl_mono; assumption. }
  assert (Hr0 : 0 <= fdiv (inject_Z m) (inject_Z long))
    by (apply fl_nonneg, Hq).
  assert (El : Math_round (fmul (inject_Z long) r) = m).
  { rewrite Er. apply scale_back; lia. }
  split; [exact El|]. split.
  - apply Math_round_ge. change (inject_Z 0) with 0. apply fl_nonneg.
    rewrite Er. apply Qmult_le_0_compat; [lra | exact Hr0].
  - rewrite <- El. apply Math_round_mono. rewrite Er. apply fl_mono.
    + apply Qmult_le_0_compat; [lra | exact Hr0].
    + apply Qmult_le_compat_nonneg; split;
        [lra | exact HSL | exact Hr0 | apply Qle_refl].
Qed.

(** C10.  An image no larger than [maxDimension] on either side comes
    back as the very data URL that was passed in.  A larger one (with
    sides below 2^32, as every decoded image has) is redrawn at
    [round(width * r)] by [round(height * r)] with the single ratio
    [r = min(maxDimension / width, maxDimension / height)], quotients
    and products being those of binary64 arithmetic; both new dimensions
    are at most [maxDimension], and one of them reaches it. *)
Theorem resizeImage_identity_or_uniform_scale
        (dataUrl : jsstring) (img : Image)
        (maxDimension : option Z) (quality : option Q) :
  loadImg dataUrl = Return img ->
  let m := SideBySide.default 1920%Z maxDimension in
  let w := width img in
  let h := height img in
  ((w <= m)%Z /\ (h <= m)%Z ->
   resizeImage encode loadImg dataUrl maxDimension quality = Return dataUrl)
  /\
  ((0 < m)%Z -> (0 < w < 2 ^ 32)%Z -> (0 < h < 2 ^ 32)%Z ->
   (m < w)%Z \/ (m < h)%Z ->
   let r := Math_min (fdiv (inject_Z m) (inject_Z w))
                     (fdiv (inject_Z m) (inject_Z h)) in
   let c := resized_canvas img m in
   resizeImage encode loadImg dataUrl maxDimension quality
   = Return (toDataURL encode c "image/jpeg"
                       (SideBySide.default 0.85 quality)) /\
   cwidth c = Math_round (fmul (inject_Z w) r) /\
   cheight c = Math_round (fmul (inject_Z h) r) /\
   ops c = [DrawImageScaled (Img img) 0 0
                            (inject_Z (cwidth c)) (inject_Z (cheight c))] /\
   (0 <= cwidth c <= m)%Z /\ (0 <= cheight c <= m)%Z /\
   (cwidth c = m \/ cheight c = m)).
Proof.
  intros Hload m w h. split.
  - intros [Hw Hh]. unfold resizeImage. rewrite Hload. fold m.
    apply Z.leb_le in Hw. apply Z.leb_le in Hh. fold w h.
    rewrite Hw, Hh. reflexivity.
  - intros Hm [Hw Hw'] [Hh Hh'] Hbig r c.
    split.
    { unfold resizeImage. rewrite Hload. fold m w h.
      assert (E : ((w <=? m)%Z && (h <=? m)%Z) = false).
      { apply andb_false_iff. destruct Hbig; [left|right];
          apply Z.leb_gt; assumption. }
      rewrite E. reflexivity. }
    split; [reflexivity|]. split; [reflexivity|]. split; [reflexivity|].
    unfold c, resized_canvas. cbn [cwidth cheight]. fold w h r.
    unfold r, Math_min.
    destruct (Z_le_gt_dec h w) as [Hhw|Hhw].
    + destruct (resized_sides w h m) as [El Es]; [lia | lia | lia |].
      cbv zeta in El, Es. rewrite El.
      split; [lia|]. split; [exact Es|]. left. reflexivity.
    + destruct (resized_sides h w m) as [El Es]; [lia | lia | lia |].
      cbv zeta in El, Es.
      rewrite (Q.min_comm (fdiv (inject_Z m) (inject_Z h))) in El, Es.
      rewrite El.
      split; [exact Es|]. split; [lia|]. right. reflexivity.
Qed.

(** Two ties.  An image 11 x 2816 resized to 1920 gets the width 7: the
    exact width 7.5 is computed as the number just below it.  An image
    49 x 686 resized to 7 gets the width 0 for the same reason, so its
    canvas has no pixels and the result is the empty data URL. *)
Lemma resize_at_ties :
  cwidth (resized_canvas (mkImage [] 11 2816) 1920) = 7%Z /\
  cheight (resized_canvas (mkImage [] 11 2816) 1920) = 1920%Z /\
  inject_Z 11 * (1920 / 2816) == 15 # 2 /\
  cwidth (resized_canvas (mkImage [] 49 686) 7) = 0%Z /\
  toDataURL encode (resized_canvas (mkImage [] 49 686) 7) "image/jpeg" 0.85
  = lit "data:,".
Proof.
  split; [vm_compute; reflexivity|]. split; [vm_compute; reflexivity|].
  split; [reflexivity|]. split; [vm_compute; reflexivity|].
  unfold toDataURL.
  assert (E : cwidth (resized_canvas (mkImage [] 49 686) 7) = 0%Z)
    by (vm_compute; reflexivity).
  rewrite E. reflexivity.
Qed.

End BinaryResize.

Lemma resizeImage_identity_or_uniform_scale_witness :
  let encode := fun (_ : canvas) (_ : string) (_ : Q) => lit "data:image/jpeg;base64," in
  let loadImg := fun _ : jsstring => Return (mkImage [] 4000 3000) in
  let c := Resize.resized_canvas (mkImage [] 4000 3000) 1920 in
  Resize.resizeImage encode loadImg [] None None
  = Return (lit "data:image/jpeg;base64,") /\
  (0 <= cwidth c <= 1920)%Z /\ (0 <= cheight c <= 1920)%Z.
Proof.
  intros encode loadImg c.
  destruct (resizeImage_identity_or_uniform_scale encode loadImg []
              (mkImage [] 4000 3000) None None eq_refl)
    as [_ H].
  cbv zeta in H.
  destruct H as (Hr & _ & _ & _ & Hw & Hh & _);
    [reflexivity | split; reflexivity | split; reflexivity
     | left; reflexivity |].
  split; [rewrite Hr; reflexivity|].
  split; [exact Hw | exact Hh].
Defined.

(** ** The slider frame: divider and handle *)

Section SliderFrame.

Import Gif.
Open Scope Q_scope.

Variable measureText : font -> jsstring -> Q.

Lemma handle_suppressed (beforeImg afterImg : Image) (w h : Z) (pct : Q) :
  (clip_boundary w pct <= 2)%Z \/ (w - 2 <= clip_boundary w pct)%Z ->
  existsb paints_handle
          (renderSliderFrame measureText beforeImg afterImg w h pct) = false.
Proof.
  intros Hedge. unfold renderSliderFrame. fold (clip_boundary w pct).
  assert (E : ((clip_boundary w pct >? 2) && (clip_boundary w pct <? w - 2))%Z = false).
  { apply andb_false_iff. destruct Hedge; [left|right]; lia. }
  rewrite E. destruct (clip_boundary w pct >? 0)%Z; reflexivity.
Qed.

Lemma handle_drawn (beforeImg afterImg : Image) (w h : Z) (pct : Q) :
  (2 < clip_boundary w pct < w - 2)%Z ->
  In (Arc (inject_Z (clip_boundary w pct)) (inject_Z h / 2)
          (inject_Z (Z.max 12 (Math_round (fmul (inject_Z w) (fl 0.04))))))
     (renderSliderFrame measureText beforeImg afterImg w h pct).
Proof.
  intros Hmid. unfold renderSliderFrame. fold (clip_boundary w pct).
  assert (E : ((clip_boundary w pct >? 2) && (clip_boundary w pct <? w - 2))%Z = true).
  { apply andb_true_iff. lia. }
  rewrite E. apply in_or_app. right. apply in_or_app. right.
  apply in_or_app. left. unfold Math_max. cbn [In].
  do 10 right. left. reflexivity.
Qed.

Lemma clip_boundary_0 (w : Z) : clip_boundary w 0 = 0%Z.
Proof.
  unfold clip_boundary, fmul.
  rewrite (fl_zero (inject_Z w * 0)) by ring. reflexivity.
Qed.

Lemma clip_boundary_1 (w : Z) : (0 <= w < 2 ^ 53)%Z -> clip_boundary w 1 = w.
Proof.
  intros Hw. unfold clip_boundary, fmul.
  rewrite Qmult_1_r, (fl_integer w Hw). apply Math_round_inject.
Qed.

(** C6.  At sweep position 0 a frame of any size carries no divider
    line, handle or arrow, and none at sweep position 1 (the width being
    an integer the engine represents, below 2^53); more generally none
    is painted when the clip boundary, [Math.round] of the binary64
    product [w * pct], is within 2 pixels of the left or the right edge.
    At sweep position 0.5 on a frame 480 pixels wide the handle is the
    circle centred at x = 240, half-way down, of radius 19. *)
Theorem slider_handle_suppressed_at_edges
        (beforeImg afterImg : Image) (w h : Z) :
  existsb paints_handle
          (renderSliderFrame measureText beforeImg afterImg w h 0) = false /\
  ((0 <= w < 2 ^ 53)%Z ->
   existsb paints_handle
           (renderSliderFrame measureText beforeImg afterImg w h 1) = false) /\
  (forall pct,
      (Math_round (fmul (inject_Z w) pct) <= 2)%Z \/
      (w - 2 <= Math_round (fmul (inject_Z w) pct))%Z ->
      existsb paints_handle
              (renderSliderFrame measureText beforeImg afterImg w h pct)
      = false) /\
  In (Arc 240 (inject_Z h / 2) 19)
     (renderSliderFrame measureText beforeImg afterImg 480 h 0.5).
Proof.
  split; [apply handle_suppressed; rewrite clip_boundary_0; lia|].
  split; [intros Hw; apply handle_suppressed;
          rewrite (clip_boundary_1 w Hw); lia|].
  split; [intros pct; apply handle_suppressed|].
  assert (E1 : clip_boundary 480 0.5 = 240%Z) by (vm_compute; reflexivity).
  assert (E2 : Z.max 12 (Math_round (fmul (inject_Z 480) (fl 0.04))) = 19%Z)
    by (vm_compute; reflexivity).
  pose proof (handle_drawn beforeImg afterImg 480 h 0.5) as H.
  rewrite E1, E2 in H. apply H. split; reflexivity.
Qed.

(** The tie of frame 15 on a canvas 245 pixels wide: the position stored
    in the array is the binary64 number next below 1/98, its product
    with 245 rounds to the binary64 number 2.5, and [Math.round] makes
    the boundary 3, so the divider and the handle are painted. *)
Lemma frame_15_at_width_245 (beforeImg afterImg : Image) (h : Z) :
  let p := pct (nth 15 frames (mkFrame 0 0)) in
  p < 1 # 98 /\
  inject_Z 245 * p < 5 # 2 /\
  clip_boundary 245 p = 3%Z /\
  existsb paints_handle
          (renderSliderFrame measureText beforeImg afterImg 245 h p)
  = true.
Proof.
  intros p.
  split; [vm_compute; reflexivity|]. split; [vm_compute; reflexivity|].
  assert (E : clip_boundary 245 p = 3%Z) by (vm_compute; reflexivity).
  split; [exact E|].
  unfold renderSliderFrame. fold (clip_boundary 245 p).
  rewrite E. reflexivity.
Qed.

End SliderFrame.

Lemma slider_handle_suppressed_at_edges_witness :
  existsb Gif.paints_handle
          (Gif.renderSliderFrame (fun _ _ => 40%Q) (mkImage [] 480 360)
                                 (mkImage [] 480 360) 480 360 1)
  = false /\
  existsb Gif.paints_handle
          (Gif.renderSliderFrame (fun _ _ => 40%Q) (mkImage [] 480 360)
                                 (mkImage [] 480 360) 480 360 (1 # 250))
  = false.
Proof.
  destruct (slider_handle_suppressed_at_edges (fun _ _ => 40%Q)
              (mkImage [] 480 360) (mkImage [] 480 360) 480 360)
    as (_ & H1 & H & _).
  split.
  - apply H1. split; [discriminate | reflexivity].
  - apply H. left. vm_compute. discriminate.
Defined.

(** ** Palette sampling *)

Section Sampling.

Import Gif.
Open Scope Z_scope.

Lemma firstn_exact {A : Type} (l t : list A) (n : nat) :
List.length l = n -> firstn n (l ++ t) = l.
Proof.
intros <-. rewrite firstn_app, firstn_all, Nat.sub_diag. simpl.
apply app_nil_r.
Qed.

Lemma skipn_exact {A : Type} (l t : list A) (n : nat) :
List.length l = n -> skipn n (l ++ t) = t.
Proof.
intros <-. rewrite skipn_app, skipn_all, Nat.sub_diag. reflexivity.
Qed.

(** A write at the first free position of the buffer. *)
Lemma store_next (pre rest : bytes) (x v : byte) (ci : Z) :
ci = Z.of_nat (List.length pre) ->
store (pre ++ x :: rest) ci v = pre ++ v :: rest.
Proof.
intros ->. unfold store.
assert (E : ((0 <=? Z.of_nat (List.length pre))
             && (Z.of_nat (List.length pre)
                 <? Z.of_nat (List.length (pre ++ x :: rest)))) = true).
{ apply andb_true_iff. rewrite length_app. cbn [List.length].
  split; [apply Z.leb_le | apply Z.ltb_lt]; lia. }
rewrite E, Nat2Z.id.
rewrite (firstn_exact pre (x :: rest) _ eq_refl).
change (S (List.length pre)) with (1 + List.length pre)%nat.
rewrite <- skipn_skipn, (skipn_exact pre (x :: rest) _ eq_refl).
reflexivity.
Qed.

(** The four writes of one loop iteration. *)
Lemma store_pixel (pre rest : bytes) (a b c d : byte) (ci : Z) :
ci = Z.of_nat (List.length pre) ->
(4 <= List.length rest)%nat ->
store (store (store (store (pre ++ rest) ci a) (ci + 1) b) (ci + 2) c)
      (ci + 3) d
= (pre ++ [a; b; c; d]) ++ skipn 4 rest.
Proof.
intros Hci Hlen.
destruct rest as [|r0 [|r1 [|r2 [|r3 rest]]]]; simpl in Hlen; try lia.
rewrite (store_next pre _ r0 a ci Hci).
change (pre ++ a :: r1 :: r2 :: r3 :: rest)
  with (pre ++ [a] ++ r1 :: r2 :: r3 :: rest).
rewrite app_assoc, (store_next (pre ++ [a]) _ r1 b)
  by (rewrite length_app; simpl; lia).
change ((pre ++ [a]) ++ b :: r2 :: r3 :: rest)
  with ((pre ++ [a]) ++ [b] ++ r2 :: r3 :: rest).
rewrite app_assoc, (store_next ((pre ++ [a]) ++ [b]) _ r2 c)
  by (rewrite !length_app; simpl; lia).
change (((pre ++ [a]) ++ [b]) ++ c :: r3 :: rest)
  with (((pre ++ [a]) ++ [b]) ++ [c] ++ r3 :: rest).
rewrite app_assoc, (store_next (((pre ++ [a]) ++ [b]) ++ [c]) _ r3 d)
  by (rewrite !length_app; simpl; lia).
simpl. rewrite <- !app_assoc. reflexivity.
Qed.

Lemma for_fuel_step {A : Type} (fuel : nat) (i hi stride : Z)
      (body : Z -> A -> A) (acc : A) :
  for_fuel (S fuel) i hi stride body acc
  = if i <? hi then for_fuel fuel (i + stride) hi stride body (body i acc)
    else acc.
Proof. reflexivity. Qed.

Lemma sample_loop (totalPixels : Z) (px : bytes) (m : nat) :
forall (k fuel : nat) (pre rest : bytes),
  (m <= fuel)%nat ->
  (forall j, (j < m)%nat -> 16 * Z.of_nat (k + j) < totalPixels * 4) ->
  totalPixels * 4 <= 16 * Z.of_nat (k + m) ->
  (4 * m <= List.length rest)%nat ->
  for_fuel fuel (16 * Z.of_nat k) (totalPixels * 4) (step * 4) (sample_body px)
           (pre ++ rest, Z.of_nat (List.length pre))
  = (pre ++ flat_map (pixel_sample px) (seq k m) ++ skipn (4 * m) rest,
     Z.of_nat (List.length pre + 4 * m)).
Proof.
induction m as [|m IH]; intros k fuel pre rest Hfuel Hin Hout Hlen.
- rewrite Nat.add_0_r in *. cbn [seq flat_map app Nat.mul skipn].
  rewrite Nat.add_0_r.
  destruct fuel as [|fuel]; [reflexivity | rewrite for_fuel_step].
  + assert (E : (16 * Z.of_nat k <? totalPixels * 4) = false)
      by (apply Z.ltb_ge; exact Hout).
    rewrite E. reflexivity.
- destruct fuel as [|fuel]; [lia|]. rewrite for_fuel_step.
  assert (E : (16 * Z.of_nat k <? totalPixels * 4) = true).
  { apply Z.ltb_lt. specialize (Hin 0%nat). rewrite Nat.add_0_r in Hin.
    apply Hin. lia. }
  rewrite E. unfold sample_body at 2. cbv zeta.
  rewrite store_pixel by (reflexivity || lia).
  replace (16 * Z.of_nat k + step * 4) with (16 * Z.of_nat (S k))
    by (unfold step; lia).
  replace (Z.of_nat (List.length pre) + 4)
    with (Z.of_nat (List.length (pre ++ [load px (16 * Z.of_nat k);
                                         load px (16 * Z.of_nat k + 1);
                                         load px (16 * Z.of_nat k + 2);
                                         xff])))
    by (rewrite length_app; simpl; lia).
  rewrite IH.
  + rewrite skipn_skipn. cbn [seq flat_map]. unfold pixel_sample at 2.
    rewrite <- !app_assoc. f_equal.
    * f_equal. f_equal. f_equal. f_equal. lia.
    * rewrite length_app. simpl. f_equal. lia.
  + lia.
  + intros j Hj. specialize (Hin (S j)).
    replace (S k + j)%nat with (k + S j)%nat by lia. apply Hin. lia.
  + replace (S k + m)%nat with (k + S m)%nat by lia. exact Hout.
  + rewrite length_skipn. lia.
Qed.

Lemma sample_length (px : bytes) (k m : nat) :
List.length (flat_map (pixel_sample px) (seq k m)) = (4 * m)%nat.
Proof.
revert k. induction m as [|m IH]; intros k; [reflexivity|].
cbn [seq flat_map]. rewrite length_app, IH. simpl. lia.
Qed.

Lemma ceil_quarter (t : Z) :
Math_ceil (inject_Z t / inject_Z step) = (t + 3) / 4.
Proof.
unfold Math_ceil, Qceiling, Qfloor. simpl.
Z.div_mod_to_equations. lia.
Qed.

(** One sampling loop appends the colour of every fourth pixel. *)
Lemma sample_image_spec (totalPixels : Z) (px pre rest : bytes) :
0 <= totalPixels ->
(4 * Z.to_nat ((totalPixels + 3) / 4) <= List.length rest)%nat ->
sample_image totalPixels px (pre ++ rest, Z.of_nat (List.length pre))
= (pre ++ every_fourth_pixel totalPixels px
       ++ skipn (4 * Z.to_nat ((totalPixels + 3) / 4)) rest,
   Z.of_nat (List.length pre + 4 * Z.to_nat ((totalPixels + 3) / 4))).
Proof.
intros Ht Hlen. unfold sample_image, for_stride, every_fourth_pixel.
change 0 with (16 * Z.of_nat 0).
apply (sample_loop totalPixels px (Z.to_nat ((totalPixels + 3) / 4))
                   0%nat _ pre rest).
- change (16 * Z.of_nat 0) with 0. Z.div_mod_to_equations. lia.
- intros j Hj. cbn [Nat.add]. Z.div_mod_to_equations. lia.
- cbn [Nat.add]. Z.div_mod_to_equations. lia.
- exact Hlen.
Qed.

(** The buffer handed to [quantize]: every fourth pixel of the before
  image, then every fourth pixel of the after image. *)
Lemma palette_samples_spec (w h : Z) (beforePixels afterPixels : bytes) :
0 <= w * h ->
palette_samples w h beforePixels afterPixels
= every_fourth_pixel (w * h) beforePixels
    ++ every_fourth_pixel (w * h) afterPixels.
Proof.
intros Ht. unfold palette_samples. rewrite ceil_quarter.
set (T := w * h) in *. set (n := Z.to_nat ((T + 3) / 4)).
assert (Hn : Z.to_nat ((T + 3) / 4 * 2 * 4) = (4 * n + 4 * n)%nat).
{ unfold n. Z.div_mod_to_equations. lia. }
rewrite Hn.
pose proof (sample_image_spec T beforePixels []
              (repeat x00 (4 * n + 4 * n)) Ht) as H1.
fold n in H1. rewrite repeat_length in H1.
specialize (H1 ltac:(lia)). cbn [app List.length] in H1.
change (Z.of_nat 0) with 0 in H1. rewrite H1. clear H1.
assert (Hl1 : List.length (every_fourth_pixel T beforePixels) = (4 * n)%nat)
  by apply sample_length.
pose proof (sample_image_spec T afterPixels
              (every_fourth_pixel T beforePixels)
              (skipn (4 * n) (repeat x00 (4 * n + 4 * n))) Ht) as H2.
fold n in H2. rewrite length_skipn, repeat_length in H2.
specialize (H2 ltac:(lia)). rewrite Hl1 in H2.
change (0 + 4 * n)%nat with (4 * n)%nat. unfold bytes in *.
rewrite H2. clear H2.
rewrite Nat2Z.id, app_assoc.
apply firstn_exact. rewrite length_app, Hl1.
f_equal. apply sample_length.
Qed.

End Sampling.

(** ** Working resolution of the animated export *)

Section WorkingSize.

Import Gif.
Open Scope Q_scope.

Lemma working_scale (srcW : Z) :
  (0 < srcW < 2 ^ 32)%Z ->
  let scale := Qmin 1 (fdiv (inject_Z maxW) (inject_Z srcW)) in
  0 <= scale /\
  ((srcW <= 480)%Z -> scale == 1) /\
  ((480 < srcW)%Z -> scale == fdiv (inject_Z maxW) (inject_Z srcW)).
Proof.
  intros [HW HW'] scale.
  pose proof (inject_Z_pos _ HW) as HWq.
  assert (Hq : 0 <= inject_Z maxW / inject_Z srcW).
  { apply Qle_shift_div_l; [exact HWq|]. rewrite Qmult_0_l. discriminate. }
  split; [apply Q.min_glb; [discriminate | apply fl_nonneg, Hq]|].
  split.
  - intros Hle. apply Q.min_l. rewrite <- fl_one. apply fl_mono; [discriminate|].
    apply Qle_shift_div_l; [exact HWq|].
    rewrite Qmult_1_l. unfold maxW. rewrite <- Zle_Qle. exact Hle.
  - intros Hgt. apply Q.min_r. rewrite <- fl_one. apply fl_mono; [exact Hq|].
    apply Qle_shift_div_r; [exact HWq|].
    rewrite Qmult_1_l. unfold maxW. rewrite <- Zle_Qle. lia.
Qed.

Lemma working_size_spec (beforeImg afterImg : Image) :
  let srcW := Z.max (width beforeImg) (width afterImg) in
  let srcH := Z.max (height beforeImg) (height afterImg) in
  let scale := Math_min 1 (fdiv (inject_Z maxW) (inject_Z srcW)) in
  let w := fst (working_size beforeImg afterImg) in
  let h := snd (working_size beforeImg afterImg) in
  (0 < srcW < 2 ^ 32)%Z -> (0 <= srcH < 2 ^ 32)%Z ->
  w = Math_round (fmul (inject_Z srcW) scale) /\
  h = Math_round (fmul (inject_Z srcH) scale) /\
  ((srcW <= 480)%Z -> w = srcW /\ h = srcH) /\
  ((480 < srcW)%Z -> w = 480%Z) /\
  (0 < w <= 480)%Z /\ (0 <= h)%Z.
Proof.
  intros srcW srcH scale w h HW HH.
  destruct (working_scale srcW HW) as (Hs0 & Hs1 & Hs2).
  assert (HH' : 0 <= inject_Z srcH)
    by (change 0 with (inject_Z 0); rewrite <- Zle_Qle; lia).
  assert (Ew : w = Math_round (fmul (inject_Z srcW) scale)) by reflexivity.
  assert (Eh : h = Math_round (fmul (inject_Z srcH) scale)) by reflexivity.
  assert (Hsmall : (srcW <= 480)%Z -> w = srcW /\ h = srcH).
  { intros Hle. rewrite Ew, Eh. unfold scale, Math_min.
    rewrite (Hs1 Hle). unfold fmul. rewrite !Qmult_1_r.
    rewrite !fl_integer by lia. split; apply Math_round_inject. }
  assert (Hbig : (480 < srcW)%Z -> w = 480%Z).
  { intros Hgt. rewrite Ew. unfold scale, Math_min. rewrite (Hs2 Hgt).
    apply scale_back; [split; reflexivity | exact HW]. }
  split; [exact Ew|]. split; [exact Eh|].
  split; [exact Hsmall|]. split; [exact Hbig|].
  assert (Hh0 : (0 <= h)%Z).
  { rewrite Eh. apply Math_round_ge. change (inject_Z 0) with 0.
    apply fl_nonneg. apply Qmult_le_0_compat; [exact HH' | exact Hs0]. }
  split; [|exact Hh0].
  destruct (Z_le_gt_dec srcW 480) as [Hle|Hgt].
  - destruct (Hsmall Hle) as [-> _]. lia.
  - rewrite (Hbig ltac:(lia)). lia.
Qed.


(** Two ties of the working height.  A pair 704 x 11 is worked on at
    480 x 7: the exact height 7.5 is computed as the binary64 number
    just below it.  A strip 2000 x 1 gets the working height 0. *)
Lemma working_size_at_ties :
  working_size (mkImage [] 704 11) (mkImage [] 704 11) = (480, 7)%Z /\
  inject_Z 11 * (480 / 704) == 15 # 2 /\
  working_size (mkImage [] 2000 1) (mkImage [] 2000 1) = (480, 0)%Z.
Proof.
  split; [vm_compute; reflexivity|]. split; reflexivity.
Qed.

End WorkingSize.

(** ** The encoder loop of the animated export *)

Section Encoder.

Import Gif.
Open Scope Z_scope.

Variable measureText : font -> jsstring -> Q.
Variable getImageData : list op -> Z -> Z -> bytes.
Variable quantize : bytes -> Z -> palette.
Variable applyPalette : bytes -> palette -> bytes.

Lemma written_app (a b : list event) : written (a ++ b) = written a ++ written b.
Proof.
induction a as [|e a IH]; [reflexivity|].
destruct e; simpl; rewrite IH; reflexivity.
Qed.

Lemma quantize_calls_app (a b : list event) :
quantize_calls (a ++ b) = quantize_calls a ++ quantize_calls b.
Proof.
induction a as [|e a IH]; [reflexivity|].
destruct e; simpl; rewrite IH; reflexivity.
Qed.

Lemma palettes_applied_app (a b : list event) :
palettes_applied (a ++ b) = palettes_applied a ++ palettes_applied b.
Proof.
induction a as [|e a IH]; [reflexivity|].
destruct e; simpl; rewrite IH; reflexivity.
Qed.

(** The loop, from any index and any state: it only appends calls, never
  quantizes, always maps with the palette it was given, and writes frame
  [k] of its input as its [k]-th frame, rendered on top of everything
  drawn before. *)
Lemma encode_frames_spec (beforeImg afterImg : Image) (w h : Z) (pal : palette) :
let render := fun fr : Frame =>
                renderSliderFrame measureText beforeImg afterImg w h (pct fr) in
forall (fs : list Frame) (f : Z) (drawn : list op) (calls : list event),
exists new : list event,
  encode_frames measureText getImageData applyPalette
                beforeImg afterImg w h pal f fs (drawn, calls)
  = (drawn ++ flat_map render fs, calls ++ new) /\
  quantize_calls new = [] /\
  Forall (eq pal) (palettes_applied new) /\
  forall k : nat,
    nth_error (written new) k
    = match nth_error fs k with
      | Some fr =>
          Some (applyPalette
                  (getImageData (drawn ++ flat_map render (firstn (S k) fs))
                                w h) pal,
                delay fr,
                if f + Z.of_nat k =? 0 then Some pal else None)
      | None => None
      end.
Proof.
intros render. induction fs as [|fr rest IH]; intros f drawn calls.
- exists []. cbn [encode_frames flat_map]. rewrite !app_nil_r.
  repeat split; [constructor|]. intros [|k]; reflexivity.
- cbn [encode_frames]. fold (render fr).
  set (drawn' := drawn ++ render fr).
  set (rgba := getImageData drawn' w h).
  destruct (IH (f + 1) drawn'
               (calls ++ frame_calls applyPalette rgba w h pal f fr)) as (new & He & Hq & Hp & Hw).
  exists (frame_calls applyPalette rgba w h pal f fr ++ new).
  split.
  { unfold push. unfold frame_calls in He |- *.
    destruct (f mod 5 =? 0);
      [ rewrite <- !app_assoc in He |- * | rewrite app_nil_r in He;
                                           rewrite <- !app_assoc in He |- * ];
      cbn [app] in He |- *; rewrite He; unfold drawn';
      cbn [flat_map]; rewrite <- !app_assoc; reflexivity. }
  split.
  { rewrite quantize_calls_app, Hq. unfold frame_calls.
    destruct (f mod 5 =? 0); reflexivity. }
  split.
  { rewrite palettes_applied_app. unfold frame_calls.
    destruct (f mod 5 =? 0); cbn; constructor; auto. }
  intros k. rewrite written_app.
  assert (Hfc : written (frame_calls applyPalette rgba w h pal f fr)
                = [(applyPalette rgba pal, delay fr,
                    if f =? 0 then Some pal else None)]).
  { unfold frame_calls. destruct (f mod 5 =? 0); reflexivity. }
  rewrite Hfc. destruct k as [|k].
  + cbn [app nth_error firstn flat_map]. rewrite app_nil_r.
    fold drawn'. fold rgba. rewrite Z.add_0_r. reflexivity.
  + cbn [app nth_error]. rewrite Hw.
    destruct (nth_error rest k) as [fr'|]; [|reflexivity].
    cbn [firstn flat_map]. unfold drawn'. rewrite <- app_assoc.
    replace (f + 1 + Z.of_nat k) with (f + Z.of_nat (S k)) by lia.
    reflexivity.
Qed.

(** An export whose working width or height is zero fails at the first
    read-back, before any call into gifenc. *)
Lemma encode_gif_fails (beforeImg afterImg : Image) :
  fst (working_size beforeImg afterImg) = 0 \/
  snd (working_size beforeImg afterImg) = 0 ->
  encode_gif measureText getImageData quantize applyPalette
             beforeImg afterImg
  = Throw "IndexSizeError".
Proof.
  unfold encode_gif.
  destruct (working_size beforeImg afterImg) as [w h]. cbn [fst snd].
  intros H.
  assert (E : ((w =? 0) || (h =? 0)) = true).
  { apply orb_true_iff. destruct H; [left|right]; apply Z.eqb_eq; assumption. }
  rewrite E. reflexivity.
Qed.

(** The calls of any other export, spelled out around the frame loop. *)
Lemma encode_gif_calls (beforeImg afterImg : Image) :
  let w := fst (working_size beforeImg afterImg) in
  let h := snd (working_size beforeImg afterImg) in
  let drawn_before :=
    [DrawImageScaled (Img beforeImg) 0 0 (inject_Z w) (inject_Z h)] in
  let drawn_both :=
    drawn_before
      ++ [DrawImageScaled (Img afterImg) 0 0 (inject_Z w) (inject_Z h)] in
  let samples :=
    palette_samples w h (getImageData drawn_before w h)
                    (getImageData drawn_both w h) in
  let pal := quantize samples 256 in
  w <> 0 -> h <> 0 ->
  exists new : list event,
    encode_gif measureText getImageData quantize applyPalette
               beforeImg afterImg
    = Return (Quantize samples 256 :: new ++ [Finish]) /\
    quantize_calls new = [] /\
    Forall (eq pal) (palettes_applied new) /\
    forall k : nat,
      nth_error (written new) k
      = match nth_error frames k with
        | Some fr =>
            Some (applyPalette
                    (getImageData
                       (canvas_after measureText beforeImg afterImg k) w h)
                    pal,
                  delay fr,
                  if Nat.eqb k 0 then Some pal else None)
        | None => None
        end.
Proof.
  intros w h drawn_before drawn_both samples pal.
  unfold encode_gif, canvas_after.
  subst pal samples drawn_both drawn_before w h.
  destruct (working_size beforeImg afterImg) as [w h]. cbn [fst snd].
  intros Hw Hh.
  assert (E : ((w =? 0) || (h =? 0)) = false).
  { apply orb_false_iff. split; apply Z.eqb_neq; assumption. }
  rewrite E.
  set (drawn := [_] ++ [_]).
  set (samples := palette_samples _ _ _ _).
  set (pal := quantize samples 256).
  destruct (encode_frames_spec beforeImg afterImg w h pal frames 0
                               drawn [Quantize samples 256])
    as (new & He & Hq & Hp & Hwr).
  unfold push. fold drawn. rewrite He. exists new.
  split; [reflexivity|]. split; [exact Hq|]. split; [exact Hp|].
  intros k. rewrite Hwr.
  destruct (nth_error frames k) as [fr|]; [|reflexivity].
  replace (0 + Z.of_nat k =? 0) with (Nat.eqb k 0)
    by (destruct k; reflexivity).
  reflexivity.
Qed.

Lemma written_count (fs : list Frame) (ws : list (bytes * Z * option palette))
      (g : nat -> Frame -> bytes * Z * option palette) :
  (forall k, nth_error ws k = match nth_error fs k with
                              | Some fr => Some (g k fr)
                              | None => None
                              end) ->
  List.length ws = List.length fs.
Proof.
  intros H.
  destruct (Nat.lt_trichotomy (List.length ws) (List.length fs))
    as [Hl|[Hl|Hl]]; [exfalso | exact Hl | exfalso].
  - specialize (H (List.length ws)).
    assert (E : nth_error ws (List.length ws) = None)
      by (apply nth_error_None; lia).
    rewrite E in H.
    destruct (nth_error fs (List.length ws)) eqn:F; [discriminate|].
    apply nth_error_None in F. lia.
  - specialize (H (List.length fs)).
    assert (E : nth_error fs (List.length fs) = None)
      by (apply nth_error_None; lia).
    rewrite E in H. apply nth_error_None in H. lia.
Qed.

(** The calls of an export that passes the first read-back, with the
    samples spelled out. *)
Lemma encode_gif_trace (beforeImg afterImg : Image) :
  let w := fst (working_size beforeImg afterImg) in
  let h := snd (working_size beforeImg afterImg) in
  let samples :=
    palette_samples
      w h
      (getImageData
         [DrawImageScaled (Img beforeImg) 0 0 (inject_Z w) (inject_Z h)] w h)
      (getImageData
         ([DrawImageScaled (Img beforeImg) 0 0 (inject_Z w) (inject_Z h)]
            ++ [DrawImageScaled (Img afterImg) 0 0 (inject_Z w) (inject_Z h)])
         w h) in
  let pal := quantize samples 256 in
  w <> 0 -> h <> 0 ->
  exists rest : list event,
    encode_gif measureText getImageData quantize applyPalette
               beforeImg afterImg
    = Return (Quantize samples 256 :: rest) /\
    quantize_calls (Quantize samples 256 :: rest) = [(samples, 256)] /\
    Forall (eq pal) (palettes_applied (Quantize samples 256 :: rest)) /\
    List.length (written (Quantize samples 256 :: rest)) = 28%nat /\
    forall k : nat,
      nth_error (written (Quantize samples 256 :: rest)) k
      = match nth_error frames k with
        | Some fr =>
            Some (applyPalette
                    (getImageData
                       (canvas_after measureText beforeImg afterImg k) w h)
                    pal,
                  delay fr,
                  if Nat.eqb k 0 then Some pal else None)
        | None => None
        end.
Proof.
  intros w h samples pal Hw Hh.
  destruct (encode_gif_calls beforeImg afterImg Hw Hh)
    as (new & He & Hq & Hp & Hwr).
  fold w h in He, Hp, Hwr. fold samples in He, Hp, Hwr. fold pal in Hp, Hwr.
  exists (new ++ [Finish]). split; [exact He|].
  assert (Hwn : written (Quantize samples 256 :: new ++ [Finish])
                = written new).
  { cbn [written]. rewrite written_app. cbn [written]. apply app_nil_r. }
  split; [cbn [quantize_calls];
          rewrite quantize_calls_app, Hq; reflexivity|].
  split; [cbn [palettes_applied];
          rewrite palettes_applied_app, app_nil_r; exact Hp|].
  rewrite Hwn. split; [|exact Hwr].
  change 28%nat with (List.length frames).
  eapply written_count. exact Hwr.
Qed.



End Encoder.


(** A strip of 2000 x 1 pixels cannot be exported: its working height
    rounds to 0 and the first read-back throws. *)
Lemma strip_export_fails :
  Gif.encode_gif (fun _ _ => 40%Q) (fun _ _ _ => []) (fun _ _ => [])
                 (fun _ _ => []) (mkImage [] 2000 1) (mkImage [] 2000 1)
  = Throw "IndexSizeError".
Proof. vm_compute. reflexivity. Qed.

(** ** Frame capture *)

Section Capture.

Import Camera.
Open Scope Z_scope.

Variable encode : canvas -> string -> Q -> jsstring.

(** C3 (amended).  [captureFrame] checks nothing and never throws: for
    every video element it sizes a canvas to the element's current
    [videoWidth] x [videoHeight], draws exactly one frame over that whole
    area and returns the canvas encoded as JPEG at the requested quality
    (0.85 when none is given).  When either dimension is zero the canvas
    has no pixels and what comes back is the empty data URL [data:,]. *)
Theorem captureFrame_always_returns (videoEl : VideoElement) (quality : option Q) :
  exists c : canvas,
    captureFrame encode videoEl quality
    = Return (toDataURL encode c "image/jpeg"
                        (SideBySide.default 0.85%Q quality)) /\
    cwidth c = videoWidth videoEl /\
    cheight c = videoHeight videoEl /\
    ops c = [DrawImageScaled (Video videoEl) 0 0
                             (inject_Z (videoWidth videoEl))
                             (inject_Z (videoHeight videoEl))] /\
    (forall message, captureFrame encode videoEl quality <> Throw message) /\
    (videoWidth videoEl = 0 \/ videoHeight videoEl = 0 ->
     captureFrame encode videoEl quality = Return (lit "data:,")).
Proof.
  eexists. split; [reflexivity|]. cbn [cwidth cheight ops].
  repeat split; try discriminate.
  intros Hzero. unfold captureFrame, toDataURL. cbn [cwidth cheight].
  assert (E : (videoWidth videoEl =? 0) || (videoHeight videoEl =? 0) = true).
  { apply orb_true_iff. destruct Hzero as [H|H]; [left|right];
      apply Z.eqb_eq; exact H. }
  rewrite E. reflexivity.
Qed.

End Capture.

(** A video element that has no frame yet (0 x 0) is captured without any
    error: the call returns [data:,]. *)
Lemma captureFrame_zero_size_no_error :
  Camera.captureFrame (fun _ _ _ => lit "data:image/jpeg;base64,")
                      (mkVideo 0 0) None
  = Return (lit "data:,") /\
  ~ (exists message,
        Camera.captureFrame (fun _ _ _ => lit "data:image/jpeg;base64,")
                            (mkVideo 0 0) None
        = Throw message).
Proof.
  split; [reflexivity|]. intros [message H]. discriminate H.
Qed.

Lemma captureFrame_always_returns_witness :
  Camera.captureFrame (fun _ _ _ => lit "data:image/jpeg;base64,")
                      (mkVideo 0 1080) None
  = Return (lit "data:,").
Proof.
  destruct (captureFrame_always_returns
              (fun _ _ _ => lit "data:image/jpeg;base64,")
              (mkVideo 0 1080) None) as (c & _ & _ & _ & _ & _ & H).
  apply H. left. reflexivity.
Defined.

(** ** The standalone HTML export *)

Section HtmlExport.

Import Exporters.
Open Scope Z_scope.

Variables html_head html_between html_tail : jsstring.

Lemma replace_all_app (c : Z) (rep s t : jsstring) :
  replace_all c rep (s ++ t) = replace_all c rep s ++ replace_all c rep t.
Proof.
  induction s as [|d s IH]; [reflexivity|].
  cbn [app replace_all]. rewrite IH, app_assoc. reflexivity.
Qed.

Lemma escapeHtml_app (s t : jsstring) :
  escapeHtml (s ++ t) = escapeHtml s ++ escapeHtml t.
Proof. unfold escapeHtml. rewrite !replace_all_app. reflexivity. Qed.

Lemma escapeHtml_unit (c : Z) : escapeHtml [c] = entity c.
Proof.
  unfold escapeHtml, entity, amp, lt_sign, gt_sign, quot, apos.
  destruct (c =? 38) eqn:E1; [apply Z.eqb_eq in E1; subst c; reflexivity|].
  destruct (c =? 60) eqn:E2; [apply Z.eqb_eq in E2; subst c; reflexivity|].
  destruct (c =? 62) eqn:E3; [apply Z.eqb_eq in E3; subst c; reflexivity|].
  destruct (c =? 34) eqn:E4; [apply Z.eqb_eq in E4; subst c; reflexivity|].
  destruct (c =? 39) eqn:E5; [apply Z.eqb_eq in E5; subst c; reflexivity|].
  cbn [replace_all app]. rewrite E1. cbn [replace_all app]. rewrite E2.
  cbn [replace_all app]. rewrite E3. cbn [replace_all app]. rewrite E4.
  cbn [replace_all app]. rewrite E5. reflexivity.
Qed.

(** The five chained replacements amount to encoding each code unit on
    its own. *)
Lemma escapeHtml_entities (s : jsstring) : escapeHtml s = flat_map entity s.
Proof.
  induction s as [|c s IH]; [reflexivity|].
  change (c :: s) with ([c] ++ s).
  rewrite escapeHtml_app, escapeHtml_unit, IH. reflexivity.
Qed.

Lemma entity_safe (c : Z) : existsb markup_breaking (entity c) = false.
Proof.
  unfold entity, markup_breaking, amp, lt_sign, gt_sign, quot, apos.
  destruct (c =? 38) eqn:E1; [reflexivity|].
  destruct (c =? 60) eqn:E2; [reflexivity|].
  destruct (c =? 62) eqn:E3; [reflexivity|].
  destruct (c =? 34) eqn:E4; [reflexivity|].
  destruct (c =? 39) eqn:E5; [reflexivity|].
  cbn [existsb]. rewrite E2, E3, E4, E5. reflexivity.
Qed.

Lemma escapeHtml_safe (s : jsstring) :
  existsb markup_breaking (escapeHtml s) = false.
Proof.
  rewrite escapeHtml_entities.
  induction s as [|c s IH]; [reflexivity|].
  cbn [flat_map]. rewrite existsb_app, entity_safe, IH. reflexivity.
Qed.

(** C7.  [exportHtmlSlider] throws, and downloads nothing, unless both
    inputs start with [data:image/]; an input tagged [text/plain] is
    rejected whatever follows the tag.  For an accepted pair the document
    is the template with the two inputs spliced in entity-encoded, code
    unit by code unit, so that neither spliced stretch contains a quote,
    an apostrophe or an angle bracket. *)
Theorem exportHtmlSlider_validates_and_escapes
        (beforeDataUrl afterDataUrl : jsstring) :
  (startsWith beforeDataUrl (lit "data:image/") = false \/
   startsWith afterDataUrl (lit "data:image/") = false ->
   exportHtmlSlider html_head html_between html_tail
                    beforeDataUrl afterDataUrl
   = Throw "Invalid image data") /\
  (forall payload other,
      exportHtmlSlider html_head html_between html_tail
                       (lit "data:text/plain" ++ payload) other
      = Throw "Invalid image data" /\
      exportHtmlSlider html_head html_between html_tail
                       other (lit "data:text/plain" ++ payload)
      = Throw "Invalid image data") /\
  (startsWith beforeDataUrl (lit "data:image/") = true ->
   startsWith afterDataUrl (lit "data:image/") = true ->
   exportHtmlSlider html_head html_between html_tail
                    beforeDataUrl afterDataUrl
   = Return (Download
               (mkBlob (html_head ++ flat_map entity afterDataUrl
                                  ++ html_between
                                  ++ flat_map entity beforeDataUrl
                                  ++ html_tail)
                       "text/html")
               "before-after-slider.html") /\
   existsb markup_breaking (flat_map entity afterDataUrl) = false /\
   existsb markup_breaking (flat_map entity beforeDataUrl) = false).
Proof.
  split; [|split].
  - intros Hbad. unfold exportHtmlSlider.
    destruct Hbad as [H|H]; rewrite H; [reflexivity|].
    rewrite orb_true_r. reflexivity.
  - intros payload other. split; unfold exportHtmlSlider.
    + reflexivity.
    + change (startsWith (lit "data:text/plain" ++ payload) (lit "data:image/"))
        with false.
      rewrite orb_true_r. reflexivity.
  - intros Hb Ha. unfold exportHtmlSlider. rewrite Hb, Ha. cbn [negb orb].
    rewrite !escapeHtml_entities. split; [reflexivity|].
    rewrite <- !escapeHtml_entities. split; apply escapeHtml_safe.
Qed.

End HtmlExport.

Lemma exportHtmlSlider_validates_and_escapes_witness :
  Exporters.exportHtmlSlider (lit "<img src='") (lit "'><img src='") (lit "'>")
                             (lit "data:image/png;base64,AA'><script>")
                             (lit "data:image/png;base64,BB")
  = Return (Exporters.Download
              (Exporters.mkBlob
                 (lit "<img src='" ++ lit "data:image/png;base64,BB"
                      ++ lit "'><img src='"
                      ++ lit "data:image/png;base64,AA&#039;&gt;&lt;script&gt;"
                      ++ lit "'>")
                 "text/html")
              "before-after-slider.html").
Proof.
  destruct (exportHtmlSlider_validates_and_escapes
              (lit "<img src='") (lit "'><img src='") (lit "'>")
              (lit "data:image/png;base64,AA'><script>")
              (lit "data:image/png;base64,BB")) as (_ & _ & H).
  destruct H as (H & _ & _); [reflexivity | reflexivity |].
  rewrite H. reflexivity.
Defined.

(** ** Slider listeners *)

Section Listeners.

Import Slider.

Lemma is_kind_true (k : kind) (l : listener) :
  is_kind k l = true <-> of_kind (handler l) = k.
Proof.
  unfold is_kind. destruct (kind_eq_dec (of_kind (handler l)) k);
    split; intros; congruence.
Qed.

Lemma same_listener_iff (t : target) (ty : event_type) (cb : callback)
      (l : listener) :
  same_listener t ty cb l = true
  <-> on l = t /\ type l = ty /\ handler l = cb.
Proof.
  unfold same_listener.
  destruct (target_eq_dec (on l) t), (event_type_eq_dec (type l) ty),
    (callback_eq_dec (handler l) cb); simpl; split; intros H;
    try discriminate; try tauto; destruct H as (? & ? & ?); contradiction.
Qed.

(** The slots and counters are untouched by (un)registration. *)
Lemma add_all_slots (ls : list listener) (p : page) :
  inlineSliderCleanup (add_all ls p) = inlineSliderCleanup p /\
  fullscreenSliderCleanup (add_all ls p) = fullscreenSliderCleanup p /\
  calls (add_all ls p) = calls p /\ closed (add_all ls p) = closed p.
Proof.
  revert p. induction ls as [|l ls IH]; intros p; [repeat split|].
  change (add_all (l :: ls) p)
    with (add_all ls (addEventListener (on l) (type l) (handler l) (passive l) p)).
  destruct (IH (addEventListener (on l) (type l) (handler l) (passive l) p))
    as (H1 & H2 & H3 & H4).
  rewrite H1, H2, H3, H4.
  unfold addEventListener. destruct (existsb _ _); repeat split.
Qed.

Lemma remove_all_slots (ls : list listener) (p : page) :
  inlineSliderCleanup (remove_all ls p) = inlineSliderCleanup p /\
  fullscreenSliderCleanup (remove_all ls p) = fullscreenSliderCleanup p /\
  calls (remove_all ls p) = calls p /\ closed (remove_all ls p) = closed p.
Proof.
  revert p. induction ls as [|l ls IH]; intros p; [repeat split|].
  change (remove_all (l :: ls) p)
    with (remove_all ls (removeEventListener (on l) (type l) (handler l) p)).
  destruct (IH (removeEventListener (on l) (type l) (handler l) p))
    as (H1 & H2 & H3 & H4).
  rewrite H1, H2, H3, H4. repeat split.
Qed.

(** What survives unregistration was there before and matches none of the
    listeners unregistered. *)
Lemma remove_all_In (ls : list listener) (p : page) (l : listener) :
  In l (listeners (remove_all ls p)) ->
  In l (listeners p) /\
  forall x, In x ls ->
            ~ (on l = on x /\ type l = type x /\ handler l = handler x).
Proof.
  revert p. induction ls as [|a ls IH]; intros p Hin.
  - split; [exact Hin | intros x []].
  - change (remove_all (a :: ls) p)
      with (remove_all ls (removeEventListener (on a) (type a) (handler a) p))
      in Hin.
    apply IH in Hin. destruct Hin as [Hin Hrest].
    unfold removeEventListener in Hin. cbn [listeners with_listeners] in Hin.
    apply filter_In in Hin. destruct Hin as [Hin Hneg].
    split; [exact Hin|]. intros x [<-|Hx]; [|apply Hrest, Hx].
    intros Hsame. apply same_listener_iff in Hsame.
    rewrite Hsame in Hneg. discriminate Hneg.
Qed.

Lemma filter_none {A : Type} (f : A -> bool) (l : list A) :
  (forall x, In x l -> f x = false) -> filter f l = [].
Proof.
  induction l as [|a l IH]; intros H; [reflexivity|].
  cbn [filter]. rewrite (H a (or_introl eq_refl)).
  apply IH. intros x Hx. apply H. right. exact Hx.
Qed.

(** Unregistering a superset of a preview's listeners leaves it none. *)
Lemma remove_all_clears (k : kind) (ls : list listener) (p : page) :
  incl (listeners_of k p) ls -> listeners_of k (remove_all ls p) = [].
Proof.
  intros Hincl. unfold listeners_of. apply filter_none. intros l Hl.
  destruct (remove_all_In ls p l Hl) as [Hin Hno].
  fold (is_kind k l). destruct (is_kind k l) eqn:Hk; [exfalso|reflexivity].
  apply (Hno l); [|repeat split].
  apply Hincl. unfold listeners_of. apply filter_In. split; assumption.
Qed.

(** Unregistering listeners of one preview leaves the other's alone. *)
Lemma remove_all_other (k : kind) (ls : list listener) (p : page) :
  Forall (fun x => of_kind (handler x) <> k) ls ->
  listeners_of k (remove_all ls p) = listeners_of k p.
Proof.
  revert p. induction ls as [|a ls IH]; intros p Hall; [reflexivity|].
  inversion Hall as [|? ? Ha Hls]; subst.
  change (remove_all (a :: ls) p)
    with (remove_all ls (removeEventListener (on a) (type a) (handler a) p)).
  rewrite (IH _ Hls).
  unfold listeners_of, removeEventListener. cbn [listeners with_listeners].
  induction (listeners p) as [|l rest IHl]; [reflexivity|].
  cbn [filter]. fold (is_kind k l).
  destruct (same_listener (on a) (type a) (handler a) l) eqn:Hs; cbn [negb].
  - apply same_listener_iff in Hs. destruct Hs as (_ & _ & Hh).
    assert (Hk : is_kind k l = false).
    { destruct (is_kind k l) eqn:E; [|reflexivity].
      apply is_kind_true in E. rewrite Hh in E. contradiction. }
    rewrite Hk. exact IHl.
  - cbn [filter]. fold (is_kind k l). destruct (is_kind k l);
      [f_equal|]; exact IHl.
Qed.

(** Registering new listeners of one preview appends them to its set. *)
Lemma add_all_same (k : kind) (ls : list listener) (p : page) :
  Forall (fun x => of_kind (handler x) = k) ls ->
  NoDup (map handler ls) ->
  (forall l x, In l (listeners_of k p) -> In x ls -> handler l <> handler x) ->
  listeners_of k (add_all ls p) = listeners_of k p ++ ls.
Proof.
  revert p. induction ls as [|a ls IH]; intros p Hall Hnd Hfresh.
  - symmetry. apply app_nil_r.
  - inversion Hall as [|? ? Ha Hls]; subst.
    inversion Hnd as [|? ? Hna Hnd']; subst.
    change (add_all (a :: ls) p)
      with (add_all ls (addEventListener (on a) (type a) (handler a) (passive a) p)).
    assert (Hstep : listeners_of (of_kind (handler a))
                      (addEventListener (on a) (type a) (handler a) (passive a) p)
                    = listeners_of (of_kind (handler a)) p ++ [a]).
    { unfold addEventListener.
      destruct (existsb _ (listeners p)) eqn:Hex.
      - exfalso. apply existsb_exists in Hex. destruct Hex as (l & Hl & Hs).
        apply same_listener_iff in Hs. destruct Hs as (_ & _ & Hh).
        apply (Hfresh l a); [|left; reflexivity | exact Hh].
        unfold listeners_of. apply filter_In. split; [exact Hl|].
        apply is_kind_true. rewrite Hh. reflexivity.
      - unfold listeners_of. cbn [listeners with_listeners].
        rewrite filter_app. f_equal. cbn [filter].
        fold (is_kind (of_kind (handler a))
                      (mkListener (on a) (type a) (handler a) (passive a))).
        assert (E : is_kind (of_kind (handler a))
                            (mkListener (on a) (type a) (handler a) (passive a))
                    = true) by (apply is_kind_true; reflexivity).
        rewrite E. destruct a; reflexivity. }
    rewrite IH; [rewrite Hstep, <- app_assoc; reflexivity | exact Hls
                 | exact Hnd' |].
    intros l x Hl Hx. rewrite Hstep in Hl. apply in_app_or in Hl.
    destruct Hl as [Hl|[<-|[]]].
    + apply Hfresh; [exact Hl | right; exact Hx].
    + intros E. apply Hna. rewrite E. apply in_map. exact Hx.
Qed.

Lemma add_all_other (k : kind) (ls : list listener) (p : page) :
  Forall (fun x => of_kind (handler x) <> k) ls ->
  listeners_of k (add_all ls p) = listeners_of k p.
Proof.
  revert p. induction ls as [|a ls IH]; intros p Hall; [reflexivity|].
  inversion Hall as [|? ? Ha Hls]; subst.
  change (add_all (a :: ls) p)
    with (add_all ls (addEventListener (on a) (type a) (handler a) (passive a) p)).
  rewrite (IH _ Hls).
  unfold addEventListener. destruct (existsb _ (listeners p)); [reflexivity|].
  unfold listeners_of. cbn [listeners with_listeners].
  rewrite filter_app. cbn [filter].
  fold (is_kind k (mkListener (on a) (type a) (handler a) (passive a))).
  assert (E : is_kind k (mkListener (on a) (type a) (handler a) (passive a))
              = false).
  { destruct (is_kind k _) eqn:E; [|reflexivity].
    apply is_kind_true in E. contradiction. }
  rewrite E. apply app_nil_r.
Qed.

(** The two sets: their kinds and the distinctness of their handlers. *)
Lemma inline_set_kind (env : InlineElements * nat) :
  Forall (fun x => of_kind (handler x) = Inline) (inline_set env).
Proof. destruct env as [c call]. repeat constructor. Qed.

Lemma fullscreen_set_kind (env : FullscreenElements * nat) :
  Forall (fun x => of_kind (handler x) = Fullscreen) (fullscreen_set env).
Proof.
  destruct env as [c call]. unfold fullscreen_set.
  destruct (fs_closeBtn c); repeat constructor.
Qed.

Lemma inline_set_distinct (env : InlineElements * nat) :
  NoDup (map handler (inline_set env)).
Proof.
  destruct env as [c call]. cbn.
  repeat (constructor; [cbn; intuition discriminate|]). constructor.
Qed.

Lemma fullscreen_set_distinct (env : FullscreenElements * nat) :
  NoDup (map handler (fullscreen_set env)).
Proof.
  destruct env as [c call]. unfold fullscreen_set.
  destruct (fs_closeBtn c); cbn;
    repeat (constructor; [cbn; intuition discriminate|]); constructor.
Qed.

Lemma kind_differs (k k' : kind) (ls : list listener) :
  k <> k' ->
  Forall (fun x => of_kind (handler x) = k) ls ->
  Forall (fun x => of_kind (handler x) <> k') ls.
Proof.
  intros Hk H. eapply Forall_impl; [|exact H]. cbn. intros a Ha. congruence.
Qed.

(** The code against the sets: each initialiser registers its set, each
    cleanup unregisters it. *)
Lemma inline_cleanup_removes (env : InlineElements * nat) (p : page) :
  inline_cleanup env p = remove_all (inline_set env) p.
Proof. destruct env as [c call]. reflexivity. Qed.

Lemma fullscreen_cleanup_removes (env : FullscreenElements * nat) (p : page) :
  let q := remove_all (fullscreen_set env) p in
  fullscreen_cleanup env p
  = mkPage (listeners q) (inlineSliderCleanup q) None (calls q)
           (closed q ++ [snd env]).
Proof.
  destruct env as [c call]. unfold fullscreen_cleanup, fullscreen_set.
  destruct (fs_closeBtn c); reflexivity.
Qed.

Lemma add_all_cons (l : listener) (ls : list listener) (p : page) :
  add_all (l :: ls) p
  = add_all ls (addEventListener (on l) (type l) (handler l) (passive l) p).
Proof. reflexivity. Qed.

Lemma add_all_nil (p : page) : add_all [] p = p.
Proof. reflexivity. Qed.

Lemma initInlineSlider_registers (c : InlineElements) (p : page) :
  let p1 := teardown_inline p in
  let p2 := add_all (inline_set (c, calls p1)) p1 in
  initInlineSlider c p
  = mkPage (listeners p2) (Some (c, calls p1)) (fullscreenSliderCleanup p2)
           (S (calls p2)) (closed p2).
Proof.
  unfold initInlineSlider, inline_set. cbv zeta.
  rewrite !add_all_cons, add_all_nil. cbn [on type handler passive].
  reflexivity.
Qed.

Lemma initFullscreenSlider_registers (c : FullscreenElements) (p : page) :
  let p1 := teardown_fullscreen p in
  let p2 := add_all (fullscreen_set (c, calls p1)) p1 in
  initFullscreenSlider c p
  = mkPage (listeners p2) (inlineSliderCleanup p2) (Some (c, calls p1))
           (S (calls p2)) (closed p2).
Proof.
  unfold initFullscreenSlider, fullscreen_set. cbv zeta.
  destruct (fs_closeBtn c); cbn [app];
    rewrite !add_all_cons, add_all_nil; cbn [on type handler passive];
    reflexivity.
Qed.

Lemma teardown_inline_spec (p : page) :
  consistent p ->
  listeners_of Inline (teardown_inline p) = [] /\
  listeners_of Fullscreen (teardown_inline p) = listeners_of Fullscreen p /\
  inlineSliderCleanup (teardown_inline p) = None /\
  fullscreenSliderCleanup (teardown_inline p) = fullscreenSliderCleanup p.
Proof.
  intros [Hi Hf]. unfold teardown_inline. unfold active_set in Hi.
  destruct (inlineSliderCleanup p) as [env|] eqn:E;
    [|repeat split; [exact Hi | exact E]].
  rewrite inline_cleanup_removes.
  destruct (remove_all_slots (inline_set env) p) as (_ & Hs & _ & _).
  split; [|split; [|split; [reflexivity | exact Hs]]].
  - apply (remove_all_clears Inline (inline_set env) p).
    rewrite Hi. apply incl_refl.
  - apply (remove_all_other Fullscreen (inline_set env) p).
    apply (kind_differs Inline); [discriminate | apply inline_set_kind].
Qed.

Lemma teardown_fullscreen_spec (p : page) :
  consistent p ->
  listeners_of Fullscreen (teardown_fullscreen p) = [] /\
  listeners_of Inline (teardown_fullscreen p) = listeners_of Inline p /\
  fullscreenSliderCleanup (teardown_fullscreen p) = None /\
  inlineSliderCleanup (teardown_fullscreen p) = inlineSliderCleanup p.
Proof.
  intros [Hi Hf]. unfold teardown_fullscreen. unfold active_set in Hf.
  destruct (fullscreenSliderCleanup p) as [env|] eqn:E;
    [|repeat split; [exact Hf | exact E]].
  rewrite fullscreen_cleanup_removes. cbv zeta.
  destruct (remove_all_slots (fullscreen_set env) p) as (Hs & _ & _ & _).
  split; [|split; [|split; [reflexivity | exact Hs]]].
  - apply (remove_all_clears Fullscreen (fullscreen_set env) p).
    rewrite Hf. apply incl_refl.
  - apply (remove_all_other Inline (fullscreen_set env) p).
    apply (kind_differs Fullscreen); [discriminate | apply fullscreen_set_kind].
Qed.

Lemma listeners_of_page (k : kind) (ls : list listener)
      (i : option (InlineElements * nat)) (f : option (FullscreenElements * nat))
      (n : nat) (cl : list nat) (q : page) :
  ls = listeners q -> listeners_of k (mkPage ls i f n cl) = listeners_of k q.
Proof. intros ->. reflexivity. Qed.

Lemma initInlineSlider_consistent (c : InlineElements) (p : page) :
  consistent p -> consistent (initInlineSlider c p).
Proof.
  intros Hp. destruct (teardown_inline_spec p Hp) as (H0 & Hf & Hn & Hs).
  rewrite initInlineSlider_registers. cbv zeta.
  set (p1 := teardown_inline p) in *.
  set (ls := inline_set (c, calls p1)).
  destruct (add_all_slots ls p1) as (_ & Hs2 & _ & _).
  set (p2 := add_all ls p1) in *.
  split; rewrite (listeners_of_page _ _ _ _ _ _ p2 eq_refl);
    unfold active_set;
    cbn [inlineSliderCleanup fullscreenSliderCleanup].
  - unfold p2. rewrite add_all_same, H0;
      [reflexivity | apply inline_set_kind | apply inline_set_distinct |].
    rewrite H0. intros l x [].
  - unfold p2 at 1. rewrite add_all_other
      by (apply (kind_differs Inline); [discriminate | apply inline_set_kind]).
    rewrite Hf, Hs2, Hs. apply Hp.
Qed.

Lemma initFullscreenSlider_consistent (c : FullscreenElements) (p : page) :
  consistent p -> consistent (initFullscreenSlider c p).
Proof.
  intros Hp. destruct (teardown_fullscreen_spec p Hp) as (H0 & Hi & Hn & Hs).
  rewrite initFullscreenSlider_registers. cbv zeta.
  set (p1 := teardown_fullscreen p) in *.
  set (ls := fullscreen_set (c, calls p1)).
  destruct (add_all_slots ls p1) as (Hs2 & _ & _ & _).
  set (p2 := add_all ls p1) in *.
  split; rewrite (listeners_of_page _ _ _ _ _ _ p2 eq_refl);
    unfold active_set;
    cbn [inlineSliderCleanup fullscreenSliderCleanup].
  - unfold p2 at 1. rewrite add_all_other
      by (apply (kind_differs Fullscreen);
          [discriminate | apply fullscreen_set_kind]).
    rewrite Hi, Hs2, Hs. apply Hp.
  - unfold p2. rewrite add_all_same, H0;
      [reflexivity | apply fullscreen_set_kind
       | apply fullscreen_set_distinct |].
    rewrite H0. intros l x [].
Qed.

Lemma perform_consistent (p : page) (a : action) :
  consistent p -> consistent (perform p a).
Proof.
  intros Hp. destruct a as [c| |c|]; cbn [perform].
  - apply initInlineSlider_consistent, Hp.
  - destruct (teardown_inline_spec p Hp) as (H0 & Hf & Hn & Hs).
    unfold destroyInlineSlider. split.
    + rewrite H0. unfold active_set. rewrite Hn. reflexivity.
    + rewrite Hf. unfold active_set. rewrite Hs. apply Hp.
  - apply initFullscreenSlider_consistent, Hp.
  - destruct (teardown_fullscreen_spec p Hp) as (H0 & Hi & Hn & Hs).
    unfold destroyFullscreenSlider. split.
    + rewrite Hi. unfold active_set. rewrite Hs. apply Hp.
    + rewrite H0. unfold active_set. rewrite Hn. reflexivity.
Qed.

Lemma run_consistent (script : list action) : consistent (run script).
Proof.
  unfold run.
  assert (H : forall p, consistent p -> consistent (fold_left perform script p)).
  { induction script as [|a script IH]; intros p Hp; [exact Hp|].
    cbn [fold_left]. apply IH, perform_consistent, Hp. }
  apply H. split; reflexivity.
Qed.

Lemma active_set_call (k : kind) (p : page) (l1 l2 : listener) :
  In l1 (active_set k p) -> In l2 (active_set k p) ->
  of_call (handler l1) = of_call (handler l2).
Proof.
  assert (Hi : forall env l, In l (inline_set env) ->
                             of_call (handler l) = snd env).
  { intros [c call] l Hl. cbn in Hl.
    repeat (destruct Hl as [<-|Hl]; [reflexivity|]). destruct Hl. }
  assert (Hf : forall env l, In l (fullscreen_set env) ->
                             of_call (handler l) = snd env).
  { intros [c call] l Hl. unfold fullscreen_set in Hl.
    destruct (fs_closeBtn c); cbn in Hl;
      repeat (destruct Hl as [<-|Hl]; [reflexivity|]); destruct Hl. }
  unfold active_set. destruct k.
  - destruct (inlineSliderCleanup p) as [env|]; [|intros []].
    intros H1 H2. rewrite (Hi env l1 H1), (Hi env l2 H2). reflexivity.
  - destruct (fullscreenSliderCleanup p) as [env|]; [|intros []].
    intros H1 H2. rewrite (Hf env l1 H1), (Hf env l2 H2). reflexivity.
Qed.

(** C9.  After any sequence of slider initialisations and destructions,
    the listeners registered for a preview are exactly those of the latest
    initialisation still in place (none after a destruction), so all of
    them stem from one call; a preview never has more than one set, of
    10 (inline) or 12 (fullscreen) listeners at most.  The cleanup step
    that opens the next initialisation of a preview leaves that preview
    without any listener before the new ones are attached, and the new
    initialisation then holds exactly its own set. *)
Theorem reinit_removes_previous_listeners (script : list action) :
  let p := run script in
  (forall k, listeners_of k p = active_set k p) /\
  (forall l1 l2,
      In l1 (listeners p) -> In l2 (listeners p) ->
      of_kind (handler l1) = of_kind (handler l2) ->
      of_call (handler l1) = of_call (handler l2)) /\
  (List.length (listeners_of Inline p) <= 10)%nat /\
  (List.length (listeners_of Fullscreen p) <= 12)%nat /\
  listeners_of Inline (teardown_inline p) = [] /\
  listeners_of Fullscreen (teardown_fullscreen p) = [] /\
  (forall c, listeners_of Inline (initInlineSlider c p)
             = inline_set (c, calls p)) /\
  (forall c, listeners_of Fullscreen (initFullscreenSlider c p)
             = fullscreen_set (c, calls p)).
Proof.
  intros p. pose proof (run_consistent script) as Hp. fold p in Hp.
  assert (Hk : forall k, listeners_of k p = active_set k p)
    by (intros [|]; apply Hp).
  split; [exact Hk|]. split; [|split; [|split; [|split; [|split; [|split]]]]].
  - intros l1 l2 H1 H2 Hsame.
    apply (active_set_call (of_kind (handler l1)) p); rewrite <- Hk;
      unfold listeners_of; apply filter_In; (split; [assumption|]);
      apply is_kind_true; congruence.
  - rewrite Hk. unfold active_set.
    destruct (inlineSliderCleanup p) as [[c call]|]; cbn; lia.
  - rewrite Hk. unfold active_set.
    destruct (fullscreenSliderCleanup p) as [[c call]|]; [|cbn; lia].
    unfold fullscreen_set. destruct (fs_closeBtn c); cbn; lia.
  - apply (teardown_inline_spec p Hp).
  - apply (teardown_fullscreen_spec p Hp).
  - intros c.
    pose proof (perform_consistent p (InitInline c) Hp) as [Hi _].
    cbn [perform] in Hi. rewrite Hi. rewrite initInlineSlider_registers.
    cbv zeta. unfold active_set. cbn [inlineSliderCleanup].
    f_equal. f_equal. unfold teardown_inline.
    destruct (inlineSliderCleanup p) as [env|]; [|reflexivity].
    rewrite inline_cleanup_removes.
    apply (remove_all_slots (inline_set env) p).
  - intros c.
    pose proof (perform_consistent p (InitFullscreen c) Hp) as [_ Hf].
    cbn [perform] in Hf. rewrite Hf. rewrite initFullscreenSlider_registers.
    cbv zeta. unfold active_set. cbn [fullscreenSliderCleanup].
    f_equal. f_equal. unfold teardown_fullscreen.
    destruct (fullscreenSliderCleanup p) as [env|]; [|reflexivity].
    rewrite fullscreen_cleanup_removes. cbv zeta.
    apply (remove_all_slots (fullscreen_set env) p).
Qed.

End Listeners.

(** ** More on the side-by-side canvas: watermark and date labels *)

Section SideBySideLabels.

Import SideBySide.
Open Scope Z_scope.

Variable measureText : font -> jsstring -> Q.
Variable formatDate : Date -> jsstring.

(** X1.  A watermark of white space only changes nothing at all: the canvas,
    command for command, and the encoding quality are those of a call
    without watermark. *)
Theorem blank_watermark_draws_nothing
        (beforeImg afterImg : Image) (q : option Q) (text : jsstring)
        (bd ad : option Date) (sd : option bool) :
  forallb is_white_space text = true ->
  compose measureText formatDate beforeImg afterImg
          (mkOptions q (Some text) bd ad sd)
  = compose measureText formatDate beforeImg afterImg
            (mkOptions q None bd ad sd).
Proof.
  intros Hws.
  assert (Ht : truthy (trim text) = false)
    by (rewrite truthy_trim, Hws; reflexivity).
  unfold compose, watermark_strip.
  cbn [default SideBySide.watermark SideBySide.quality SideBySide.beforeDate
       SideBySide.afterDate SideBySide.showDates].
  rewrite Ht. reflexivity.
Qed.

(** X2.  A visible watermark adds nine commands behind the nineteen of the
    plain picture: a bar that covers exactly the added strip, from the
    bottom of the images to the bottom of the canvas over its whole width;
    the trimmed text, at a font size of at least 19, centred on the centre
    of that strip; and the reset of the text alignment. *)
Theorem watermark_strip_layout
        (beforeImg afterImg : Image) (options : SideBySideOptions) :
  let text := default [] (watermark options) in
  let c := fst (compose measureText formatDate beforeImg afterImg options) in
  let h := Z.max (height beforeImg) (height afterImg) in
  trim text <> [] ->
  exists (size : Z) (x y strip : Q),
    skipn 19 (ops c)
    = [ SetFillStyle "rgba(0,0,0,0.85)";
        FillRect 0 (inject_Z h) (inject_Z (cwidth c)) strip;
        SetFont (mkFont false size "Arial, sans-serif");
        SetFillStyle "rgba(255,255,255,0.9)";
        SetTextAlign "center";
        SetTextBaseline "middle";
        FillText (trim text) x y;
        SetTextAlign "start";
        SetTextBaseline "alphabetic" ] /\
    (inject_Z h + strip == inject_Z (cheight c))%Q /\
    (x + x == inject_Z (cwidth c))%Q /\
    (y + y == inject_Z h + inject_Z (cheight c))%Q /\
    19 <= size.
Proof.
  intros text c h Hne.
  assert (Ht : truthy (trim text) = true)
    by (destruct (trim text); [contradiction | reflexivity]).
  unfold c, compose, watermark_strip. fold text. rewrite Ht.
  cbn [fst ops cwidth cheight app skipn]. unfold Math_max. fold h.
  eexists _, _, _, _. split; [reflexivity|].
  split; [rewrite inject_Z_plus; reflexivity|].
  split; [field|]. split; [rewrite inject_Z_plus; field|].
  rewrite floor_four_percent.
  assert (H36 : 36 <= Z.max 36 (4 * h / 100)) by lia.
  revert H36. generalize (Z.max 36 (4 * h / 100)). intros W HW.
  assert (Hf : 19 <= Math_floor (inject_Z W * 0.55)).
  { unfold Math_floor, Qfloor, Qmult, inject_Z. cbn [Qnum Qden].
    change (Z.pos (1 * 100)) with 100. apply Z.div_le_lower_bound; lia. }
  lia.
Qed.

(** X3.  The labels: each side reads its plain caption, followed by a bullet
    and the formatted date exactly when dates are shown ([showDates] left
    out or true) and that side's date is given.  A missing date drops the
    suffix of its own side only; [showDates = false] drops both. *)
Theorem label_date_suffix
        (beforeImg afterImg : Image) (options : SideBySideOptions) :
  let c := fst (compose measureText formatDate beforeImg afterImg options) in
  let shown := default true (showDates options) in
  let suffix := fun d : option Date =>
                  match d with
                  | Some t => if shown then [32; 8226; 32] ++ formatDate t else []
                  | None => []
                  end in
  exists bx by_ ax ay : Q,
    nth_error (ops c) 12
    = Some (FillText (lit "BEFORE" ++ suffix (beforeDate options)) bx by_) /\
    nth_error (ops c) 18
    = Some (FillText (lit "AFTER" ++ suffix (afterDate options)) ax ay) /\
    (by_ == ay)%Q.
Proof.
  intros c shown suffix. unfold c, compose. fold shown.
  cbn [fst ops app nth_error].
  eexists _, _, _, _.
  split; [|split; [|reflexivity]]; f_equal; f_equal; unfold suffix;
    destruct shown; [destruct (beforeDate options) | destruct (beforeDate options)
                     | destruct (afterDate options) | destruct (afterDate options)];
    try reflexivity; rewrite ?app_nil_r; reflexivity.
Qed.

End SideBySideLabels.

Lemma blank_watermark_draws_nothing_witness :
  SideBySide.compose (fun _ _ => 0%Q) (fun _ => []) (mkImage [] 800 600)
                     (mkImage [] 400 600)
                     (SideBySide.mkOptions None (Some [32; 9; 160]%Z) None None None)
  = SideBySide.compose (fun _ _ => 0%Q) (fun _ => []) (mkImage [] 800 600)
                       (mkImage [] 400 600) SideBySide.no_options.
Proof.
  apply (blank_watermark_draws_nothing (fun _ _ => 0%Q) (fun _ => [])).
  reflexivity.
Defined.

Lemma watermark_strip_layout_witness :
  exists size : Z,
    (19 <= size)%Z /\
    nth_error (ops (fst (SideBySide.compose
                           (fun _ _ => 0%Q) (fun _ => []) (mkImage [] 800 600)
                           (mkImage [] 400 600)
                           (SideBySide.mkOptions None (Some (lit " Acme "))
                                                 None None None)))) 21
    = Some (SetFont (mkFont false size "Arial, sans-serif")).
Proof.
  destruct (watermark_strip_layout (fun _ _ => 0%Q) (fun _ => [])
              (mkImage [] 800 600) (mkImage [] 400 600)
              (SideBySide.mkOptions None (Some (lit " Acme ")) None None None))
    as (size & x & y & strip & Hops & _ & _ & _ & Hsize); [discriminate|].
  exists size. split; [exact Hsize|].
  change 21%nat with (19 + 2)%nat. rewrite <- nth_error_skipn, Hops.
  reflexivity.
Defined.

(** ** More on [resizeImage] *)

Section ResizeMore.

Import SideBySide.
Open Scope Q_scope.

Variable encode : canvas -> string -> Q -> jsstring.
Variable loadImg : jsstring -> completion Image.

Lemma Math_round_near (x : Q) :
  x - (1 # 2) < inject_Z (Math_round x) /\ inject_Z (Math_round x) <= x + (1 # 2).
Proof.
  unfold Math_round. split.
  - pose proof (Qlt_floor (x + (1 # 2))) as H.
    rewrite inject_Z_plus in H. change (inject_Z 1) with 1 in H. lra.
  - apply Qfloor_le.
Qed.

Lemma resize_ratio (img : Image) (m : Z) :
  (0 < m)%Z -> (0 < width img)%Z -> (0 < height img)%Z ->
  (m < width img)%Z \/ (m < height img)%Z ->
  let r := Qmin (inject_Z m / inject_Z (width img))
                (inject_Z m / inject_Z (height img)) in
  0 < r /\ r < 1 /\
  cwidth (resized_canvas img m) = Math_round (inject_Z (width img) * r) /\
  cheight (resized_canvas img m) = Math_round (inject_Z (height img) * r).
Proof.
  intros Hm Hw Hh Hbig r.
  pose proof (inject_Z_pos _ Hm) as Hm'.
  pose proof (inject_Z_pos _ Hw) as Hw'.
  pose proof (inject_Z_pos _ Hh) as Hh'.
  assert (Hpw : 0 < inject_Z m / inject_Z (width img))
    by (apply Qlt_shift_div_l; [exact Hw' | lra]).
  assert (Hph : 0 < inject_Z m / inject_Z (height img))
    by (apply Qlt_shift_div_l; [exact Hh' | lra]).
  split; [|split; [|split; reflexivity]].
  - unfold r. apply Q.min_glb_lt; assumption.
  - unfold r. destruct Hbig as [H|H].
    + apply Qle_lt_trans with (inject_Z m / inject_Z (width img));
        [apply Q.le_min_l|].
      apply Qlt_shift_div_r; [exact Hw'|]. rewrite Qmult_1_l.
      rewrite <- Zlt_Qlt. exact H.
    + apply Qle_lt_trans with (inject_Z m / inject_Z (height img));
        [apply Q.le_min_r|].
      apply Qlt_shift_div_r; [exact Hh'|]. rewrite Qmult_1_l.
      rewrite <- Zlt_Qlt. exact H.
Qed.




End ResizeMore.




(** ** More on the animated export: easing, clipping, canvas state, yields *)

Section Easing.

Import Gif.
Open Scope Q_scope.

Lemma JS_lt_spec (a b : Q) : JS.lt a b = true <-> a < b.
Proof.
  unfold JS.lt. rewrite Qlt_alt. destruct (a ?= b); split; intros H;
    try reflexivity; discriminate H.
Qed.

Lemma JS_lt_false (a b : Q) : JS.lt a b = false <-> b <= a.
Proof.
  split; intros H.
  - apply Qnot_lt_le. intros Hlt. apply JS_lt_spec in Hlt. congruence.
  - destruct (JS.lt a b) eqn:E; [|reflexivity].
    apply JS_lt_spec in E. exfalso. apply (Qlt_irrefl a).
    eapply Qlt_le_trans; eassumption.
Qed.

Lemma eased_low (t : Q) : t < 1 # 2 -> eased t == 2 * t * t.
Proof.
  intros H. unfold eased.
  assert (E : JS.lt t 0.5 = true) by (apply JS_lt_spec; lra).
  rewrite E. reflexivity.
Qed.

Lemma eased_high (t : Q) :
  1 # 2 <= t -> eased t == 1 - (1 # 2) * ((2 - 2 * t) * (2 - 2 * t)).
Proof.
  intros H. unfold eased, Math_pow2.
  assert (E : JS.lt t 0.5 = false) by (apply JS_lt_false; lra).
  rewrite E. field.
Qed.

Lemma Qsquare_le (a b : Q) : 0 <= a -> a <= b -> a * a <= b * b.
Proof.
  intros Ha Hab.
  assert (H : 0 <= (b - a) * (b + a)) by (apply Qmult_le_0_compat; lra).
  lra.
Qed.


End Easing.


Section FrameDrawing.

Import Gif Drawing.
Open Scope Q_scope.

Variable measureText : font -> jsstring -> Q.
Variable getImageData : list op -> Z -> Z -> bytes.
Variable quantize : bytes -> Z -> palette.
Variable applyPalette : bytes -> palette -> bytes.


Lemma bracketed_app (d : nat) (a b : list op) :
  bracketed d (a ++ b)
  = match bracketed d a with
    | Some d' => bracketed d' b
    | None => None
    end.
Proof.
  revert d. induction a as [|o a IH]; intros d; [reflexivity|].
  destruct o; cbn [app bracketed]; try apply IH; destruct d; try reflexivity;
    apply IH.
Qed.

Lemma renderSliderFrame_bracketed
      (beforeImg afterImg : Image) (w h : Z) (pct : Q) (d : nat) :
  bracketed d (renderSliderFrame measureText beforeImg afterImg w h pct)
  = Some d.
Proof.
  unfold renderSliderFrame.
  destruct (Math_round (fmul (inject_Z w) pct) >? 0)%Z;
    destruct ((Math_round (fmul (inject_Z w) pct) >? 2)
              && (Math_round (fmul (inject_Z w) pct) <? w - 2))%Z;
    reflexivity.
Qed.

(** X9.  Every frame leaves the drawing state as it found it: each [save] is
    closed by its [restore], no [restore] comes without a [save], and the
    clip is only ever set between the two.  So on the one canvas that all
    frames share, the clip of a frame never reaches the labels or any
    later frame. *)
Theorem frames_restore_canvas_state
        (beforeImg afterImg : Image) (w h : Z) (pct : Q) (k : nat) :
  bracketed 0 (renderSliderFrame measureText beforeImg afterImg w h pct)
  = Some 0%nat /\
  bracketed 0 (canvas_after measureText beforeImg afterImg k) = Some 0%nat.
Proof.
  split; [apply renderSliderFrame_bracketed|].
  unfold canvas_after. destruct (working_size beforeImg afterImg) as [w' h'].
  rewrite bracketed_app. cbn [bracketed].
  induction (firstn (S k) frames) as [|fr rest IH]; [reflexivity|].
  cbn [flat_map]. rewrite bracketed_app, renderSliderFrame_bracketed.
  exact IH.
Qed.

Lemma yields_after_write (index : bytes) (w h delay : Z) (pal : option palette)
      (rest : list event) :
  hd_error rest <> Some Yield ->
  yields_after (WriteFrame index w h delay pal :: rest)
  = false :: yields_after rest.
Proof.
  intros H. destruct rest as [|e rest]; [reflexivity|].
  destruct e; try reflexivity. exfalso. apply H. reflexivity.
Qed.

Lemma encode_frames_yields (beforeImg afterImg : Image) (w h : Z) (pal : palette) :
  forall (fs : list Frame) (f : Z) (drawn : list op)
         (calls tail : list event),
    hd_error tail <> Some Yield ->
    exists new : list event,
      snd (encode_frames measureText getImageData applyPalette
                         beforeImg afterImg w h pal f fs (drawn, calls))
      = calls ++ new /\
      hd_error (new ++ tail) <> Some Yield /\
      yields_after (new ++ tail)
      = map (fun k => ((f + Z.of_nat k) mod 5 =? 0)%Z)
            (seq 0 (List.length fs))
          ++ yields_after tail.
Proof.
  induction fs as [|fr rest IH]; intros f drawn calls tail Htail.
  - exists []. cbn. rewrite app_nil_r. repeat split. exact Htail.
  - cbn [encode_frames].
    set (drawn' := drawn ++ _). set (rgba := getImageData drawn' w h).
    destruct (IH (f + 1)%Z drawn'
                 (calls ++ frame_calls applyPalette rgba w h pal f fr)
                 tail Htail) as (new & He & Hh & Hy).
    exists (frame_calls applyPalette rgba w h pal f fr ++ new).
    assert (Hstate : (if (f mod 5 =? 0)%Z
                      then push (push (push calls (ApplyPalette rgba pal))
                                      (WriteFrame (applyPalette rgba pal) w h
                                                  (delay fr)
                                                  (if (f =? 0)%Z then Some pal
                                                   else None)))
                                Yield
                      else push (push calls (ApplyPalette rgba pal))
                                (WriteFrame (applyPalette rgba pal) w h
                                            (delay fr)
                                            (if (f =? 0)%Z then Some pal
                                             else None)))
                     = calls ++ frame_calls applyPalette rgba w h pal f fr).
    { unfold push, frame_calls. destruct (f mod 5 =? 0)%Z;
        rewrite <- ?app_assoc; [|rewrite app_nil_r]; reflexivity. }
    rewrite Hstate, He. split; [rewrite <- app_assoc; reflexivity|].
    split; [unfold frame_calls; cbn; discriminate|].
    cbn [List.length seq map]. rewrite <- seq_shift, map_map.
    rewrite Z.add_0_r.
    replace (map (fun k => ((f + Z.of_nat (S k)) mod 5 =? 0)%Z)
                 (seq 0 (List.length rest)))
      with (map (fun k => ((f + 1 + Z.of_nat k) mod 5 =? 0)%Z)
                (seq 0 (List.length rest)))
      by (apply map_ext; intros k; f_equal; f_equal; lia).
    cbn [app]. rewrite <- Hy. rewrite <- app_assoc.
    unfold frame_calls. destruct (f mod 5 =? 0)%Z; cbn [app].
    + reflexivity.
    + change (yields_after (ApplyPalette rgba pal
                              :: WriteFrame (applyPalette rgba pal) w h (delay fr)
                                            (if (f =? 0)%Z then Some pal else None)
                              :: new ++ tail))
        with (yields_after (WriteFrame (applyPalette rgba pal) w h (delay fr)
                                       (if (f =? 0)%Z then Some pal else None)
                              :: new ++ tail)).
      apply yields_after_write. exact Hh.
Qed.

(** X10.  An export that passes its first read-back (a working size
    without a zero side) hands control back to the event loop right
    after frames 0, 5, 10, 15, 20 and 25 and after no other: never more
    than five frames are written between two yields. *)
Theorem encoder_yields_every_five_frames (beforeImg afterImg : Image) :
  fst (working_size beforeImg afterImg) <> 0%Z ->
  snd (working_size beforeImg afterImg) <> 0%Z ->
  exists calls : list event,
    encode_gif measureText getImageData quantize applyPalette
               beforeImg afterImg
    = Return calls /\
    yields_after calls = map (fun k => Nat.eqb (k mod 5) 0) (seq 0 28).
Proof.
  unfold encode_gif. destruct (working_size beforeImg afterImg) as [w h].
  cbn [fst snd]. intros Hw Hh.
  assert (E : ((w =? 0) || (h =? 0))%Z = false).
  { apply orb_false_iff. split; apply Z.eqb_neq; assumption. }
  rewrite E.
  set (drawn := push _ _). set (samples := palette_samples _ _ _ _).
  set (pal := quantize samples 256).
  destruct (encode_frames_yields beforeImg afterImg w h pal frames 0
                                 drawn [Quantize samples 256] [Finish])
    as (new & He & _ & Hy); [discriminate|].
  destruct (encode_frames measureText getImageData applyPalette
                          beforeImg afterImg w h pal 0 frames
                          (drawn, [Quantize samples 256])) as [d calls].
  cbn [snd] in He. rewrite He. unfold push.
  eexists. split; [reflexivity|].
  rewrite <- app_assoc. cbn [app yields_after]. rewrite Hy.
  cbn [yields_after]. rewrite app_nil_r. reflexivity.
Qed.

End FrameDrawing.

Lemma encoder_yields_every_five_frames_witness :
  exists calls : list Gif.event,
    Gif.encode_gif (fun _ _ => 40%Q) (fun _ _ _ => []) (fun _ _ => [])
                   (fun _ _ => []) (mkImage [] 640 480) (mkImage [] 640 480)
    = Return calls /\
    Drawing.yields_after calls
    = map (fun k => Nat.eqb (k mod 5) 0) (seq 0 28).
Proof.
  apply (encoder_yields_every_five_frames
           (fun _ _ => 40%Q) (fun _ _ _ => []) (fun _ _ => [])
           (fun _ _ => []) (mkImage [] 640 480) (mkImage [] 640 480));
    vm_compute; discriminate.
Defined.


(** ** More on [escapeHtml] *)

Section Escaping.

Import Exporters.
Open Scope Z_scope.

Lemma entity_plain (c : Z) : markup_breaking c = false -> c <> amp -> entity c = [c].
Proof.
  unfold markup_breaking, entity. intros Hm Ha.
  apply orb_false_iff in Hm. destruct Hm as [Hm H4].
  apply orb_false_iff in Hm. destruct Hm as [Hm H3].
  apply orb_false_iff in Hm. destruct Hm as [H1 H2].
  apply Z.eqb_neq in Ha. rewrite Ha, H1, H2, H3, H4. reflexivity.
Qed.

(** X11.  Text without ampersand, angle bracket, quote or apostrophe, such as
    a base64 data URL, passes through [escapeHtml] unchanged: the exported
    page embeds such image data byte for byte. *)
Theorem escapeHtml_keeps_plain_text (s : jsstring) :
  existsb markup_breaking s = false -> ~ In amp s -> escapeHtml s = s.
Proof.
  rewrite escapeHtml_entities.
  induction s as [|c s IH]; intros Hm Ha; [reflexivity|].
  cbn [existsb] in Hm. apply orb_false_iff in Hm. destruct Hm as [Hc Hs].
  cbn [flat_map]. rewrite entity_plain, IH; try assumption.
  - reflexivity.
  - intros Hin. apply Ha. right. exact Hin.
  - intros E. apply Ha. left. rewrite E. reflexivity.
Qed.

Lemma entity_head (c : Z) :
  (entity c = [c] /\ c <> amp) \/
  (exists rest, entity c = amp :: rest /\ rest <> []).
Proof.
  unfold entity, amp, lt_sign, gt_sign, quot, apos.
  destruct (c =? 38) eqn:E1; [right; eexists; split; [reflexivity|discriminate]|].
  destruct (c =? 60) eqn:E2; [right; eexists; split; [reflexivity|discriminate]|].
  destruct (c =? 62) eqn:E3; [right; eexists; split; [reflexivity|discriminate]|].
  destruct (c =? 34) eqn:E4; [right; eexists; split; [reflexivity|discriminate]|].
  destruct (c =? 39) eqn:E5; [right; eexists; split; [reflexivity|discriminate]|].
  left. split; [reflexivity | apply Z.eqb_neq; exact E1].
Qed.

Lemma entity_cases (c : Z) :
  (c = 38 /\ entity c = lit "&amp;") \/
  (c = 60 /\ entity c = lit "&lt;") \/
  (c = 62 /\ entity c = lit "&gt;") \/
  (c = 34 /\ entity c = lit "&quot;") \/
  (c = 39 /\ entity c = lit "&#039;") \/
  (c <> 38 /\ entity c = [c]).
Proof.
  unfold entity, amp, lt_sign, gt_sign, quot, apos.
  destruct (c =? 38) eqn:E1; [apply Z.eqb_eq in E1; tauto|].
  destruct (c =? 60) eqn:E2; [apply Z.eqb_eq in E2; tauto|].
  destruct (c =? 62) eqn:E3; [apply Z.eqb_eq in E3; tauto|].
  destruct (c =? 34) eqn:E4; [apply Z.eqb_eq in E4; tauto|].
  destruct (c =? 39) eqn:E5; [apply Z.eqb_eq in E5; tauto|].
  apply Z.eqb_neq in E1. tauto.
Qed.

(** Two code units whose encodings start the same encoded text are the
    same code unit, and what follows their encodings is the same too. *)
Lemma entity_prefix_free (c d : Z) (u v : jsstring) :
  entity c ++ u = entity d ++ v -> c = d /\ u = v.
Proof.
  destruct (entity_cases c) as [[Hc ->]|[[Hc ->]|[[Hc ->]|[[Hc ->]|[[Hc ->]|[Hc ->]]]]]];
    destruct (entity_cases d) as [[Hd ->]|[[Hd ->]|[[Hd ->]|[[Hd ->]|[[Hd ->]|[Hd ->]]]]]];
    cbn; intros H; inversion H; subst;
    solve [ split; reflexivity | discriminate | congruence
          | exfalso; apply Hc; reflexivity | exfalso; apply Hd; reflexivity ].
Qed.

(** X12.  [escapeHtml] loses nothing: different texts have different
    encodings. *)
Theorem escapeHtml_injective (s t : jsstring) :
  escapeHtml s = escapeHtml t -> s = t.
Proof.
  rewrite !escapeHtml_entities. revert t.
  induction s as [|c s IH]; intros [|d t] H.
  - reflexivity.
  - exfalso. cbn [flat_map] in H.
    destruct (entity_head d) as [[E _]|(r & E & _)]; rewrite E in H;
      discriminate H.
  - exfalso. cbn [flat_map] in H.
    destruct (entity_head c) as [[E _]|(r & E & _)]; rewrite E in H;
      discriminate H.
  - cbn [flat_map] in H. apply entity_prefix_free in H.
    destruct H as [-> H]. f_equal. apply IH, H.
Qed.

End Escaping.

Lemma escapeHtml_keeps_plain_text_witness :
  Exporters.escapeHtml (lit "data:image/jpeg;base64,/9j/4AAQSkZJRg==")
  = lit "data:image/jpeg;base64,/9j/4AAQSkZJRg==".
Proof.
  apply escapeHtml_keeps_plain_text.
  - reflexivity.
  - vm_compute. intuition discriminate.
Defined.

Lemma escapeHtml_injective_witness : lit "a&b" = lit "a&b".
Proof.
  apply (escapeHtml_injective (lit "a&b") (lit "a&b")). reflexivity.
Defined.

(** ** Saving: [dataUrlToBlob] and [saveImage] *)

Section Saving.

Import Save.
Open Scope Z_scope.

Variable atob : jsstring -> completion jsstring.

Lemma split_whole (sep : Z) (s : jsstring) : ~ In sep s -> split sep s = [s].
Proof.
  induction s as [|c s IH]; intros H; [reflexivity|].
  cbn [split].
  assert (E : (c =? sep) = false)
    by (apply Z.eqb_neq; intros ->; apply H; left; reflexivity).
  rewrite E, IH; [reflexivity|]. intros Hin. apply H. right. exact Hin.
Qed.

Lemma split_first (sep : Z) (a b : jsstring) :
  ~ In sep a -> split sep (a ++ sep :: b) = a :: split sep b.
Proof.
  induction a as [|c a IH]; intros H.
  - cbn [app split]. rewrite Z.eqb_refl. reflexivity.
  - cbn [app split].
    assert (E : (c =? sep) = false)
      by (apply Z.eqb_neq; intros ->; apply H; left; reflexivity).
    rewrite E, IH; [reflexivity|]. intros Hin. apply H. right. exact Hin.
Qed.

Lemma lazy_to_semicolon_stops (group rest : jsstring) :
  ~ In semicolon group ->
  forallb (fun c => negb (is_line_terminator c)) group = true ->
  lazy_to_semicolon (group ++ semicolon :: rest) = Some group.
Proof.
  induction group as [|c g IH]; intros Hs Hl.
  - reflexivity.
  - cbn [app lazy_to_semicolon]. cbn [forallb] in Hl.
    apply andb_true_iff in Hl. destruct Hl as [Hc Hl].
    assert (E : (c =? semicolon) = false)
      by (apply Z.eqb_neq; intros ->; apply Hs; left; reflexivity).
    rewrite E. apply negb_true_iff in Hc. rewrite Hc.
    rewrite IH; [reflexivity | | exact Hl].
    intros Hin. apply Hs. right. exact Hin.
Qed.

Lemma no_semicolon_no_group (s : jsstring) :
  ~ In semicolon s -> lazy_to_semicolon s = None /\ match_mime s = None.
Proof.
  induction s as [|c s IH]; intros H; [split; reflexivity|].
  assert (E : (c =? semicolon) = false)
    by (apply Z.eqb_neq; intros ->; apply H; left; reflexivity).
  destruct IH as [IH1 IH2]; [intros Hin; apply H; right; exact Hin|].
  cbn [lazy_to_semicolon match_mime]. rewrite E, IH1, IH2.
  split; [destruct (is_line_terminator c) | destruct (c =? colon)];
    reflexivity.
Qed.

Lemma blob_type_plain (t : jsstring) : plain_type t = true -> blob_type t = t.
Proof.
  unfold plain_type, blob_type. intros H.
  assert (P : forallb (fun c => (32 <=? c) && (c <=? 126)) t = true).
  { rewrite forallb_forall in H |- *. intros c Hc.
    specialize (H c Hc). apply andb_true_iff in H. apply H. }
  rewrite P. clear P.
  induction t as [|c t IH]; [reflexivity|].
  cbn [forallb] in H. apply andb_true_iff in H. destruct H as [Hc Ht].
  apply andb_true_iff in Hc. destruct Hc as [_ Hc].
  apply negb_true_iff in Hc.
  cbn [map]. unfold ascii_lowercase at 1. rewrite Hc, (IH Ht). reflexivity.
Qed.

Lemma dataUrlToBlob_decoded
        (type parameters payload bytes : jsstring) :
  type <> [] ->
  ~ In semicolon type -> ~ In comma type ->
  forallb (fun c => negb (is_line_terminator c)) type = true ->
  ~ In comma parameters -> ~ In comma payload ->
  atob payload = Return bytes ->
  dataUrlToBlob atob (lit "data:" ++ type ++ semicolon :: parameters
                          ++ comma :: payload)
  = Return (mkFileBlob (map (fun c => c mod 256) bytes) (blob_type type)).
Proof.
  intros Hne Hsemi Hcomma Hlt Hpar Hpay Hatob. unfold dataUrlToBlob.
  assert (Hsplit : split comma (lit "data:" ++ type ++ semicolon :: parameters
                                    ++ comma :: payload)
                   = [lit "data:" ++ type ++ semicolon :: parameters; payload]).
  { replace (lit "data:" ++ type ++ semicolon :: parameters ++ comma :: payload)
      with ((lit "data:" ++ type ++ semicolon :: parameters) ++ comma :: payload)
      by (rewrite <- !app_assoc; reflexivity).
    rewrite split_first, split_whole; [reflexivity | exact Hpay |].
    intros Hin. apply in_app_or in Hin. destruct Hin as [Hin|Hin].
    - vm_compute in Hin. intuition discriminate.
    - apply in_app_or in Hin. destruct Hin as [Hin|[Hin|Hin]];
        [apply Hcomma, Hin | discriminate Hin | apply Hpar, Hin]. }
  rewrite Hsplit. cbn [nth nth_error].
  change (match_mime (lit "data:" ++ type ++ semicolon :: parameters))
    with (match lazy_to_semicolon (type ++ semicolon :: parameters) with
          | Some group => Some group
          | None => match_mime (type ++ semicolon :: parameters)
          end).
  rewrite (lazy_to_semicolon_stops type parameters Hsemi Hlt).
  destruct type as [|c type]; [contradiction|]. cbn [truthy].
  rewrite Hatob. reflexivity.
Qed.

(** X13.  A data URL [data:<type>;<parameters>,<payload>] becomes a blob
    holding the decoded payload, of the declared type as the Blob
    constructor stores it: in ASCII lower case, or empty when the type
    has a character outside printable ASCII.  The declared type is what
    stands between the first colon and the first semicolon; it is stored
    unchanged when it is printable ASCII without capital letters. *)
Theorem dataUrlToBlob_reads_declared_type
        (type parameters payload bytes : jsstring) :
  type <> [] ->
  ~ In semicolon type -> ~ In comma type ->
  forallb (fun c => negb (is_line_terminator c)) type = true ->
  ~ In comma parameters -> ~ In comma payload ->
  atob payload = Return bytes ->
  let dataUrl := lit "data:" ++ type ++ semicolon :: parameters
                     ++ comma :: payload in
  dataUrlToBlob atob dataUrl
  = Return (mkFileBlob (map (fun c => c mod 256) bytes) (blob_type type)) /\
  (plain_type type = true ->
   dataUrlToBlob atob dataUrl
   = Return (mkFileBlob (map (fun c => c mod 256) bytes) type)).
Proof.
  intros Hne Hsemi Hcomma Hlt Hpar Hpay Hatob dataUrl.
  pose proof (dataUrlToBlob_decoded type parameters payload bytes
                Hne Hsemi Hcomma Hlt Hpar Hpay Hatob) as E.
  fold dataUrl in E. split; [exact E|].
  intros Hp. rewrite E, (blob_type_plain type Hp). reflexivity.
Qed.

(** X14.  Without a semicolon before the first comma no type is found, and the
    blob is labelled [image/jpeg] whatever the URL declares. *)
Theorem dataUrlToBlob_defaults_to_jpeg (dataUrl : jsstring) (blob : FileBlob) :
  ~ In semicolon (nth 0 (split comma dataUrl) []) ->
  dataUrlToBlob atob dataUrl = Return blob ->
  mime blob = lit "image/jpeg".
Proof.
  intros Hsemi. unfold dataUrlToBlob.
  destruct (no_semicolon_no_group _ Hsemi) as [_ ->].
  destruct (atob _) as [bytes|e]; intros H; [|discriminate H].
  injection H as <-. reflexivity.
Qed.

(** X15.  [saveImage] downloads the file at most once, and exactly when it was
    not handed to the share sheet: when sharing files is unsupported
    ([canShare] missing, answering false or throwing) or when [share]
    fails with anything but an [AbortError].  A share the user cancels
    counts as done, and nothing is downloaded. *)
Theorem saveImage_downloads_unless_shared
        (nav : Navigator) (blob : FileBlob) (filename : jsstring) :
  let done := saveImage nav blob filename in
  (downloads done = []
   <-> canShareFiles nav = true /\
       (share nav blob filename = ShareResolved \/
        share nav blob filename = ShareRejected (Some (lit "AbortError")))) /\
  (downloads done <> [] -> downloads done = [(blob, filename)]) /\
  (canShareFiles nav = false -> done = [CallDownload blob filename]) /\
  (canShareFiles nav = true ->
   hd_error done = Some (CallShare blob filename)).
Proof.
  intros done. unfold done, saveImage, shareImageFile, downloadBlob.
  assert (Habort : forall name,
             jsstring_eqb name (lit "AbortError") = true
             <-> name = lit "AbortError").
  { intros name. unfold jsstring_eqb.
    destruct (list_eq_dec Z.eq_dec name (lit "AbortError"));
      split; intros H; congruence. }
  destruct (canShareFiles nav); cbn [negb];
    [destruct (share nav blob filename) as [|[name|]] eqn:Hs;
     [| destruct (jsstring_eqb name (lit "AbortError")) eqn:Ha |] |];
    cbn [negb app downloads flat_map hd_error];
    (split; [split; [intros H | intros [H1 [H2|H2]]] | split; [intros H | split; intros H]]);
    try reflexivity; try discriminate; try contradiction;
    try (split; [reflexivity|]).
  - left. reflexivity.
  - right. apply Habort in Ha. rewrite Ha. reflexivity.
  - injection H2 as H2. apply Habort in H2. congruence.
Qed.

(** X16.  A data URL without a comma is never decoded: the decoder is handed
    the text [undefined] instead of a payload, and when it rejects that,
    the export fails before anything is shared or downloaded. *)
Theorem export_without_comma_fails
        (nav : Navigator) (dataUrl filename : jsstring) (e : string) :
  ~ In comma dataUrl ->
  atob (lit "undefined") = Throw e ->
  dataUrlToBlob atob dataUrl = Throw e /\
  exportSingleImage atob nav dataUrl filename = Throw e.
Proof.
  intros Hc Ha.
  assert (E : dataUrlToBlob atob dataUrl = Throw e).
  { unfold dataUrlToBlob. rewrite (split_whole comma dataUrl Hc).
    cbn [nth_error]. rewrite Ha. reflexivity. }
  split; [exact E|]. unfold exportSingleImage. rewrite E. reflexivity.
Qed.

(** X17.  [exportSingleImage] of a well-formed data URL always acts: it shares
    or downloads (or both, one after the other), and whatever it does
    carries the decoded payload under the given file name, typed with the
    declared type as the Blob constructor stores it (in lower case, or
    empty when it is not printable ASCII). *)
Theorem exportSingleImage_saves_decoded_blob
        (nav : Navigator) (type parameters payload bytes filename : jsstring) :
  type <> [] ->
  ~ In semicolon type -> ~ In comma type ->
  forallb (fun c => negb (is_line_terminator c)) type = true ->
  ~ In comma parameters -> ~ In comma payload ->
  atob payload = Return bytes ->
  let blob := mkFileBlob (map (fun c => c mod 256) bytes) (blob_type type) in
  exists done,
    exportSingleImage atob nav
                      (lit "data:" ++ type ++ semicolon :: parameters
                           ++ comma :: payload) filename
    = Return done /\
    done <> [] /\
    Forall (fun act => act = CallShare blob filename \/
                       act = CallDownload blob filename) done.
Proof.
  intros Hne Hsemi Hcomma Hlt Hpar Hpay Hatob blob.
  unfold exportSingleImage.
  rewrite (dataUrlToBlob_decoded type parameters payload bytes
             Hne Hsemi Hcomma Hlt Hpar Hpay Hatob).
  fold blob. eexists. split; [reflexivity|].
  unfold saveImage, shareImageFile, downloadBlob.
  destruct (canShareFiles nav); cbn [negb].
  - destruct (share nav blob filename) as [|[name|]];
      [| destruct (jsstring_eqb name (lit "AbortError")) |];
      cbn [negb app]; (split; [discriminate|]);
      repeat (apply Forall_cons || apply Forall_nil); auto.
  - cbn [app]. split; [discriminate|].
    repeat (apply Forall_cons || apply Forall_nil); auto.
Qed.

End Saving.

Lemma dataUrlToBlob_reads_declared_type_witness :
  Save.dataUrlToBlob (fun _ => Return [255; 216; 255]%Z)
                     (lit "data:IMAGE/PNG;base64,/9j/")
  = Return (Save.mkFileBlob [255; 216; 255]%Z (lit "image/png")).
Proof.
  refine (proj1 (dataUrlToBlob_reads_declared_type
                   (fun _ => Return [255; 216; 255]%Z)
                   (lit "IMAGE/PNG") (lit "base64") (lit "/9j/")
                   [255; 216; 255]%Z _ _ _ _ _ _ _));
    try reflexivity; try discriminate;
    vm_compute; intuition discriminate.
Defined.

Lemma dataUrlToBlob_defaults_to_jpeg_witness :
  exists blob : Save.FileBlob,
    Save.dataUrlToBlob (fun _ => Return [60; 115]%Z)
                       (lit "data:image/svg+xml,<s")
    = Return blob /\
    Save.mime blob = lit "image/jpeg".
Proof.
  eexists. split; [reflexivity|].
  apply (dataUrlToBlob_defaults_to_jpeg (fun _ => Return [60; 115]%Z)
           (lit "data:image/svg+xml,<s")).
  - vm_compute. intuition discriminate.
  - reflexivity.
Defined.

Lemma export_without_comma_fails_witness :
  Save.exportSingleImage
    (fun s => if Save.jsstring_eqb s (lit "undefined")
              then Throw "InvalidCharacterError"%string else Return s)
    (Save.mkNavigator None (fun _ _ => Save.ShareResolved))
    (lit "data:image/png;base64") (lit "before.png")
  = Throw "InvalidCharacterError"%string.
Proof.
  apply (export_without_comma_fails
           (fun s => if Save.jsstring_eqb s (lit "undefined")
                     then Throw "InvalidCharacterError"%string else Return s)
           (Save.mkNavigator None (fun _ _ => Save.ShareResolved))
           (lit "data:image/png;base64") (lit "before.png")
           "InvalidCharacterError"%string).
  - vm_compute. intuition discriminate.
  - reflexivity.
Defined.

Lemma exportSingleImage_saves_decoded_blob_witness :
  exists done,
    Save.exportSingleImage
      (fun _ => Return [255; 216]%Z)
      (Save.mkNavigator None (fun _ _ => Save.ShareResolved))
      (lit "data:" ++ lit "image/png" ++ Save.semicolon :: lit "base64"
           ++ Save.comma :: lit "/9g=") (lit "before.png")
    = Return done /\ done <> [].
Proof.
  destruct (exportSingleImage_saves_decoded_blob
              (fun _ => Return [255; 216]%Z)
              (Save.mkNavigator None (fun _ _ => Save.ShareResolved))
              (lit "image/png") (lit "base64") (lit "/9g=") [255; 216]%Z
              (lit "before.png")) as (done & E & Hne & _);
    try reflexivity; try discriminate;
    try (vm_compute; intuition discriminate).
  exists done. split; [exact E | exact Hne].
Defined.

(** ** Slider interaction *)

Section Interaction.

Import Preview.
Open Scope Q_scope.

Lemma clamp_range (v : Q) : 0 <= Qmax 0 (Qmin 100 v) /\ Qmax 0 (Qmin 100 v) <= 100.
Proof.
  split; [apply Q.le_max_l|].
  apply Q.max_lub; [lra | apply Q.le_min_l].
Qed.

Lemma clamp_inside (v : Q) : 0 <= v -> v <= 100 -> Qmax 0 (Qmin 100 v) == v.
Proof.
  intros H0 H1. rewrite (Q.min_r 100 v H1). apply Q.max_r. exact H0.
Qed.

Lemma clamp_below (v : Q) : v <= 0 -> Qmax 0 (Qmin 100 v) == 0.
Proof.
  intros H. rewrite (Q.min_r 100 v) by lra. apply Q.max_l. exact H.
Qed.

Lemma clamp_above (v : Q) : 100 <= v -> Qmax 0 (Qmin 100 v) == 100.
Proof.
  intros H. rewrite (Q.min_l 100 v H). apply Q.max_r. lra.
Qed.

Lemma scaled_sign (x w : Q) :
  0 < w ->
  (x <= 0 -> x / w * 100 <= 0) /\
  (0 <= x -> 0 <= x / w * 100) /\
  (x <= w -> x / w * 100 <= 100) /\
  (w <= x -> 100 <= x / w * 100).
Proof.
  intros Hw.
  assert (Hi : 0 < / w) by (apply Qinv_lt_0_compat; exact Hw).
  assert (E : w * / w == 1) by (apply Qmult_inv_r; lra).
  unfold Qdiv. repeat split; intros H; nra.
Qed.


(** X19.  The arrow keys of the exported page move the slider by two percent,
    stopping at 0 and at 100; any other key changes nothing.  A slider
    standing at exactly 0 is read as standing at 50, like one that was
    never moved: from there the arrows lead to 48 and 52. *)
Theorem keydown_steps (s : slider) (p : Q) :
  handle_left s = Some p -> 0 <= p -> p <= 100 ->
  keydown OtherKey s = s /\
  (~ p == 0 ->
   handle_left (keydown ArrowLeft s) = Some (Qmax 0 (p - 2)) /\
   handle_left (keydown ArrowRight s) = Some (Qmin 100 (p + 2))) /\
  (p == 0 ->
   handle_left (keydown ArrowLeft s) = Some (Qmax 0 (50 - 2)) /\
   handle_left (keydown ArrowRight s) = Some (Qmin 100 (50 + 2)) /\
   aria_valuenow (keydown ArrowLeft s) = 48%Z /\
   aria_valuenow (keydown ArrowRight s) = 52%Z) /\
  handle_left (keydown ArrowLeft loaded) = Some (Qmax 0 (50 - 2)).
Proof.
  intros Hl H0 H1. split; [reflexivity|].
  unfold keydown, current_pct. rewrite Hl. cbn [handle_left].
  split; [|split; [|reflexivity]].
  - intros Hne.
    assert (E : Qeq_bool p 0 = false).
    { destruct (Qeq_bool p 0) eqn:E; [|reflexivity].
      apply Qeq_bool_iff in E. contradiction. }
    rewrite E. split; reflexivity.
  - intros Hz. apply Qeq_bool_iff in Hz. rewrite Hz.
    repeat split; reflexivity.
Qed.

Lemma updateSlider_in_sync (css : style_round_trip)
      (rect : DOMRect) (clientX : Q) (s : slider) :
  in_sync (updateSlider css rect clientX s).
Proof. split; [reflexivity | discriminate]. Qed.

Lemma keydown_in_sync (k : key) (s : slider) : in_sync s -> in_sync (keydown k s).
Proof.
  intros Hs. unfold keydown.
  destruct k; [| |exact Hs]; split; [reflexivity | discriminate | reflexivity
                                     | discriminate].
Qed.

Lemma updateSlider_aria (css : style_round_trip)
      (rect : DOMRect) (clientX : Q) (s : slider) :
  (0 <= aria_valuenow (updateSlider css rect clientX s) <= 100)%Z.
Proof.
  unfold updateSlider. cbn [aria_valuenow].
  destruct (clamp_range (fmul (fdiv (fsub clientX (rect_left rect))
                                    (rect_width rect)) 100)) as [H0 H1].
  split; [apply Math_round_ge, H0 | apply Math_round_le, H1].
Qed.


(** A click at x = 23 on a container 40 pixels wide, where the exact
    percentage is 57.5: the product is the binary64 number just below
    it, and the ARIA value written is 57. *)
Lemma click_at_a_tie (css : style_round_trip) (s : slider) :
  slider_pct (mkRect 0 40) 23 == 115 # 2 /\
  aria_valuenow (updateSlider css (mkRect 0 40) 23 s) = 57%Z.
Proof. split; [reflexivity | vm_compute; reflexivity]. Qed.

Ltac qfield := field; (lra || (split; lra)).

Lemma fit_dimensions (nw nh c m : Q) :
  0 < nw -> 0 < nh -> 0 < c -> 0 < m ->
  let aspect := nw / nh in
  0 < aspect /\
  (c / aspect) * aspect == c /\
  (m < c / aspect -> m * aspect < c) /\
  (m * aspect) * nh == m * nw /\
  c * nh == (c / aspect) * nw /\
  0 < c / aspect.
Proof.
  intros Hnw Hnh Hc Hm aspect.
  assert (Ha : 0 < aspect)
    by (apply Qlt_shift_div_l; [exact Hnh | lra]).
  assert (E : (c / aspect) * aspect == c) by (field; lra).
  assert (Hq : 0 < c / aspect)
    by (apply Qlt_shift_div_l; [exact Ha | lra]).
  split; [exact Ha|]. split; [exact E|]. split; [intros H; nra|].
  split; [unfold aspect; field; lra|].
  split; [unfold aspect; field; split; lra | exact Hq].
Qed.

(** X21.  [matchSize] of the inline slider fits the pictures into the available
    width and into 55% of the window height without changing the aspect
    ratio of the after image: one of the two limits is reached and the
    other respected. *)
Theorem matchSize_inline_fits
        (naturalWidth naturalHeight : Z) (parentOffsetWidth : option Z)
        (offsetWidth innerHeight : Z) :
  let containerW :=
    match parentOffsetWidth with
    | Some pw => if (pw =? 0)%Z then offsetWidth else pw
    | None => offsetWidth
    end in
  let maxH := inject_Z innerHeight * 0.55 in
  (0 < naturalWidth)%Z -> (0 < naturalHeight)%Z ->
  (0 < containerW)%Z -> (0 < innerHeight)%Z ->
  exists w h : Q,
    matchSize_inline naturalWidth naturalHeight parentOffsetWidth
                     offsetWidth innerHeight
    = Some (mkSize w h) /\
    0 < w /\ w <= inject_Z containerW /\
    0 < h /\ h <= maxH /\
    w * inject_Z naturalHeight == h * inject_Z naturalWidth /\
    (w == inject_Z containerW \/ h == maxH).
Proof.
  intros containerW maxH Hnw Hnh Hc Hih.
  pose proof (inject_Z_pos _ Hnw) as Hnw'.
  pose proof (inject_Z_pos _ Hnh) as Hnh'.
  pose proof (inject_Z_pos _ Hc) as Hc'.
  pose proof (inject_Z_pos _ Hih) as Hih'.
  assert (Hm : 0 < maxH) by (unfold maxH; lra).
  destruct (fit_dimensions _ _ _ _ Hnw' Hnh' Hc' Hm)
    as (Ha & E & Hlt & Ew & Eh & Hq).
  unfold matchSize_inline. fold containerW. fold maxH.
  assert (Ez : ((naturalWidth =? 0)%Z || (naturalHeight =? 0)%Z) = false).
  { apply orb_false_iff. split; apply Z.eqb_neq; lia. }
  rewrite Ez.
  destruct (JS.lt maxH
                  (inject_Z containerW
                   / (inject_Z naturalWidth / inject_Z naturalHeight))) eqn:L.
  - apply JS_lt_spec in L. eexists _, _. split; [reflexivity|].
    specialize (Hlt L).
    split; [nra|]. split; [lra|]. split; [exact Hm|]. split; [lra|].
    split; [exact Ew|]. right. reflexivity.
  - apply JS_lt_false in L. eexists _, _. split; [reflexivity|].
    split; [exact Hc'|]. split; [lra|]. split; [exact Hq|].
    split; [exact L|]. split; [exact Eh|]. left. reflexivity.
Qed.

(** X22.  [matchSize] of the fullscreen slider letterboxes the after image: it
    fills the viewport in one direction, fits in the other, keeps its
    aspect ratio, and is centred, with equal non-negative bars on opposite
    sides. *)
Theorem matchSize_fullscreen_letterboxes
        (naturalWidth naturalHeight innerWidth innerHeight : Z) :
  (0 < naturalWidth)%Z -> (0 < naturalHeight)%Z ->
  (0 < innerWidth)%Z -> (0 < innerHeight)%Z ->
  exists b : Box,
    matchSize_fullscreen naturalWidth naturalHeight innerWidth innerHeight
    = Some b /\
    0 < box_w b /\ 0 < box_h b /\
    0 <= box_left b /\ 0 <= box_top b /\
    box_left b + box_w b + box_left b == inject_Z innerWidth /\
    box_top b + box_h b + box_top b == inject_Z innerHeight /\
    box_w b * inject_Z naturalHeight == box_h b * inject_Z naturalWidth /\
    (box_left b == 0 \/ box_top b == 0).
Proof.
  intros Hnw Hnh Hvw Hvh.
  pose proof (inject_Z_pos _ Hnw) as Hnw'.
  pose proof (inject_Z_pos _ Hnh) as Hnh'.
  pose proof (inject_Z_pos _ Hvw) as Hvw'.
  pose proof (inject_Z_pos _ Hvh) as Hvh'.
  destruct (fit_dimensions _ _ _ _ Hnw' Hnh' Hvw' Hvh')
    as (Ha & E & Hlt & Ew & Eh & Hq).
  unfold matchSize_fullscreen.
  assert (Ez : ((naturalWidth =? 0)%Z || (naturalHeight =? 0)%Z) = false).
  { apply orb_false_iff. split; apply Z.eqb_neq; lia. }
  rewrite Ez. cbv zeta.
  destruct (JS.lt (inject_Z innerHeight)
                  (inject_Z innerWidth
                   / (inject_Z naturalWidth / inject_Z naturalHeight))) eqn:L.
  - apply JS_lt_spec in L. specialize (Hlt L).
    eexists. split; [reflexivity|]. cbn [box_w box_h box_left box_top].
    split; [nra|]. split; [exact Hvh'|].
    split; [apply Qle_shift_div_l; lra|].
    split; [apply Qle_shift_div_l; lra|].
    split; [qfield|]. split; [qfield|]. split; [exact Ew|].
    right. qfield.
  - apply JS_lt_false in L.
    eexists. split; [reflexivity|]. cbn [box_w box_h box_left box_top].
    split; [exact Hvw'|]. split; [exact Hq|].
    split; [apply Qle_shift_div_l; lra|].
    split; [apply Qle_shift_div_l; lra|].
    split; [qfield|]. split; [qfield|]. split; [exact Eh|].
    left. qfield.
Qed.

End Interaction.


Lemma keydown_steps_witness :
  Preview.handle_left
    (Preview.keydown Preview.ArrowRight
                     (Preview.mkSlider false (Some 0%Q) (Some 0%Q) 0))
  = Some (Qmin 100 (50 + 2)).
Proof.
  assert (H := keydown_steps (Preview.mkSlider false (Some 0%Q) (Some 0%Q) 0)
                             0 eq_refl).
  destruct H as (_ & _ & H & _); [vm_compute; discriminate ..|].
  apply H. reflexivity.
Defined.


Lemma matchSize_inline_fits_witness :
  exists w h : Q,
    Preview.matchSize_inline 4000 3000 (Some 800%Z) 0 1000
    = Some (Preview.mkSize w h) /\ (h <= inject_Z 1000 * 0.55)%Q.
Proof.
  destruct (matchSize_inline_fits 4000 3000 (Some 800%Z) 0 1000)
    as (w & h & E & _ & _ & _ & Hh & _); try reflexivity.
  exists w, h. split; [exact E | exact Hh].
Defined.

Lemma matchSize_fullscreen_letterboxes_witness :
  exists b : Preview.Box,
    Preview.matchSize_fullscreen 4000 3000 1080 1920 = Some b /\
    (Preview.box_left b == 0)%Q.
Proof.
  destruct (matchSize_fullscreen_letterboxes 4000 3000 1080 1920)
    as (b & E & _); try reflexivity.
  exists b. split; [exact E|].
  vm_compute in E. injection E as <-. reflexivity.
Defined.

(** ** The service worker *)

Section Worker.

Import ServiceWorker.

Lemma jsstring_eqb_eq (a b : jsstring) : Save.jsstring_eqb a b = true <-> a = b.
Proof.
  unfold Save.jsstring_eqb.
  destruct (list_eq_dec Z.eq_dec a b); split; congruence.
Qed.

Lemma jsstring_eqb_neq (a b : jsstring) : Save.jsstring_eqb a b = false <-> a <> b.
Proof.
  unfold Save.jsstring_eqb.
  destruct (list_eq_dec Z.eq_dec a b); split; congruence.
Qed.

Lemma filter_filter {A : Type} (f g : A -> bool) (l : list A) :
  filter f (filter g l) = filter (fun x => g x && f x) l.
Proof.
  induction l as [|x l IH]; [reflexivity|].
  cbn [filter]. destruct (g x); cbn [filter andb]; rewrite IH; reflexivity.
Qed.

Lemma delete_all (stale storage : list jsstring) :
  fold_left (fun st k => delete k st) stale storage
  = filter (fun name => negb (existsb (Save.jsstring_eqb name) stale)) storage.
Proof.
  revert storage. induction stale as [|k stale IH]; intros storage.
  - cbn. induction storage as [|x l IHl]; [reflexivity|].
    cbn [filter]. rewrite <- IHl. reflexivity.
  - cbn [fold_left]. rewrite IH. unfold delete. rewrite filter_filter.
    apply filter_ext. intros name. cbn [existsb].
    rewrite negb_orb. reflexivity.
Qed.

Lemma existsb_filter_self (P : jsstring -> bool) (storage : list jsstring)
      (name : jsstring) :
  In name storage ->
  existsb (Save.jsstring_eqb name) (filter P storage) = P name.
Proof.
  intros Hin. destruct (P name) eqn:E.
  - apply existsb_exists. exists name. split.
    + apply filter_In. split; assumption.
    + apply jsstring_eqb_eq. reflexivity.
  - destruct (existsb _ _) eqn:X; [|reflexivity].
    apply existsb_exists in X. destruct X as (k & Hk & Heq).
    apply jsstring_eqb_eq in Heq. subst k.
    apply filter_In in Hk. destruct Hk as [_ Hk]. congruence.
Qed.

(** X23.  Activation purges exactly the stale caches of this application: of
    the cache storage it keeps, in their order, the caches whose name
    does not start with [ba-pro-] and the current cache [ba-pro-v2], and
    nothing else; activating again changes nothing. *)
Theorem activate_purges_stale_caches (storage : list jsstring) :
  activate storage
  = filter (fun k => negb (startsWith k (lit "ba-pro-"))
                     || Save.jsstring_eqb k (lit "ba-pro-v2")) storage /\
  (forall name,
      In name (activate storage) <->
      In name storage /\
      (startsWith name (lit "ba-pro-") = false \/ name = lit "ba-pro-v2")) /\
  activate (activate storage) = activate storage.
Proof.
  assert (E : forall st,
             activate st
             = filter (fun k => negb (startsWith k (lit "ba-pro-"))
                                || Save.jsstring_eqb k (lit "ba-pro-v2")) st).
  { intros st. unfold activate. cbv zeta. rewrite delete_all.
    apply filter_ext_in. intros name Hin.
    rewrite (existsb_filter_self _ st name Hin).
    rewrite negb_andb, negb_involutive. reflexivity. }
  split; [apply E|]. split.
  - intros name. rewrite E, filter_In, orb_true_iff, negb_true_iff,
                         jsstring_eqb_eq. reflexivity.
  - rewrite (E (activate storage)), E, filter_filter.
    apply filter_ext. intros k. apply andb_diag.
Qed.

Section Platform.

Variable origin : jsstring.
Variable network : Request -> option Response.

(** X24.  The worker is network-first: when the network answers, the page gets
    the network's response and the cache is not consulted, whatever it
    holds; the response is stored only if it is [ok] and of type
    [basic]. *)
Theorem fetch_prefers_network
        (cache cache' : jsstring -> option Response)
        (request : Request) (response : Response) :
  network request = Some response ->
  on_fetch origin network cache request
  = on_fetch origin network cache' request /\
  (on_fetch origin network cache request = NotIntercepted \/
   exists put,
     on_fetch origin network cache request
     = Responded (Some response) put /\
     (put = Some response /\
      ok response = true /\ response_type response = lit "basic"
      \/
      put = None /\
      (ok response = false \/ response_type response <> lit "basic"))).
Proof.
  intros Hn. unfold on_fetch. rewrite Hn.
  split; [reflexivity|].
  destruct (negb (Save.jsstring_eqb (method request) (lit "GET")));
    [left; reflexivity|].
  destruct (negb (startsWith (url request) origin)); [left; reflexivity|].
  destruct (negb (startsWith (url request) (lit "http")));
    [left; reflexivity|].
  right. destruct (ok response) eqn:Eo; cbn [andb].
  - destruct (Save.jsstring_eqb (response_type response) (lit "basic")) eqn:Et.
    + eexists. split; [reflexivity|]. left.
      apply jsstring_eqb_eq in Et. auto.
    + eexists. split; [reflexivity|]. right.
      apply jsstring_eqb_neq in Et. auto.
  - eexists. split; [reflexivity|]. right. auto.
Qed.

(** X25.  The worker touches only same-origin http GET requests, and it never
    stores anything but the network's own successful response to the
    request: nothing is written to the cache while offline, and no
    fallback is stored. *)
Theorem fetch_stores_only_fresh_responses
        (cache : jsstring -> option Response)
        (request : Request) (served : option Response) (put : option Response) :
  on_fetch origin network cache request = Responded served put ->
  method request = lit "GET" /\
  startsWith (url request) origin = true /\
  startsWith (url request) (lit "http") = true /\
  (forall stored, put = Some stored ->
     network request = Some stored /\ served = Some stored /\
     ok stored = true /\ response_type stored = lit "basic").
Proof.
  unfold on_fetch.
  destruct (Save.jsstring_eqb (method request) (lit "GET")) eqn:Em;
    cbn [negb]; [|discriminate].
  destruct (startsWith (url request) origin) eqn:Eo;
    cbn [negb]; [|discriminate].
  destruct (startsWith (url request) (lit "http")) eqn:Eh;
    cbn [negb]; [|discriminate].
  intros H. apply jsstring_eqb_eq in Em.
  split; [exact Em|]. split; [reflexivity|]. split; [reflexivity|].
  intros stored Hp. subst put.
  destruct (network request) as [response|].
  - destruct (ok response) eqn:Ek; cbn [andb] in H.
    + destruct (Save.jsstring_eqb (response_type response) (lit "basic"))
               eqn:Et; [|discriminate].
      injection H as <- <-. apply jsstring_eqb_eq in Et. auto.
    + discriminate.
  - destruct (cache (url request)); [discriminate|].
    destruct (Save.jsstring_eqb (mode request) (lit "navigate"));
      discriminate.
Qed.

(** X26.  Offline, a request the worker handles is answered from the cache; a
    page navigation that is not cached gets the cached application shell
    (nothing at all if the shell is not cached either), and any other
    uncached request a 503 response with the body [Offline]. *)
Theorem fetch_offline_fallbacks
        (cache : jsstring -> option Response) (request : Request) :
  network request = None ->
  on_fetch origin network cache request <> NotIntercepted ->
  exists served,
    on_fetch origin network cache request = Responded served None /\
    (forall cached, cache (url request) = Some cached ->
                    served = Some cached) /\
    (cache (url request) = None -> mode request = lit "navigate" ->
     served = cache (lit "/beforeafter/")) /\
    (cache (url request) = None -> mode request <> lit "navigate" ->
     exists r, served = Some r /\ status r = 503%Z /\
               body r = lit "Offline" /\ ok r = false).
Proof.
  intros Hn. unfold on_fetch. rewrite Hn.
  destruct (negb (Save.jsstring_eqb (method request) (lit "GET")));
    [congruence|].
  destruct (negb (startsWith (url request) origin)); [congruence|].
  destruct (negb (startsWith (url request) (lit "http"))); [congruence|].
  intros _.
  destruct (cache (url request)) as [cached|] eqn:Ec.
  - eexists. split; [reflexivity|].
    split; [intros c Hc; congruence|]. split; discriminate.
  - destruct (Save.jsstring_eqb (mode request) (lit "navigate")) eqn:Em.
    + apply jsstring_eqb_eq in Em. eexists. split; [reflexivity|].
      split; [discriminate|]. split; [reflexivity | congruence].
    + apply jsstring_eqb_neq in Em. eexists. split; [reflexivity|].
      split; [discriminate|]. split; [congruence|].
      intros _ _. eexists. repeat split.
Qed.

End Platform.

End Worker.

Lemma fetch_prefers_network_witness :
  let request := ServiceWorker.mkRequest
                   (lit "GET") (lit "https://a.io/beforeafter/x.js")
                   (lit "no-cors") in
  let fresh := ServiceWorker.mkResponse true (lit "basic") 200 (lit "new") in
  let stale := ServiceWorker.mkResponse true (lit "basic") 200 (lit "old") in
  ServiceWorker.on_fetch (lit "https://a.io") (fun _ => Some fresh)
                         (fun _ => Some stale) request
  = ServiceWorker.on_fetch (lit "https://a.io") (fun _ => Some fresh)
                           (fun _ => None) request.
Proof.
  intros request fresh stale.
  apply (fetch_prefers_network (lit "https://a.io") (fun _ => Some fresh)
                               (fun _ => Some stale) (fun _ => None)
                               request fresh).
  reflexivity.
Defined.

Lemma fetch_stores_only_fresh_responses_witness :
  let request := ServiceWorker.mkRequest
                   (lit "GET") (lit "https://a.io/beforeafter/x.js")
                   (lit "no-cors") in
  let fresh := ServiceWorker.mkResponse true (lit "basic") 200 (lit "new") in
  ServiceWorker.method request = lit "GET" /\
  Str.startsWith (ServiceWorker.url request) (lit "https://a.io") = true.
Proof.
  intros request fresh.
  destruct (fetch_stores_only_fresh_responses
              (lit "https://a.io") (fun _ => Some fresh) (fun _ => None)
              request (Some fresh) (Some fresh)) as (H1 & H2 & _).
  - vm_compute. reflexivity.
  - split; [exact H1 | exact H2].
Defined.

Lemma fetch_offline_fallbacks_witness :
  let request := ServiceWorker.mkRequest
                   (lit "GET") (lit "https://a.io/beforeafter/x.js")
                   (lit "no-cors") in
  exists served,
    ServiceWorker.on_fetch (lit "https://a.io") (fun _ => None)
                           (fun _ => None) request
    = ServiceWorker.Responded served None.
Proof.
  intros request.
  destruct (fetch_offline_fallbacks
              (lit "https://a.io") (fun _ => None) (fun _ => None) request)
    as (served & H & _).
  - reflexivity.
  - vm_compute. discriminate.
  - exists served. exact H.
Defined.

(** ** The first revision of the side-by-side export *)

Section Revisions.

Import SideBySide.

Variable measureText : font -> jsstring -> Q.
Variable formatDate : Date -> jsstring.
Variable encode : canvas -> string -> Q -> jsstring.
Variable loadImg : jsstring -> completion Image.

(** X27.  With the features added since switched off (a blank watermark, and
    dates hidden or not given) the current [createSideBySide] is the
    first revision: the same canvas, the same drawing commands, the same
    data URL, the same rejection. *)
Theorem createSideBySide_extends_first_revision
        (beforeDataUrl afterDataUrl : jsstring) (options : SideBySideOptions) :
  truthy (trim (default [] (watermark options))) = false ->
  default true (showDates options) = false \/
  (beforeDate options = None /\ afterDate options = None) ->
  createSideBySide measureText formatDate encode loadImg
                   beforeDataUrl afterDataUrl options
  = Legacy.createSideBySide measureText encode loadImg
                            beforeDataUrl afterDataUrl (quality options).
Proof.
  intros Hw Hd. unfold createSideBySide, Legacy.createSideBySide.
  destruct (loadImg beforeDataUrl) as [beforeImg|e]; [|reflexivity].
  destruct (loadImg afterDataUrl) as [afterImg|e]; [|reflexivity].
  unfold compose, watermark_strip. rewrite Hw. cbv beta iota zeta.
  rewrite app_nil_r, Z.add_0_r.
  destruct Hd as [Hd|[Hb Ha]].
  - rewrite Hd. reflexivity.
  - rewrite Hb, Ha. destruct (default true (showDates options)); reflexivity.
Qed.

End Revisions.

Lemma createSideBySide_extends_first_revision_witness :
  let load := fun _ : jsstring => Return (mkImage (lit "x") 640 480) in
  SideBySide.createSideBySide (fun _ _ => 100%Q) (fun _ => lit "Jan 1, 2024")
                              (fun _ _ _ => lit "data:image/jpeg;base64,AA")
                              load (lit "a") (lit "b")
                              (SideBySide.mkOptions None (Some (lit "  "))
                                                    (Some 0%Z) None (Some false))
  = Legacy.createSideBySide (fun _ _ => 100%Q)
                            (fun _ _ _ => lit "data:image/jpeg;base64,AA")
                            load (lit "a") (lit "b") None.
Proof.
  intros load.
  apply (createSideBySide_extends_first_revision
           (fun _ _ => 100%Q) (fun _ => lit "Jan 1, 2024")
           (fun _ _ _ => lit "data:image/jpeg;base64,AA") load
           (lit "a") (lit "b")
           (SideBySide.mkOptions None (Some (lit "  "))
                                 (Some 0%Z) None (Some false))).
  - reflexivity.
  - left. reflexivity.
Defined.
